(** * Agent cluster: the control plane of the agent tree

    A shallow embedding of the TypeScript sources of the agent cluster
    (core/Agent.ts, core/ChildAgent.ts, core/RootAgent.ts, core/Monitor.ts and
    the types they share), followed by the properties of the node life cycle,
    error-loop detection, dispatch and aggregation.

    Conventions of the embedding.
    - A JavaScript object used as a record with an open set of keys
      ([Record<string, any>]) is an association list in insertion order;
      values of type [any] are [JsVal].
    - A [Map<string, IAgent>] is an association list in insertion order with
      the Map operations [children_get], [children_set], [children_delete].
      A reference to a child held in a local variable is the key of that child
      in the map that owns it.
    - Methods mutate [this] and talk to the outside (persistence, the LLM
      service, the uuid generator).  A method is a function from the receiver
      and the world to an outcome: a value or a thrown error, the receiver
      after the call and the world after the call.  A thrown error does not
      undo the mutations made before it.
    - The collaborators are parameters gathered in [Env]: every persistence
      call may reject, every LLM call may reject, and both may answer
      differently on every call (they are indexed by a call counter).
    - [await] sequences; a promise that is not awaited but given a
      [.catch(console.error)] is sequenced at its call site and its failure
      dropped.  A promise that is neither awaited nor given a [catch] is
      sequenced at its call site as well; when it rejects nobody holds it,
      and the rejection is recorded in the world as unhandled (Node reports
      an unhandled rejection and, by default, ends the process with it).
    - Wall-clock fields ([createdAt], [updatedAt], [completedAt], [timestamp],
      [executedAt], [deadline]) and console output are left out; the periodic
      check of the monitor is driven by a timer: it is a method of its own
      ([Monitor_performCheck]) and not part of the other methods.
    - An optional key [k?: T] of a configuration is absent, or present with
      the value [undefined], or present with a value of type [T]: an object
      spread copies the keys that are present, whatever they hold.
    - [getLLMService()] answers the service that was installed or, when none
      was, makes one from the API key of the process environment and throws
      when there is none; [llm_service] of [Env] tells which.
    - A number is an integer ([JNum] holds a [Z]); [js_toString] prints it in
      decimal, as JavaScript does below 10^21. *)

From stdpp Require Import base option list strings gmap pretty.

Open Scope string_scope.
Open Scope list_scope.
Open Scope nat_scope.

Set Warnings "-register-all".

(** ** JavaScript values *)

Inductive JsVal : Type :=
  | JUndef
  | JNull
  | JBool (b : bool)
  | JNum (n : Z)
  | JStr (s : string)
  | JArr (l : list JsVal)
  | JObj (o : list (string * JsVal)).

Definition JsObj : Type := list (string * JsVal).

(** ToBoolean. *)
Definition truthy (v : JsVal) : bool :=
  match v with
  | JUndef | JNull => false
  | JBool b => b
  | JNum n => negb (n =? 0)%Z
  | JStr s => negb (String.eqb s "")
  | JArr _ | JObj _ => true
  end.

Definition truthy_str (s : string) : bool := negb (String.eqb s "").

Definition truthy_ostr (o : option string) : bool :=
  match o with Some s => truthy_str s | None => false end.

(** ToString, as used by template literals; [Array.prototype.join] prints
    [null] and [undefined] elements as the empty string. *)
Fixpoint js_toString (v : JsVal) : string :=
  match v with
  | JUndef => "undefined"
  | JNull => "null"
  | JBool true => "true"
  | JBool false => "false"
  | JNum n => pretty n
  | JStr s => s
  | JArr l =>
      String.concat ","
        (map (fun x =>
                match x with
                | JUndef | JNull => ""
                | _ => js_toString x
                end) l)
  | JObj _ => "[object Object]"
  end.

(** [o.k]: the value of an own property, [undefined] when there is none. *)
Fixpoint obj_get (k : string) (o : JsObj) : JsVal :=
  match o with
  | [] => JUndef
  | (k', v) :: o' => if String.eqb k k' then v else obj_get k o'
  end.

(** [o.k = v]: overwrite in place, or append a new own property. *)
Fixpoint obj_set (k : string) (v : JsVal) (o : JsObj) : JsObj :=
  match o with
  | [] => [(k, v)]
  | (k', v') :: o' =>
      if String.eqb k k' then (k', v) :: o' else (k', v') :: obj_set k v o'
  end.


(** [c?.k] on an optional object. *)
Definition opt_get (k : string) (c : option JsObj) : JsVal :=
  match c with Some o => obj_get k o | None => JUndef end.

(** An optional key [k?: T] of an object literal. *)
Inductive Key (A : Type) : Type :=
  | Absent
  | Present (v : option A).
Arguments Absent {A}.
Arguments Present {A} v.

(** The key is present and holds [x]. *)
Definition Given {A} (x : A) : Key A := Present (Some x).

(** [o.k]: [undefined] when the key is absent or holds [undefined]. *)
Definition read {A} (k : Key A) : option A :=
  match k with
  | Absent => None
  | Present v => v
  end.

(** The key [k] of [{ k: d, ...o }]: a key that is present in [o] wins,
    also when it holds [undefined]. *)
Definition over {A} (d : option A) (k : Key A) : option A :=
  match k with
  | Absent => d
  | Present v => v
  end.

(** The key that holds [v], when [v] is a value. *)
Definition key_of {A} (v : option A) : Key A :=
  match v with
  | Some x => Given x
  | None => Absent
  end.

(** [a || b] on strings and on optional strings. *)
Definition or_str (o : option string) (d : string) : string :=
  match o with
  | Some s => if truthy_str s then s else d
  | None => d
  end.

(** [Array.prototype.slice(start)] for an integral [start]. *)
Definition js_slice_from {A} (start : Z) (l : list A) : list A :=
  let len := Z.of_nat (length l) in
  let k := if (start <? 0)%Z then Z.max (len + start) 0 else Z.min start len in
  drop (Z.to_nat k) l.

(** [String.prototype.includes]. *)
Fixpoint str_prefix (p s : string) : bool :=
  match p, s with
  | EmptyString, _ => true
  | String a p', String b s' => if Ascii.eqb a b then str_prefix p' s' else false
  | String _ _, EmptyString => false
  end.

Fixpoint includes (s kw : string) : bool :=
  if str_prefix kw s then true
  else match s with
       | EmptyString => false
       | String _ s' => includes s' kw
       end.

(** ** types/index.ts *)

Inductive AgentStatus : Type :=
  | IDLE | PENDING | RUNNING | COMPLETED | FAILED | TERMINATED | ERROR_LOOP.

Inductive AgentType : Type := ROOT | CHILD.

Inductive MonitorEventType : Type :=
  | ERROR_DETECTED | LOOP_DETECTED | TIMEOUT | AGENT_TERMINATED | AGENT_RECREATED.

Global Instance AgentStatus_eq_dec : EqDecision AgentStatus.
Proof. solve_decision. Defined.

Global Instance AgentType_eq_dec : EqDecision AgentType.
Proof. solve_decision. Defined.

Module Task.
Record ITask : Type := mk {
  id : string;
  description : string;
  context : option JsObj;
  parentTaskId : option string }.
End Task.
Abbreviation ITask := Task.ITask.

Module Result.
Record ITaskResult : Type := mk {
  taskId : string;
  success : bool;
  output : JsVal;
  error : option string;
  selfTestPassed : option bool }.
End Result.
Abbreviation ITaskResult := Result.ITaskResult.

(** The argument of the constructors. *)
Module Cfg.
Record IAgentConfig : Type := mk {
  id : Key string;
  name : string;
  type : AgentType;
  parentId : Key string;
  agentMdPath : Key string;
  maxRetries : Key Z;
  timeout : Key Z;
  enableMonitor : Key bool;
  description : Key string;
  template : Key string }.
End Cfg.
Abbreviation IAgentConfig := Cfg.IAgentConfig.

(** [this.config], by what its keys read as ([None] is [undefined]).  The
    constructor spreads the five defaults under its argument, so the last
    five keys are always present; they hold [undefined] when the argument
    gave them that value.  No code tells an absent [id], [parentId] or
    [agentMdPath] from one that holds [undefined]. *)
Module Conf.
Record AgentConfig : Type := mk {
  id : option string;
  name : string;
  type : AgentType;
  parentId : option string;
  agentMdPath : option string;
  maxRetries : option Z;
  timeout : option Z;
  enableMonitor : option bool;
  description : option string;
  template : option string }.
End Conf.
Abbreviation AgentConfig := Conf.AgentConfig.

Record LogEntry : Type := mkLog { action : string; result : string }.

Record ConversationEntry : Type := mkConv { role : string; content : string }.

Record TaskState : Type := mkTaskState {
  currentTaskId : option string;
  taskHistory : list string;
  completedTasks : list string }.

(** [Partial<taskState>], the argument of [updateTaskState]. *)
Record TaskStateUpdate : Type := mkUpdate {
  up_currentTaskId : option string;
  up_taskHistory : option (list string);
  up_completedTasks : option (list string) }.

Record IAgentContext : Type := mkContext {
  conversationHistory : list ConversationEntry;
  taskState : option TaskState;
  executionLog : list LogEntry;
  customData : option JsObj }.

Record IMonitorEvent : Type := mkEvent {
  ev_type : MonitorEventType;
  ev_agentId : string;
  ev_details : JsObj }.

(** core/Monitor.ts, without its timer. *)
Record Monitor : Type := mkMonitor {
  isRunning : bool;
  eventHistory : list IMonitorEvent }.

(** core/Agent.ts: the fields of a node.  [children] owns the sub-tree. *)
Inductive Agent : Type := mkAgent {
  id : string;
  name : string;
  type : AgentType;
  parentId : option string;
  status : AgentStatus;
  children : list (string * Agent);
  currentTask : option ITask;
  description : string;
  template : string;
  context : IAgentContext;
  config : AgentConfig;
  monitor : option Monitor;
  errorCount : nat;
  lastError : option string;
  errorHistory : list string }.

(** The part of [IAgentState] that [loadState] reads. *)
Record IAgentState : Type := mkState {
  st_description : string;
  st_context : IAgentContext;
  st_template : string;
  st_status : AgentStatus;
  st_currentTask : option ITask;
  st_errorCount : nat;
  st_errorHistory : list string;
  st_lastError : option string;
  st_config : IAgentConfig }.

(** ** The outside world *)

Inductive Res (A : Type) : Type :=
  | Ok (a : A)
  | Throw (e : string).
Arguments Ok {A} a.
Arguments Throw {A} e.

(** The value of a result, when there is one. *)
Definition res_value {A} (r : Res A) : option A :=
  match r with
  | Ok a => Some a
  | Throw _ => None
  end.

(** What [LLMService.executeTask] and [LLMService.selfTest] resolve to. *)
Record LlmExecution : Type := mkExec {
  ex_success : bool;
  ex_output : string;
  ex_reasoning : option string }.

Record LlmVerdict : Type := mkVerdict { passed : bool; feedback : string }.

(** The collaborators.  [fs_ok n] tells whether the [n]-th call of a
    [Storage] method is fulfilled or rejected; the LLM answers depend on the
    number of the call and on the arguments; [uuid_of n] is the [n]-th value
    of [uuidv4()]; [llm_service] tells whether [getLLMService()] has a
    service to answer: one installed with [setLLMService], or one it can make
    because the process environment holds an API key. *)
Record Env : Type := mkEnv {
  uuid_of : nat → string;
  fs_ok : nat → bool;
  fs_agentMd : string → option string;
  llm_executeTask : nat → JsVal → option JsObj → Res LlmExecution;
  llm_selfTest : nat → string → string → Res LlmVerdict;
  llm_service : bool }.

(** One fulfilled write of [Storage]: the method, the key, and the fields of
    the payload that the properties below mention. *)
Inductive StorageWrite : Type :=
  | WInit
  | WAgentState (key : string) (st : AgentStatus)
      (report : option (string * ITaskResult))
  | WContext (key : string)
  | WExecutionLog (key : string) (entry : LogEntry)
  | WConversation (key : string) (entry : ConversationEntry).

(** The calls made so far, the writes that were fulfilled, and the
    rejections of promises that nobody awaited or caught. *)
Record World : Type := mkWorld {
  uuid_calls : nat;
  fs_calls : nat;
  llm_calls : nat;
  fs_log : list StorageWrite;
  unhandled : list string }.

Record Outcome (A : Type) : Type := mkOut {
  res : Res A;
  self : Agent;
  world : World }.
Arguments mkOut {A} res self world.
Arguments res {A} o.
Arguments self {A} o.
Arguments world {A} o.

(** A method of a node. *)
Definition M (A : Type) : Type := Agent → World → Outcome A.

Definition ret {A} (x : A) : M A := fun this w => mkOut (Ok x) this w.

Definition bind {A B} (m : M A) (k : A → M B) : M B := fun this w =>
  let o := m this w in
  match res o with
  | Ok x => k x (self o) (world o)
  | Throw e => mkOut (Throw e) (self o) (world o)
  end.

Definition throw {A} (e : string) : M A := fun this w => mkOut (Throw e) this w.

(** [try { body } catch (error) { handler }], with [error.message] bound. *)
Definition try_catch {A} (body : M A) (handler : string → M A) : M A :=
  fun this w =>
    let o := body this w in
    match res o with
    | Ok x => o
    | Throw e => handler e (self o) (world o)
    end.

(** [promise.catch(console.error)] on a promise that is not awaited. *)
Definition forget (m : M unit) : M unit := fun this w =>
  let o := m this w in mkOut (Ok tt) (self o) (world o).

(** A promise that is neither awaited nor given a [catch]: the caller goes
    on, and a rejection is left unhandled. *)
Definition detach (m : M unit) : M unit := fun this w =>
  let o := m this w in
  mkOut (Ok tt) (self o)
    (match res o with
     | Ok _ => world o
     | Throw e =>
         mkWorld (uuid_calls (world o)) (fs_calls (world o))
           (llm_calls (world o)) (fs_log (world o))
           (unhandled (world o) ++ [e])
     end).

Definition get_this : M Agent := fun this w => mkOut (Ok this) this w.

Definition modify (f : Agent → Agent) : M unit := fun this w =>
  mkOut (Ok tt) (f this) w.

(** Run a method on another receiver [target]; the caller keeps its own
    [this] and gets the result together with the receiver after the call. *)
Definition call_on {A} (target : Agent) (m : M A) : M (A * Agent) :=
  fun this w =>
    let o := m target w in
    match res o with
    | Ok x => mkOut (Ok (x, self o)) this (world o)
    | Throw e => mkOut (Throw e) this (world o)
    end.

Global Instance M_ret : MRet M := @ret.
Global Instance M_bind : MBind M := fun A B k m => bind m k.

(** ** Field updates *)

Definition set_status (s : AgentStatus) (a : Agent) : Agent :=
  mkAgent (id a) (name a) (type a) (parentId a) s (children a) (currentTask a)
    (description a) (template a) (context a) (config a) (monitor a)
    (errorCount a) (lastError a) (errorHistory a).

Definition set_children (c : list (string * Agent)) (a : Agent) : Agent :=
  mkAgent (id a) (name a) (type a) (parentId a) (status a) c (currentTask a)
    (description a) (template a) (context a) (config a) (monitor a)
    (errorCount a) (lastError a) (errorHistory a).

Definition set_currentTask (t : option ITask) (a : Agent) : Agent :=
  mkAgent (id a) (name a) (type a) (parentId a) (status a) (children a) t
    (description a) (template a) (context a) (config a) (monitor a)
    (errorCount a) (lastError a) (errorHistory a).

Definition set_context (c : IAgentContext) (a : Agent) : Agent :=
  mkAgent (id a) (name a) (type a) (parentId a) (status a) (children a)
    (currentTask a) (description a) (template a) c (config a) (monitor a)
    (errorCount a) (lastError a) (errorHistory a).

Definition set_monitor (m : option Monitor) (a : Agent) : Agent :=
  mkAgent (id a) (name a) (type a) (parentId a) (status a) (children a)
    (currentTask a) (description a) (template a) (context a) (config a) m
    (errorCount a) (lastError a) (errorHistory a).

Definition set_errors (n : nat) (l : option string) (h : list string)
    (a : Agent) : Agent :=
  mkAgent (id a) (name a) (type a) (parentId a) (status a) (children a)
    (currentTask a) (description a) (template a) (context a) (config a)
    (monitor a) n l h.

(** ** Map<string, IAgent> *)

Fixpoint children_get (k : string) (m : list (string * Agent)) : option Agent :=
  match m with
  | [] => None
  | (k', c) :: m' => if String.eqb k k' then Some c else children_get k m'
  end.

Fixpoint children_set (k : string) (c : Agent) (m : list (string * Agent))
    : list (string * Agent) :=
  match m with
  | [] => [(k, c)]
  | (k', c') :: m' =>
      if String.eqb k k' then (k', c) :: m' else (k', c') :: children_set k c m'
  end.

Fixpoint children_delete (k : string) (m : list (string * Agent))
    : list (string * Agent) :=
  match m with
  | [] => []
  | (k', c') :: m' =>
      if String.eqb k k' then m' else (k', c') :: children_delete k m'
  end.

Definition children_keys (m : list (string * Agent)) : list string := map fst m.

(** ** core/Storage.ts, core/Monitor.ts and the base class of core/Agent.ts *)

Section Model.

Variable E : Env.

Definition createEmptyContext : IAgentContext :=
  mkContext [] (Some (mkTaskState None [] [])) [] None.

(** A call of a [Storage] method that writes. *)
Definition storage_write (entry : StorageWrite) : M unit := fun this w =>
  if fs_ok E (fs_calls w)
  then mkOut (Ok tt) this
         (mkWorld (uuid_calls w) (S (fs_calls w)) (llm_calls w)
            (fs_log w ++ [entry]) (unhandled w))
  else mkOut (Throw "storage failure") this
         (mkWorld (uuid_calls w) (S (fs_calls w)) (llm_calls w) (fs_log w)
            (unhandled w)).

(** [Storage.loadAgentMd]: [null] when the file does not exist. *)
Definition storage_loadAgentMd (name : string) : M (option string) :=
  fun this w =>
    let w' :=
      mkWorld (uuid_calls w) (S (fs_calls w)) (llm_calls w) (fs_log w)
        (unhandled w) in
    if fs_ok E (fs_calls w)
    then mkOut (Ok (fs_agentMd E name)) this w'
    else mkOut (Throw "storage failure") this w'.

Definition uuidv4 (w : World) : string * World :=
  (uuid_of E (uuid_calls w),
   mkWorld (S (uuid_calls w)) (fs_calls w) (llm_calls w) (fs_log w)
     (unhandled w)).

Definition llm_call {A} (answer : nat → Res A) : M A := fun this w =>
  mkOut (answer (llm_calls w)) this
    (mkWorld (uuid_calls w) (fs_calls w) (S (llm_calls w)) (fs_log w)
       (unhandled w)).

(** *** Monitor *)

Definition MAX_EVENTS : nat := 100.

Definition Monitor_start (m : Monitor) : Monitor :=
  if isRunning m then m else mkMonitor true (eventHistory m).

Definition Monitor_stop (m : Monitor) : Monitor :=
  mkMonitor false (eventHistory m).

Definition Monitor_reportEvent (event : IMonitorEvent) (m : Monitor) : Monitor :=
  let h := eventHistory m ++ [event] in
  mkMonitor (isRunning m) (if MAX_EVENTS <? length h then tail h else h).

(** [if (this.monitor) this.monitor.f(...)]. *)
Definition with_monitor (f : Monitor → Monitor) : M unit :=
  modify (fun a =>
    match monitor a with
    | Some m => set_monitor (Some (f m)) a
    | None => a
    end).

(** *** Constructors *)

(** [{ maxRetries: 3, timeout: 300000, enableMonitor: true,
       description: '', template: 'ChildAgent', ...config }]. *)
Definition withDefaults (c : IAgentConfig) : AgentConfig :=
  Conf.mk (read (Cfg.id c)) (Cfg.name c) (Cfg.type c) (read (Cfg.parentId c))
    (read (Cfg.agentMdPath c))
    (over (Some 3%Z) (Cfg.maxRetries c))
    (over (Some 300000%Z) (Cfg.timeout c))
    (over (Some true) (Cfg.enableMonitor c))
    (over (Some "") (Cfg.description c))
    (over (Some "ChildAgent") (Cfg.template c)).

(** [{ ...this.config }] read back as a constructor argument. *)
Definition spread_config (c : AgentConfig) : IAgentConfig :=
  Cfg.mk (key_of (Conf.id c)) (Conf.name c) (Conf.type c)
    (key_of (Conf.parentId c)) (key_of (Conf.agentMdPath c))
    (Present (Conf.maxRetries c)) (Present (Conf.timeout c))
    (Present (Conf.enableMonitor c)) (Present (Conf.description c))
    (Present (Conf.template c)).

(** [if (b)] on an optional boolean. *)
Definition truthy_obool (o : option bool) : bool := default false o.

Definition new_Agent (c : IAgentConfig) (w : World) : Agent * World :=
  let '(i, w1) :=
    match read (Cfg.id c) with
    | Some s => if truthy_str s then (s, w) else uuidv4 w
    | None => uuidv4 w
    end in
  let conf := withDefaults c in
  (mkAgent i (Cfg.name c) (Cfg.type c) (read (Cfg.parentId c)) IDLE [] None
     (or_str (Conf.description conf) "")
     (or_str (Conf.template conf) "ChildAgent")
     createEmptyContext conf
     (if truthy_obool (Conf.enableMonitor conf)
      then Some (mkMonitor false []) else None)
     0 None [],
   w1).

(** [getLLMService()]: the service, or the error of the constructor of
    [LLMService] when there is no API key to make one from. *)
Definition getLLMService : Res unit :=
  if llm_service E then Ok tt
  else
    Throw
      ("KIMI_API_KEY or KIMI_FOR_CODING_API_KEY is required. "
       +:+ "Please set it in environment variables.").

(** The node that [super(...)] leaves in the constructor of [ChildAgent]. *)
Definition ChildAgent_super (c : IAgentConfig) (w : World) : Agent * World :=
  new_Agent
    (Cfg.mk (Cfg.id c) (Cfg.name c) CHILD (Cfg.parentId c) (Cfg.agentMdPath c)
       (Cfg.maxRetries c) (Cfg.timeout c) (Cfg.enableMonitor c)
       (Cfg.description c)
       (Given (or_str (read (Cfg.template c)) "ChildAgent"))) w.

(** [new ChildAgent(config)]: [super(...)], then [getLLMService()], which
    may throw. *)
Definition new_ChildAgent (c : IAgentConfig) (w : World) : Res Agent * World :=
  let '(n, w1) := ChildAgent_super c w in
  match getLLMService with
  | Ok _ => (Ok n, w1)
  | Throw e => (Throw e, w1)
  end.

Definition new_RootAgent (c : IAgentConfig) (w : World) : Agent * World :=
  new_Agent
    (Cfg.mk (Cfg.id c) (Cfg.name c) ROOT (Cfg.parentId c) (Cfg.agentMdPath c)
       (Cfg.maxRetries c) (Cfg.timeout c) (Cfg.enableMonitor c)
       (Cfg.description c)
       (Given (or_str (read (Cfg.template c)) "RootAgent"))) w.

(** *** Agent *)

Definition saveState : M unit :=
  this ← get_this;
  storage_write (WAgentState (id this) (status this) None);;
  storage_write (WContext (id this)).

(** [saveState] is not awaited here.  Its two writes are placed at the
    call; in the program the second one is issued once the first has
    settled, so it may fall behind the writes that the caller issues next:
    the order of the entries of [fs_log] across an [updateStatus] is the
    order of the calls, not of the file system. *)
Definition updateStatus (s : AgentStatus) : M unit :=
  modify (set_status s);;
  forget saveState.

Definition Agent_initialize : M unit :=
  storage_write WInit;;
  updateStatus IDLE;;
  saveState;;
  with_monitor Monitor_start.

(** [for (const child of this.children.values()) await f(child)]: the
    children are visited in insertion order and mutated in place; a rejection
    stops the loop. *)
Definition each_child (f : Agent → World → Outcome unit)
    : list (string * Agent) → World → Res unit * list (string * Agent) * World :=
  fix go (l : list (string * Agent)) (w : World) :=
    match l with
    | [] => (Ok tt, [], w)
    | (k, c) :: l' =>
        let o := f c w in
        match res o with
        | Ok _ =>
            let '(r, l'', w') := go l' (world o) in (r, (k, self o) :: l'', w')
        | Throw e => (Throw e, (k, self o) :: l', world o)
        end
    end.

Fixpoint terminate (reason : option string) (this : Agent) (w : World)
    {struct this} : Outcome unit :=
  let o1 := updateStatus TERMINATED this w in
  let derived :=
    "Parent agent " +:+ id this +:+ " terminated: " +:+ or_str reason "unknown" in
  let '(r, ch, w2) :=
    each_child (terminate (Some derived)) (children this) (world o1) in
  let this2 := set_children ch (self o1) in
  match r with
  | Throw e => mkOut (Throw e) this2 w2
  | Ok _ => (with_monitor Monitor_stop;; saveState) this2 w2
  end.

Definition addChild (c : IAgentConfig) : M string := fun this w =>
  if bool_decide (type this ≠ ROOT) && (1 <=? length (children this))
  then mkOut (Throw "Only root agent can have multiple children") this w
  else
    let childConfig :=
      Cfg.mk (Cfg.id c) (Cfg.name c) CHILD (Given (id this)) (Cfg.agentMdPath c)
        (Cfg.maxRetries c) (Cfg.timeout c) (Cfg.enableMonitor c)
        (Cfg.description c) (Cfg.template c) in
    match new_ChildAgent childConfig w with
    | (Throw e, w1) => mkOut (Throw e) this w1
    | (Ok child, w1) =>
        (modify (set_children (children_set (id child) child (children this)));;
         forget saveState;;
         mret (id child)) this w1
    end.

(** [child.terminate(...)] is not awaited here and has no [catch]: it is
    sequenced at the call, and its rejection is left unhandled. *)
Definition removeChild (agentId : string) : M bool := fun this w =>
  match children_get agentId (children this) with
  | None => mkOut (Ok false) this w
  | Some child =>
      let o := detach (terminate (Some "Removed by parent")) child w in
      (modify (set_children (children_delete agentId (children this)));;
       forget saveState;;
       mret true) this (world o)
  end.

Definition notifyParent (result : ITaskResult) : M unit :=
  this ← get_this;
  storage_write
    (WAgentState (default "undefined" (parentId this) +:+ "_child_result_" +:+ id this)
       (status this) (Some (id this, result))).

Definition reportResult (result : ITaskResult) : M unit :=
  saveState;;
  this ← get_this;
  if truthy_ostr (parentId this) then notifyParent result else mret tt.

(** [{ ...this.config, ...state.config }]. *)
Definition mergeConfig (c : AgentConfig) (s : IAgentConfig) : AgentConfig :=
  Conf.mk
    (over (Conf.id c) (Cfg.id s))
    (Cfg.name s) (Cfg.type s)
    (over (Conf.parentId c) (Cfg.parentId s))
    (over (Conf.agentMdPath c) (Cfg.agentMdPath s))
    (over (Conf.maxRetries c) (Cfg.maxRetries s))
    (over (Conf.timeout c) (Cfg.timeout s))
    (over (Conf.enableMonitor c) (Cfg.enableMonitor s))
    (over (Conf.description c) (Cfg.description s))
    (over (Conf.template c) (Cfg.template s)).

Definition loadState (state : IAgentState) : M unit :=
  modify (fun a =>
    mkAgent (id a) (name a) (type a) (parentId a) (st_status state)
      (children a) (st_currentTask state) (st_description state)
      (st_template state) (st_context state)
      (mergeConfig (config a) (st_config state)) (monitor a)
      (st_errorCount state) (st_lastError state) (st_errorHistory state));;
  saveState.

Definition addConversationEntry (role content : string) : M unit :=
  let entry := mkConv role content in
  modify (fun a =>
    let c := context a in
    set_context
      (mkContext (conversationHistory c ++ [entry]) (taskState c)
         (executionLog c) (customData c)) a);;
  this ← get_this;
  storage_write (WConversation (id this) entry).

Definition addExecutionLog (action result : string) : M unit :=
  let entry := mkLog action result in
  modify (fun a =>
    let c := context a in
    set_context
      (mkContext (conversationHistory c) (taskState c)
         (executionLog c ++ [entry]) (customData c)) a);;
  this ← get_this;
  storage_write (WExecutionLog (id this) entry).

Definition updateTaskState (update : TaskStateUpdate) : M unit :=
  modify (fun a =>
    let c := context a in
    let ts := default (mkTaskState None [] []) (taskState c) in
    set_context
      (mkContext (conversationHistory c)
         (Some
            (mkTaskState
               (match up_currentTaskId update with
                | Some t => Some t
                | None => currentTaskId ts
                end)
               (default (taskHistory ts) (up_taskHistory update))
               (default (completedTasks ts) (up_completedTasks update))))
         (executionLog c) (customData c)) a).

Definition setCustomData (key : string) (value : JsVal) : M unit :=
  modify (fun a =>
    let c := context a in
    set_context
      (mkContext (conversationHistory c) (taskState c) (executionLog c)
         (Some (obj_set key value (default [] (customData c))))) a).

Definition MAX_ERRORS : nat := 20.

Definition recordError (error : string) : M unit :=
  modify (fun a =>
    let h := errorHistory a ++ [error] in
    set_errors (S (errorCount a)) (Some error)
      (if MAX_ERRORS <? length h then tail h else h) a);;
  this ← get_this;
  with_monitor
    (Monitor_reportEvent
       (mkEvent ERROR_DETECTED (id this)
          [("error", JStr error);
           ("errorCount", JNum (Z.of_nat (errorCount this)))]));;
  forget saveState.

(** [isInErrorLoop] on the history alone; [threshold] is an integer. *)
Definition error_loop (errorHistory : list string) (threshold : Z) : bool :=
  if (Z.of_nat (length errorHistory) <? threshold)%Z then false
  else
    let recentErrors := js_slice_from (- threshold) errorHistory in
    let uniqueErrors : gset string := list_to_set recentErrors in
    bool_decide (size uniqueErrors = 1).

(** The parameter defaults to 3. *)
Definition isInErrorLoop (threshold : option Z) (this : Agent) : bool :=
  error_loop (errorHistory this) (default 3%Z threshold).

Definition Agent_loadAgentMd : M string :=
  this ← get_this;
  content ← storage_loadAgentMd (template this);
  if truthy_ostr content then mret (default "" content)
  else throw ("Agent template not found: " +:+ template this).

(** ** core/ChildAgent.ts *)

Definition ChildAgent_initialize : M unit :=
  Agent_initialize;;
  try_catch (Agent_loadAgentMd;; mret tt) (fun _ => mret tt);;
  updateStatus IDLE.

Definition reportToParent (result : ITaskResult) : M unit :=
  this ← get_this;
  if negb (truthy_ostr (parentId this)) then mret tt
  else
    addExecutionLog "report_to_parent"
      ("Reporting result to parent " +:+ default "" (parentId this));;
    reportResult result.

Definition validateTaskContext (task : ITask) : bool :=
  if negb (truthy (opt_get "instruction" (Task.context task)))
     && negb (truthy_str (Task.description task))
  then false
  else true.

(** The object that [performTask] returns. *)
Definition execution_output (this : Agent) (task : ITask) (instruction : JsVal)
    (r : LlmExecution) : JsVal :=
  JObj [("agentId", JStr (id this));
        ("taskId", JStr (Task.id task));
        ("instruction", instruction);
        ("llmResult",
         JObj [("success", JBool (ex_success r));
               ("output", JStr (ex_output r));
               ("reasoning",
                match ex_reasoning r with Some s => JStr s | None => JUndef end)])].

Definition performTask (task : ITask) : M JsVal :=
  let instruction :=
    let i := opt_get "instruction" (Task.context task) in
    if truthy i then i else JStr (Task.description task) in
  addExecutionLog "perform_task" ("Performing: " +:+ js_toString instruction);;
  try_catch
    (result ← llm_call (fun n => llm_executeTask E n instruction (Task.context task));
     this ← get_this;
     addExecutionLog "task_executed" (ex_output result);;
     mret (execution_output this task instruction result))
    (fun error =>
       addExecutionLog "task_error" ("Error: Error: " +:+ error);;
       throw error).

(** [extractTestCases]: [basic_validation] and [status_check]. *)
Definition extractTestCases (this : Agent) : list (string * bool) :=
  [("basic_validation", bool_decide (is_Some (currentTask this)));
   ("status_check", bool_decide (status this = RUNNING))].

Definition fallbackSelfTest (this : Agent) : bool :=
  match currentTask this with
  | None => false
  | Some _ => forallb snd (extractTestCases this)
  end.

(** The [result] of the last [task_executed] entry of the log, or ['']. *)
Definition lastOutput (this : Agent) : string :=
  match
    last (filter (fun l => action l = "task_executed")
            (executionLog (context this)))
  with
  | Some l => if truthy_str (result l) then result l else ""
  | None => ""
  end.

Definition selfTest : M bool :=
  this ← get_this;
  match currentTask this with
  | None => mret false
  | Some task =>
      try_catch
        (testResult ←
           llm_call (fun n =>
             llm_selfTest E n (Task.description task) (lastOutput this));
         addExecutionLog
           (if passed testResult then "self_test_passed" else "self_test_failed")
           (feedback testResult);;
         mret (passed testResult))
        (fun error =>
           addExecutionLog "self_test_error"
             ("Self-test error: Error: " +:+ error);;
           this ← get_this;
           mret (fallbackSelfTest this))
  end.

Definition ChildAgent_executeTask (task : ITask) : M ITaskResult :=
  updateStatus RUNNING;;
  modify (set_currentTask (Some task));;
  addExecutionLog "task_start" ("Starting task: " +:+ Task.description task);;
  try_catch
    ((if validateTaskContext task then mret tt
      else throw "Invalid task context: missing required instruction");;
     executionResult ← performTask task;
     addExecutionLog "self_test" "Running self-test with LLM...";;
     selfTestPassed ← selfTest;
     (if (selfTestPassed : bool) then mret tt else throw "Self-test failed");;
     addExecutionLog "self_test_passed" "Self-test passed";;
     let result :=
       Result.mk (Task.id task) true executionResult None (Some true) in
     updateStatus COMPLETED;;
     reportResult result;;
     reportToParent result;;
     mret result)
    (fun errorMessage =>
       addExecutionLog "error" ("Error: " +:+ errorMessage);;
       recordError errorMessage;;
       this ← get_this;
       updateStatus (if isInErrorLoop None this then ERROR_LOOP else FAILED);;
       let result :=
         Result.mk (Task.id task) false JUndef (Some errorMessage) (Some false) in
       reportResult result;;
       reportToParent result;;
       mret result).

(** ** core/RootAgent.ts *)

Definition RootAgent_initialize : M unit :=
  Agent_initialize;;
  updateStatus IDLE.

(** [Agent.recreate]; the new node is returned, not linked anywhere. *)
Definition recreate_reason : string := "Recreating due to error loop".

Definition fresh_uuid : M string := fun this w =>
  let '(u, w') := uuidv4 w in mkOut (Ok u) this w'.

(** [new C(config)] for a class [C] whose constructor may throw. *)
Definition construct (C : IAgentConfig → World → Res Agent * World)
    (c : IAgentConfig) : M Agent := fun this w =>
  match C c w with
  | (Ok n, w') => mkOut (Ok n) this w'
  | (Throw e, w') => mkOut (Throw e) this w'
  end.

(** A constructor that does not throw. *)
Definition total (C : IAgentConfig → World → Agent * World)
    : IAgentConfig → World → Res Agent * World :=
  fun c w => (Ok (C c w).1, (C c w).2).

Definition recreate : M Agent :=
  terminate (Some recreate_reason);;
  this ← get_this;
  u ← fresh_uuid;
  let c := spread_config (config this) in
  let newConfig :=
    Cfg.mk (Given u) (Cfg.name c) (Cfg.type c) (Cfg.parentId c)
      (Cfg.agentMdPath c) (Cfg.maxRetries c) (Cfg.timeout c) (Given true)
      (Cfg.description c) (Cfg.template c) in
  match type this with
  | ROOT =>
      newAgent ← construct (total new_RootAgent) newConfig;
      r ← call_on newAgent RootAgent_initialize;
      mret r.2
  | CHILD =>
      newAgent ← construct new_ChildAgent newConfig;
      r ← call_on newAgent ChildAgent_initialize;
      mret r.2
  end.

Definition keywords : list string :=
  ["分析"; "设计"; "实现"; "测试"; "部署"; "优化"].

Definition analyzeTaskDescription (description : string) : list string :=
  let detectedSteps :=
    map (fun keyword => keyword +:+ "相关任务")
      (filter (fun keyword => includes description keyword = true) keywords) in
  if length detectedSteps =? 0
  then ["分析任务需求"; "执行任务"; "验证结果"]
  else detectedSteps.

Definition subTask_context (task : ITask) (i total : nat) : JsObj :=
  [("parentTaskId", JStr (Task.id task));
   ("step", JNum (Z.of_nat (i + 1)));
   ("totalSteps", JNum (Z.of_nat total));
   ("originalContext",
    match Task.context task with Some o => JObj o | None => JUndef end)].

Fixpoint decompose_from (task : ITask) (total i : nat) (ds : list string)
    (w : World) : list ITask * World :=
  match ds with
  | [] => ([], w)
  | d :: ds' =>
      let '(u, w1) := uuidv4 w in
      let '(rest, w2) := decompose_from task total (S i) ds' w1 in
      (Task.mk u d (Some (subTask_context task i total)) (Some (Task.id task))
         :: rest, w2)
  end.

Definition decomposeTask (task : ITask) : M (list ITask) := fun this w =>
  let descriptions := analyzeTaskDescription (Task.description task) in
  let '(subTasks, w') :=
    decompose_from task (length descriptions) 0 descriptions w in
  mkOut (Ok subTasks) this w'.

Definition available (c : Agent) : bool :=
  bool_decide (status c = IDLE) || bool_decide (status c = COMPLETED).

Fixpoint first_available (m : list (string * Agent)) : option string :=
  match m with
  | [] => None
  | (k, c) :: m' => if available c then Some k else first_available m'
  end.

Definition findAvailableChild : M (option string) :=
  this ← get_this;
  mret (first_available (children this)).

(** A method call on the child referred to by [key]. *)
Definition on_child {A} (key : string) (m : M A) : M A := fun this w =>
  match children_get key (children this) with
  | None => mkOut (Throw "TypeError: not an agent") this w
  | Some c =>
      let o := m c w in
      mkOut (res o)
        (set_children (children_set key (self o) (children this)) this)
        (world o)
  end.

(** The task view built by [dispatchTask]. *)
Definition isolatedTask (subTask : ITask) : ITask :=
  Task.mk (Task.id subTask) (Task.description subTask)
    (Some
       [("instruction", JStr (Task.description subTask));
        ("step", opt_get "step" (Task.context subTask));
        ("totalSteps", opt_get "totalSteps" (Task.context subTask))])
    (Task.parentTaskId subTask).

(** The nodes a coordinator owns are instances of [ChildAgent] ([addChild]
    constructs no other class and [recreate] keeps the class), so the virtual
    call [agent.executeTask] is [ChildAgent.executeTask]. *)
Definition dispatchTask (subTask : ITask) (targetAgent : option string)
    : M ITaskResult :=
  agent ←
    match targetAgent with
    | Some k => mret (Some k)
    | None => findAvailableChild
    end;
  match agent with
  | None => throw "No available child agent found"
  | Some k => on_child k (ChildAgent_executeTask (isolatedTask subTask))
  end.

Definition aggregateResults (results : list ITaskResult) : M ITaskResult :=
  this ← get_this;
  let allSuccess := forallb Result.success results in
  let allSelfTestPassed :=
    forallb (fun r => truthy_obool (Result.selfTestPassed r)) results in
  let outputs :=
    map Result.output
      (filter (fun r => truthy (Result.output r) = true) results) in
  let errors :=
    map (fun r => default "" (Result.error r))
      (filter (fun r => truthy_ostr (Result.error r) = true) results) in
  mret
    (Result.mk
       (or_str (Task.id <$> currentTask this) "unknown")
       (allSuccess && allSelfTestPassed)
       (JObj
          [("aggregated", JBool true);
           ("subTaskCount", JNum (Z.of_nat (length results)));
           ("successCount",
            JNum (Z.of_nat
              (length (filter (fun r => Result.success r = true) results))));
           ("selfTestPassedCount",
            JNum (Z.of_nat
              (length
                 (filter
                    (fun r => truthy_obool (Result.selfTestPassed r) = true)
                    results))));
           ("outputs", JArr outputs);
           ("errors", JArr (map JStr errors))])
       (if 0 <? length errors then Some (String.concat "; " errors) else None)
       (Some allSelfTestPassed)).

(** The child that the loop of [executeTask] hands the sub-task to. *)
Definition acquireChild : M string :=
  targetAgent ← findAvailableChild;
  match targetAgent with
  | Some k => mret k
  | None =>
      this ← get_this;
      let childConfig :=
        Cfg.mk Absent ("child-agent-" +:+ pretty (length (children this) + 1))
          CHILD Absent Absent (Given 3%Z) (Given 120000%Z) Absent Absent
          (Given "ChildAgent") in
      k ← addChild childConfig;
      on_child k ChildAgent_initialize;;
      mret k
  end.

(** [a[a.length - 1] = x]. *)
Definition set_last {A} (x : A) (l : list A) : list A :=
  <[length l - 1 := x]> l.

(** The body of the loop of [executeTask]; [subTaskResults] is the local
    array of the results collected so far. *)
Definition processSubTask (subTask : ITask) (subTaskResults : list ITaskResult)
    : M (list ITaskResult) :=
  targetAgent ← acquireChild;
  result ← dispatchTask subTask (Some targetAgent);
  let subTaskResults := subTaskResults ++ [result] in
  targetStatus ← on_child targetAgent (c ← get_this; mret (status c));
  if negb (Result.success result) && bool_decide (targetStatus = ERROR_LOOP)
  then
    newAgent ← on_child targetAgent recreate;
    modify (fun this =>
      set_children (children_set (id newAgent) newAgent (children this)) this);;
    retryResult ← dispatchTask subTask (Some (id newAgent));
    mret (set_last retryResult subTaskResults)
  else mret subTaskResults.

Fixpoint processSubTasks (subTasks : list ITask)
    (subTaskResults : list ITaskResult) : M (list ITaskResult) :=
  match subTasks with
  | [] => mret subTaskResults
  | subTask :: rest =>
      subTaskResults ← processSubTask subTask subTaskResults;
      processSubTasks rest subTaskResults
  end.

Definition RootAgent_executeTask (task : ITask) : M ITaskResult :=
  updateStatus RUNNING;;
  modify (set_currentTask (Some task));;
  try_catch
    (subTasks ← decomposeTask task;
     subTaskResults ← processSubTasks subTasks [];
     finalResult ← aggregateResults subTaskResults;
     updateStatus COMPLETED;;
     reportResult finalResult;;
     mret finalResult)
    (fun error =>
       let errorResult := Result.mk (Task.id task) false JUndef (Some error) None in
       updateStatus FAILED;;
       recordError error;;
       reportResult errorResult;;
       mret errorResult).

End Model.

(** ** The claims in the words of the specification *)

(** The last [n] entries of a history. *)
Definition trailing {A} (n : nat) (l : list A) : list A :=
  drop (length l - n) l.

(** "The error history has at least [threshold] entries and the trailing
    [threshold] entries are all identical by exact text match." *)
Definition trailing_identical (h : list string) (threshold : Z) : Prop :=
  (threshold ≤ Z.of_nat (length h))%Z ∧
  ∀ x y, x ∈ trailing (Z.to_nat threshold) h →
         y ∈ trailing (Z.to_nat threshold) h → x = y.

(** "The individual error strings" of a list of results: the error of
    every result that has one. *)
Definition error_strings (results : list ITaskResult) : list string :=
  omap Result.error results.

(** "The individual outputs" of a list of results: the output of every
    result that has one. *)
Definition individual_outputs (results : list ITaskResult) : list JsVal :=
  omap (fun r =>
    match Result.output r with
    | JUndef => None
    | v => Some v
    end) results.

(** C4 in the words of the specification: the outputs are the individual
    outputs, and the error is the list of individual error strings joined by
    [;], absent when there are none. *)
Definition aggregates_as_specified (results : list ITaskResult) (this : Agent)
    (w : World) : Prop :=
  ∃ r out,
    res (aggregateResults results this w) = Ok r
    ∧ Result.output r = JObj out
    ∧ obj_get "outputs" out = JArr (individual_outputs results)
    ∧ Result.error r
      = match error_strings results with
        | [] => None
        | errors => Some (String.concat ";" errors)
        end.

(** The amended wording: the error strings that are not empty, and the
    outputs that are truthy. *)
Definition nonempty_error_strings (results : list ITaskResult) : list string :=
  filter (fun e => e ≠ "") (error_strings results).

Definition truthy_outputs (results : list ITaskResult) : list JsVal :=
  filter (fun v => truthy v = true) (individual_outputs results).

(** C10 in the words of the specification: [addChild] raises exactly when
    the node is not a root and already has a child. *)
Definition addChild_raises_as_specified (E : Env) (c : IAgentConfig)
    (this : Agent) (w : World) : Prop :=
  (∃ e, res (addChild E c this w) = Throw e)
  ↔ type this ≠ ROOT ∧ 1 ≤ length (children this).


(** Every node of a tree, the root included, is terminated. *)
Fixpoint all_terminated (a : Agent) : bool :=
  bool_decide (status a = TERMINATED)
  && forallb (fun kc => all_terminated kc.2) (children a).

(** The node that a completed [terminate] leaves behind. *)
Fixpoint terminated (a : Agent) : Agent :=
  mkAgent (id a) (name a) (type a) (parentId a) TERMINATED
    (map (fun kc => (kc.1, terminated kc.2)) (children a))
    (currentTask a) (description a) (template a) (context a) (config a)
    (Monitor_stop <$> monitor a) (errorCount a) (lastError a) (errorHistory a).

(** The operations of a node. *)
Inductive Op : Type :=
  | OpInitialize
  | OpExecuteTask (task : ITask)
  | OpTerminate (reason : option string)
  | OpAddChild (c : IAgentConfig)
  | OpRemoveChild (agentId : string)
  | OpUpdateStatus (s : AgentStatus)
  | OpReportResult (r : ITaskResult)
  | OpLoadState (state : IAgentState)
  | OpAddConversationEntry (role content : string)
  | OpAddExecutionLog (action result : string)
  | OpUpdateTaskState (update : TaskStateUpdate)
  | OpSetCustomData (key : string) (value : JsVal)
  | OpRecordError (error : string)
  | OpRecreate
  | OpSelfTest
  | OpReportToParent (r : ITaskResult)
  | OpDispatchTask (subTask : ITask) (targetAgent : option string).

Definition is_loadState (op : Op) : bool :=
  match op with OpLoadState _ => true | _ => false end.

(** The class of a node is read off its [type]. *)
Definition run_op (E : Env) (op : Op) : M unit :=
  match op with
  | OpInitialize =>
      this ← get_this;
      match type this with
      | ROOT => RootAgent_initialize E
      | CHILD => ChildAgent_initialize E
      end
  | OpExecuteTask task =>
      this ← get_this;
      match type this with
      | ROOT => RootAgent_executeTask E task;; mret tt
      | CHILD => ChildAgent_executeTask E task;; mret tt
      end
  | OpTerminate reason => terminate E reason
  | OpAddChild c => addChild E c;; mret tt
  | OpRemoveChild agentId => removeChild E agentId;; mret tt
  | OpUpdateStatus s => updateStatus E s
  | OpReportResult r => reportResult E r
  | OpLoadState state => loadState E state
  | OpAddConversationEntry role content => addConversationEntry E role content
  | OpAddExecutionLog action result => addExecutionLog E action result
  | OpUpdateTaskState update => updateTaskState update
  | OpSetCustomData key value => setCustomData key value
  | OpRecordError error => recordError E error
  | OpRecreate => recreate E;; mret tt
  | OpSelfTest => selfTest E;; mret tt
  | OpReportToParent r => reportToParent E r
  | OpDispatchTask subTask targetAgent => dispatchTask E subTask targetAgent;; mret tt
  end.

Fixpoint run_ops (E : Env) (ops : list Op) (a : Agent) (w : World)
    : Agent * World :=
  match ops with
  | [] => (a, w)
  | op :: ops' =>
      let o := run_op E op a w in run_ops E ops' (self o) (world o)
  end.

(** A persistence gateway that fulfils every call. *)
Definition reliable (E : Env) : Prop := ∀ n, fs_ok E n = true.

(** ** Sample collaborators and nodes *)

Definition sample_uuid (n : nat) : string := "uuid-" +:+ pretty n.

(** The verdicts of the self-test oracle, call by call. *)
Definition sample_env (fs : nat → bool) (verdicts : nat → Res LlmVerdict) : Env :=
  mkEnv sample_uuid fs (fun _ => None)
    (fun _ instruction _ =>
       Ok (mkExec true ("done: " +:+ js_toString instruction) None))
    (fun n _ _ => verdicts n) true.

Definition always_pass : nat → Res LlmVerdict :=
  fun _ => Ok (mkVerdict true "ok").

Definition E_ok : Env := sample_env (fun _ => true) always_pass.

Definition E_disk_full : Env := sample_env (fun _ => false) always_pass.

(** The same collaborators in a process without LLM service: none was
    installed and the environment holds no API key. *)
Definition without_llm (E : Env) : Env :=
  mkEnv (uuid_of E) (fs_ok E) (fs_agentMd E) (llm_executeTask E)
    (llm_selfTest E) false.

Definition E_no_llm : Env := without_llm E_ok.

Definition world0 : World := mkWorld 0 0 0 [] [].

Definition sample_config (n : string) (t : AgentType) (p : Key string)
    : IAgentConfig :=
  Cfg.mk Absent n t p Absent Absent Absent Absent Absent Absent.

Definition sample_worker : Agent :=
  (ChildAgent_super E_ok
     (Cfg.mk (Given "worker-1") "worker" CHILD (Given "root-1") Absent Absent
        Absent Absent Absent Absent) world0).1.

Definition sample_root : Agent :=
  (new_RootAgent E_ok
     (Cfg.mk (Given "root-1") "root" ROOT Absent Absent Absent Absent Absent
        Absent Absent)
     world0).1.

Definition sample_task : ITask :=
  Task.mk "task-1" "build X" (Some [("instruction", JStr "build X")]) None.

Definition with_history (h : list string) (a : Agent) : Agent :=
  set_errors (length h) (last h) h a.

(** ** Vocabulary of the properties *)

Definition wp {A} (m : M A) (Q : A → Agent → World → Prop)
    (QE : string → Agent → World → Prop) (a : Agent) (w : World) : Prop :=
  match res (m a w) with
  | Ok x => Q x (self (m a w)) (world (m a w))
  | Throw e => QE e (self (m a w)) (world (m a w))
  end.

(** [m] returns, and what it leaves satisfies [Q]. *)
Definition returns {A} (m : M A) (Q : A → Agent → World → Prop)
    (a : Agent) (w : World) : Prop :=
  wp m Q (fun _ _ _ => False) a w.

(** Whatever the outcome, the receiver still satisfies [P]. *)
Definition keeps {A} (P : Agent → Prop) (m : M A) : Prop :=
  ∀ a w, P a → P (self (m a w)).

Definition hist_ok (a : Agent) : Prop := length (errorHistory a) ≤ MAX_ERRORS.

(** The history that [recordError] leaves. *)
Definition pushed (error : string) (h : list string) : list string :=
  let h' := h ++ [error] in if MAX_ERRORS <? length h' then tail h' else h'.

(** An operation that installs no history of more than 20 entries. *)
Definition installs_bounded (op : Op) : bool :=
  match op with
  | OpLoadState state => length (st_errorHistory state) <=? MAX_ERRORS
  | _ => true
  end.

Definition long_history : list string := replicate 21 "E".

(** A state with a full history. *)
Definition full_state : IAgentState :=
  mkState "" createEmptyContext "ChildAgent" IDLE None 20 (replicate 20 "E")
    (Some "E") (sample_config "worker" CHILD Absent).

Definition loaded_state : IAgentState :=
  mkState "" createEmptyContext "ChildAgent" IDLE None 21 long_history
    (Some "E") (sample_config "worker" CHILD Absent).


Definition logged (action result : string) (a : Agent) : Agent :=
  let c := context a in
  set_context
    (mkContext (conversationHistory c) (taskState c)
       (executionLog c ++ [mkLog action result]) (customData c)) a.

(** The node after [recordError]. *)
Definition recorded (error : string) (a : Agent) : Agent :=
  let a1 :=
    set_errors (S (errorCount a)) (Some error) (pushed error (errorHistory a)) a in
  match monitor a1 with
  | Some m =>
      set_monitor
        (Some
           (Monitor_reportEvent
              (mkEvent ERROR_DETECTED (id a1)
                 [("error", JStr error);
                  ("errorCount", JNum (Z.of_nat (errorCount a1)))]) m)) a1
  | None => a1
  end.

(** The node after [initialize], for both classes. *)
Definition initialized (a : Agent) : Agent :=
  set_status IDLE
    (match monitor a with
     | Some m => set_monitor (Some (Monitor_start m)) (set_status IDLE a)
     | None => set_status IDLE a
     end).

(** How many times a task was started on a node: the [task_start] entries
    of its execution log. *)
Definition task_starts (c : IAgentContext) : nat :=
  length (filter (fun l => action l = "task_start") (executionLog c)).

(** The log of the node holds [n] such entries. *)
Definition started (n : nat) (a : Agent) : Prop := task_starts (context a) = n.

(** What [ChildAgent.executeTask] leaves when it returns [r]. *)
Definition executed (task : ITask) (a : Agent) (r : ITaskResult) (a' : Agent)
    : Prop :=
  Result.taskId r = Task.id task
  ∧ currentTask a' = Some task
  ∧ id a' = id a
  ∧ task_starts (context a') = S (task_starts (context a))
  ∧ ((Result.success r = true
      ∧ Result.selfTestPassed r = Some true
      ∧ Result.error r = None
      ∧ status a' = COMPLETED
      ∧ errorHistory a' = errorHistory a
      ∧ errorCount a' = errorCount a)
     ∨ (Result.success r = false
        ∧ Result.selfTestPassed r = Some false
        ∧ ∃ e, Result.error r = Some e
               ∧ lastError a' = Some e
               ∧ errorHistory a' = pushed e (errorHistory a)
               ∧ errorCount a' = S (errorCount a)
               ∧ status a'
                 = if isInErrorLoop (Some 3%Z) a' then ERROR_LOOP else FAILED)).


(** The node that [recreate] constructs and initializes for an old node of
    type [t] and configuration [conf], with the uuid [u]: the kind of the
    new configuration is [t], the class of the old node. *)
Definition recreated (t : AgentType) (conf : AgentConfig) (u : string) (n : Agent)
    : Prop :=
  id n = u ∧ type n = t ∧ status n = IDLE
  ∧ children n = [] ∧ currentTask n = None
  ∧ errorHistory n = [] ∧ errorCount n = 0 ∧ lastError n = None
  ∧ context n = createEmptyContext
  ∧ monitor n = Some (mkMonitor true [])
  ∧ name n = Conf.name conf
  ∧ parentId n = Conf.parentId conf
  ∧ Conf.id (config n) = Some u
  ∧ Conf.name (config n) = Conf.name conf
  ∧ Conf.type (config n) = t
  ∧ Conf.parentId (config n) = Conf.parentId conf
  ∧ Conf.timeout (config n) = Conf.timeout conf
  ∧ Conf.maxRetries (config n) = Conf.maxRetries conf
  ∧ Conf.description (config n) = Conf.description conf
  ∧ Conf.enableMonitor (config n) = Some true.

(** The node that [recreate] constructs for the old node [a] when it draws
    its uuid in the world [w], before it initializes it. *)
Definition rebuilt (E : Env) (a : Agent) (w : World) : Agent :=
  let '(u, w1) := uuidv4 E w in
  let c := spread_config (config a) in
  let newConfig :=
    Cfg.mk (Given u) (Cfg.name c) (Cfg.type c) (Cfg.parentId c)
      (Cfg.agentMdPath c) (Cfg.maxRetries c) (Cfg.timeout c) (Given true)
      (Cfg.description c) (Cfg.template c) in
  match type a with
  | ROOT => (new_RootAgent E newConfig w1).1
  | CHILD => (ChildAgent_super E newConfig w1).1
  end.





Definition always_fail : nat → Res LlmVerdict :=
  fun _ => Ok (mkVerdict false "no").

Definition oracle_down : nat → Res LlmVerdict := fun _ => Throw "oracle down".

(** The first seven persistence calls are fulfilled: the first rejected
    write is the [error] entry that the catch block of [executeTask] logs. *)
Definition E_handler_write_rejected : Env :=
  sample_env (fun n => n <? 7) always_fail.

Definition running_worker : Agent :=
  set_status RUNNING (set_currentTask (Some sample_task) sample_worker).


(** "The coordinator replaces the worker in the children map under its new
    identity, so the entry of the old node no longer remains there." *)
Definition removes_old_entry (E : Env) : Prop :=
  ∀ subTask subTaskResults this w targetAgent result worker,
    let o1 := acquireChild E this w in
    let o2 := dispatchTask E subTask (Some targetAgent) (self o1) (world o1) in
    res o1 = Ok targetAgent → res o2 = Ok result →
    Result.success result = false →
    children_get targetAgent (children (self o2)) = Some worker →
    status worker = ERROR_LOOP →
    children_get targetAgent
      (children (self (processSubTask E subTask subTaskResults this w))) = None.

(** The self-test of the second LLM call fails, every other one passes. *)
Definition fail_once : nat → Res LlmVerdict :=
  fun n => if n =? 1 then Ok (mkVerdict false "no") else Ok (mkVerdict true "ok").

Definition E_fail_once : Env := sample_env (fun _ => true) fail_once.

(** The same, with a gateway that fulfils the first 19 persistence calls:
    the first rejected write is one that [recreate] awaits. *)
Definition E_recreate_rejected : Env := sample_env (fun n => n <? 19) fail_once.

(** The same as [E_fail_once], with a [uuidv4] that answers the id of the
    sample worker. *)
Definition E_fail_once_uuid_repeats : Env :=
  mkEnv (fun _ => "worker-1") (fs_ok E_fail_once) (fs_agentMd E_fail_once)
    (llm_executeTask E_fail_once) (llm_selfTest E_fail_once) true.

(** A worker that already failed its self-test twice. *)
Definition tired_worker : Agent :=
  with_history ["Self-test failed"; "Self-test failed"] sample_worker.

Definition root_with_worker : Agent :=
  set_children [("worker-1", tired_worker)] sample_root.



Definition sample_subTask : ITask :=
  Task.mk "sub-1" "step one" (Some (subTask_context sample_task 0 1))
    (Some "task-1").

(** * The rest of the code

    The methods of the same classes that the properties above do not
    mention, the monitor's periodic check and statistics, and the first
    version of the worker. *)

(** ** core/Agent.ts: the tree and the snapshot *)

(** [getChild]. *)
Definition getChild (agentId : string) (this : Agent) : option Agent :=
  children_get agentId (children this).

(** [getAllDescendants]: every child followed by its own descendants, in the
    order of the children map. *)
Fixpoint getAllDescendants (this : Agent) : list Agent :=
  flat_map (fun kc => kc.2 :: getAllDescendants kc.2) (children this).

(** [getState()]: the fields that [loadState] ignores beside the part that it
    reads. *)
Record AgentSnapshot : Type := mkSnapshot {
  snap_id : string;
  snap_name : string;
  snap_type : AgentType;
  snap_parentId : option string;
  snap_childrenIds : list string;
  snap_state : IAgentState }.

(** [config] is the configuration of the node with its defaults filled in. *)
Definition getState (this : Agent) : AgentSnapshot :=
  mkSnapshot (id this) (name this) (type this) (parentId this)
    (children_keys (children this))
    (mkState (description this) (context this) (template this) (status this)
       (currentTask this) (errorCount this) (errorHistory this)
       (lastError this) (spread_config (config this))).


(** ** core/Monitor.ts: statistics and the periodic check *)

Global Instance MonitorEventType_eq_dec : EqDecision MonitorEventType.
Proof. solve_decision. Defined.

(** [getStats()]. *)
Record MonitorStats : Type := mkStats {
  totalEvents : nat;
  errorEvents : nat;
  loopEvents : nat;
  timeoutEvents : nat;
  stats_isRunning : bool }.

(** [eventHistory.filter(e => e.type === t)]. *)
Definition events_of (t : MonitorEventType) (h : list IMonitorEvent)
    : list IMonitorEvent :=
  filter (fun e => ev_type e = t) h.

Definition Monitor_getStats (m : Monitor) : MonitorStats :=
  mkStats (length (eventHistory m))
    (length (events_of ERROR_DETECTED (eventHistory m)))
    (length (events_of LOOP_DETECTED (eventHistory m)))
    (length (events_of TIMEOUT (eventHistory m)))
    (isRunning m).

(** [getEventHistory()] answers a copy. *)
Definition Monitor_getEventHistory (m : Monitor) : list IMonitorEvent :=
  eventHistory m.

Definition Monitor_clearHistory (m : Monitor) : Monitor :=
  mkMonitor (isRunning m) [].

(** The check that the timer of a running monitor calls every five seconds.
    The monitor is a field of the node it watches, so the check is a method
    of that node; the time since the current task was created is an
    argument. *)
Section Tick.

Variable E : Env.


(** [handleErrorLoop]: declared [async] but without an [await], it runs to
    its end at the call.  The event is pushed on the history directly, not
    through [reportEvent]. *)
Definition Monitor_handleErrorLoop (event : IMonitorEvent) : M unit :=
  updateStatus E ERROR_LOOP;;
  this ← get_this;
  with_monitor (fun m =>
    mkMonitor (isRunning m)
      (eventHistory m ++ [mkEvent LOOP_DETECTED (id this) (ev_details event)])).






End Tick.

(** [task.context?.instruction || task.description]. *)
Definition instruction_of (task : ITask) : JsVal :=
  let i := opt_get "instruction" (Task.context task) in
  if truthy i then i else JStr (Task.description task).

(** ** core/ChildAgent.ts before the LLM service

    The first version of the worker: [performTask] is a placeholder and
    [selfTest] runs the test cases of [extractTestCases]. *)

Section ChildAgentV1.

Variable E : Env.

(** The double quote character. *)
Definition double_quote : string := String (Ascii.ascii_of_nat 34) "".

Definition ChildAgentV1_performTask (task : ITask) : M JsVal :=
  let instruction := instruction_of task in
  addExecutionLog E "perform_task"
    ("Performing: " +:+ js_toString instruction);;
  this ← get_this;
  mret
    (JObj [("agentId", JStr (id this));
           ("taskId", JStr (Task.id task));
           ("instruction", instruction);
           ("result",
            JStr ("Task " +:+ double_quote +:+ js_toString instruction
                  +:+ double_quote +:+ " completed by " +:+ name this))]).

(** The loop of [selfTest] over the test cases; [runTestCase] calls
    [validate], which does not throw. *)
Fixpoint ChildAgentV1_runTestCases (testCases : list (string * bool))
    : M bool :=
  match testCases with
  | [] => mret true
  | (name, passed) :: rest =>
      if passed then ChildAgentV1_runTestCases rest
      else
        addExecutionLog E "self_test_failed"
          ("Self-test case failed: " +:+ name);;
        mret false
  end.

Definition ChildAgentV1_selfTest : M bool :=
  this ← get_this;
  match currentTask this with
  | None => mret false
  | Some _ =>
      try_catch (ChildAgentV1_runTestCases (extractTestCases this))
        (fun error =>
           addExecutionLog E "self_test_error"
             ("Self-test error: Error: " +:+ error);;
           mret false)
  end.

Definition ChildAgentV1_executeTask (task : ITask) : M ITaskResult :=
  updateStatus E RUNNING;;
  modify (set_currentTask (Some task));;
  addExecutionLog E "task_start" ("Starting task: " +:+ Task.description task);;
  try_catch
    ((if validateTaskContext task then mret tt
      else throw "Invalid task context: missing required instruction");;
     output ← ChildAgentV1_performTask task;
     addExecutionLog E "self_test" "Running self-test...";;
     selfTestPassed ← ChildAgentV1_selfTest;
     (if (selfTestPassed : bool) then mret tt else throw "Self-test failed");;
     addExecutionLog E "self_test_passed" "Self-test passed";;
     let result := Result.mk (Task.id task) true output None (Some true) in
     updateStatus E COMPLETED;;
     reportResult E result;;
     reportToParent E result;;
     mret result)
    (fun errorMessage =>
       addExecutionLog E "error" ("Error: " +:+ errorMessage);;
       recordError E errorMessage;;
       this ← get_this;
       updateStatus E (if isInErrorLoop None this then ERROR_LOOP else FAILED);;
       let result :=
         Result.mk (Task.id task) false JUndef (Some errorMessage) (Some false) in
       reportResult E result;;
       reportToParent E result;;
       mret result).

End ChildAgentV1.

(** ** Vocabulary of the further properties *)






(** The error fields of a node agree with each other. *)
Definition errors_consistent (a : Agent) : Prop :=
  lastError a = last (errorHistory a)
  ∧ length (errorHistory a) = errorCount a `min` MAX_ERRORS.

(** Between [w] and [w'] only persistence calls were made, and no rejection
    was left unhandled. *)
Definition only_writes (w w' : World) : Prop :=
  uuid_calls w' = uuid_calls w ∧ llm_calls w' = llm_calls w
  ∧ unhandled w' = unhandled w.

(** The result that the [catch] block of [executeTask] builds. *)
Definition failure (task : ITask) (e : string) : ITaskResult :=
  Result.mk (Task.id task) false JUndef (Some e) (Some false).

(** The node after [reportToParent]. *)
Definition reported (a : Agent) : Agent :=
  if truthy_ostr (parentId a)
  then logged "report_to_parent"
         ("Reporting result to parent " +:+ default "" (parentId a)) a
  else a.

(** What the worker answers for a task, read off the answers of the oracle,
    with the number of oracle calls it makes. *)
Definition worker_outcome (E : Env) (task : ITask) (a : Agent) (w : World)
    : ITaskResult * nat :=
  if validateTaskContext task
  then
    match llm_executeTask E (llm_calls w) (instruction_of task)
            (Task.context task) with
    | Throw e => (failure task e, 1)
    | Ok x =>
        let success :=
          Result.mk (Task.id task) true
            (execution_output a task (instruction_of task) x) None (Some true) in
        match llm_selfTest E (S (llm_calls w)) (Task.description task)
                (ex_output x) with
        | Ok v =>
            if passed v then (success, 2)
            else (failure task "Self-test failed", 2)
        | Throw _ => (success, 2)
        end
    end
  else (failure task "Invalid task context: missing required instruction", 0).

(** The status that [executeTask] leaves for a result. *)
Definition status_after (a : Agent) (r : ITaskResult) : AgentStatus :=
  match Result.error r with
  | None => COMPLETED
  | Some e =>
      if error_loop (pushed e (errorHistory a)) 3 then ERROR_LOOP else FAILED
  end.

(** The world after the fulfilled writes [entries]. *)
Definition wrote (entries : list StorageWrite) (w : World) : World :=
  mkWorld (uuid_calls w) (fs_calls w + length entries) (llm_calls w)
    (fs_log w ++ entries) (unhandled w).

(** The record that [notifyParent] writes for the parent. *)
Definition parent_note (r : ITaskResult) (a : Agent) : list StorageWrite :=
  if truthy_ostr (parentId a)
  then [WAgentState
          (default "undefined" (parentId a) +:+ "_child_result_" +:+ id a)
          (status a) (Some (id a, r))]
  else [].

(** [x] is the result that the [executeTask] of some worker returned for
    the view of [subTask] that [dispatchTask] builds, and carries its id. *)
Definition answered (E : Env) (subTask : ITask) (x : ITaskResult) : Prop :=
  Result.taskId x = Task.id subTask
  ∧ ∃ worker w,
      res (ChildAgent_executeTask E (isolatedTask subTask) worker w) = Ok x.

(** The child that [executeTask] creates when no child is available. *)
Definition hired (E : Env) (a : Agent) (w : World) : Agent :=
  initialized
    (ChildAgent_super E
       (Cfg.mk Absent ("child-agent-" +:+ pretty (length (children a) + 1))
          CHILD (Given (id a)) Absent (Given 3%Z) (Given 120000%Z) Absent
          Absent (Given "ChildAgent")) w).1.

(** * Properties *)

(** ** A weakest-precondition calculus for methods

    [wp m Q QE a w]: run from receiver [a] in world [w], the method [m]
    either returns [x] leaving [a'], [w'] with [Q x a' w'], or throws [e]
    leaving [a'], [w'] with [QE e a' w']. *)

Lemma wp_mono {A} (m : M A) (Q Q' : A → Agent → World → Prop) QE QE' a w :
  (∀ x a' w', Q x a' w' → Q' x a' w') →
  (∀ e a' w', QE e a' w' → QE' e a' w') →
  wp m Q QE a w → wp m Q' QE' a w.
Proof. unfold wp. destruct (res (m a w)); auto. Qed.

Lemma wp_bind {A B} (m : M A) (k : A → M B) Q QE a w :
  wp m (fun x => wp (k x) Q QE) QE a w → wp (m ≫= k) Q QE a w.
Proof.
  unfold wp, mbind, M_bind, bind.
  destruct (m a w) as [[x|e] a' w']; cbn; auto.
Qed.

Lemma wp_ret {A} (x : A) (Q : A → Agent → World → Prop) QE a w :
  Q x a w → wp (mret x) Q QE a w.
Proof. auto. Qed.

Lemma wp_throw {A} e (Q : A → Agent → World → Prop)
    (QE : string → Agent → World → Prop) a w :
  QE e a w → wp (throw e) Q QE a w.
Proof. auto. Qed.

Lemma wp_get_this (Q : Agent → Agent → World → Prop) QE a w :
  Q a a w → wp get_this Q QE a w.
Proof. auto. Qed.

Lemma wp_modify f (Q : unit → Agent → World → Prop) QE a w :
  Q tt (f a) w → wp (modify f) Q QE a w.
Proof. auto. Qed.

Lemma wp_try_catch {A} (body : M A) handler Q QE a w :
  wp body Q (fun e => wp (handler e) Q QE) a w →
  wp (try_catch body handler) Q QE a w.
Proof.
  unfold wp, try_catch.
  destruct (body a w) as [[x|e] a' w']; cbn; auto.
Qed.

Lemma wp_forget (m : M unit) (Q : unit → Agent → World → Prop) QE a w :
  wp m (fun _ => Q tt) (fun _ => Q tt) a w → wp (forget m) Q QE a w.
Proof.
  unfold wp, forget. destruct (m a w) as [[x|e] a' w']; cbn; auto.
Qed.

Lemma wp_with_monitor f (Q : unit → Agent → World → Prop) QE a w :
  Q tt (match monitor a with
        | Some m => set_monitor (Some (f m)) a
        | None => a
        end) w →
  wp (with_monitor f) Q QE a w.
Proof. auto. Qed.

Lemma wp_llm_call {A} (answer : nat → Res A) (Q : A → Agent → World → Prop)
    QE a w :
  (∀ x w', Q x a w') → (∀ e w', QE e a w') → wp (llm_call answer) Q QE a w.
Proof. intros. unfold wp, llm_call. cbn. destruct (answer _); auto. Qed.

Lemma wp_elim {A} (m : M A) Q QE a w x :
  wp m Q QE a w → res (m a w) = Ok x → Q x (self (m a w)) (world (m a w)).
Proof. unfold wp. intros H Hr. by rewrite Hr in H. Qed.

Lemma returns_elim {A} (m : M A) Q a w :
  returns m Q a w →
  ∃ x, res (m a w) = Ok x ∧ Q x (self (m a w)) (world (m a w)).
Proof. unfold returns, wp. destruct (res (m a w)); [eauto | done]. Qed.

Lemma bind_Ok {A B} (m : M A) (k : A → M B) a w x :
  res (m a w) = Ok x → (m ≫= k) a w = k x (self (m a w)) (world (m a w)).
Proof. intros H. unfold mbind, M_bind, bind. by rewrite H. Qed.

Lemma keeps_bind {A B} P (m : M A) (k : A → M B) :
  keeps P m → (∀ x, keeps P (k x)) → keeps P (m ≫= k).
Proof.
  intros Hm Hk a w Ha. specialize (Hm a w Ha).
  unfold mbind, M_bind, bind.
  destruct (m a w) as [[x|e] a' w']; cbn in *; [by apply Hk | done].
Qed.

Lemma keeps_try_catch {A} P (body : M A) handler :
  keeps P body → (∀ e, keeps P (handler e)) → keeps P (try_catch body handler).
Proof.
  intros Hm Hk a w Ha. specialize (Hm a w Ha). unfold try_catch.
  destruct (body a w) as [[x|e] a' w']; cbn in *; [done | by apply Hk].
Qed.

Lemma keeps_detach P (m : M unit) : keeps P m → keeps P (detach m).
Proof. intros Hm a w Ha. by apply Hm. Qed.

Lemma keeps_forget P (m : M unit) : keeps P m → keeps P (forget m).
Proof. intros Hm a w Ha. exact (Hm a w Ha). Qed.

Lemma keeps_ret {A} P (x : A) : keeps P (mret x).
Proof. by intros a w Ha. Qed.

Lemma keeps_throw {A} P e : keeps P (@throw A e).
Proof. by intros a w Ha. Qed.

Lemma keeps_get_this P : keeps P get_this.
Proof. by intros a w Ha. Qed.

Lemma keeps_modify P f : (∀ a, P a → P (f a)) → keeps P (modify f).
Proof. intros Hf a w Ha. by apply Hf. Qed.

Lemma keeps_llm_call {A} P (answer : nat → Res A) : keeps P (llm_call answer).
Proof. by intros a w Ha. Qed.

Lemma keeps_call_on {A} P target (m : M A) : keeps P (call_on target m).
Proof. intros a w Ha. unfold call_on. by destruct (res (m target w)). Qed.

Lemma keeps_construct P C c : keeps P (construct C c).
Proof. intros a w Ha. unfold construct. by destruct (C c w) as [[n|e] w']. Qed.

Lemma keeps_if {A} P (b : bool) (m1 m2 : M A) :
  keeps P m1 → keeps P m2 → keeps P (if b then m1 else m2).
Proof. by destruct b. Qed.

(** ** Error-loop detection *)

Lemma size_set_one (l : list string) :
  l ≠ [] →
  size (list_to_set l : gset string) = 1 ↔ ∀ x y, x ∈ l → y ∈ l → x = y.
Proof.
  intros Hne. split.
  - intros Hs x y Hx Hy.
    apply (size_singleton_inv (list_to_set l : gset string)); [done | |];
      by apply elem_of_list_to_set.
  - intros Heq. destruct l as [|x l]; [done |].
    assert ((list_to_set (x :: l) : gset string) = {[x]}) as ->;
      [| by apply size_singleton].
    apply set_eq. intros y. rewrite elem_of_list_to_set, elem_of_singleton.
    split; [| intros ->; left].
    intros Hy. apply Heq; [done | left].
Qed.

Lemma slice_trailing {A} (l : list A) (threshold : Z) :
  (1 ≤ threshold)%Z → (threshold ≤ Z.of_nat (length l))%Z →
  js_slice_from (- threshold) l = trailing (Z.to_nat threshold) l.
Proof.
  intros H1 H2. unfold js_slice_from, trailing.
  destruct (Z.ltb_spec (- threshold) 0); [| lia].
  f_equal. lia.
Qed.

Lemma trailing_length {A} (l : list A) n :
  n ≤ length l → length (trailing n l) = n.
Proof. intros. unfold trailing. rewrite length_drop. lia. Qed.

Lemma error_loop_spec (h : list string) (threshold : Z) :
  (1 ≤ threshold)%Z →
  error_loop h threshold = true ↔ trailing_identical h threshold.
Proof.
  intros H1. unfold error_loop, trailing_identical.
  destruct (Z.ltb_spec (Z.of_nat (length h)) threshold) as [Hlt|Hge].
  - split; [done | lia].
  - rewrite slice_trailing by done.
    rewrite bool_decide_eq_true, size_set_one.
    + split; [by split | by intros [_ ?]].
    + intros Hnil. apply (f_equal length) in Hnil.
      rewrite trailing_length in Hnil by lia. simpl in Hnil. lia.
Qed.

(** C2, as the specification states it, fails for the threshold 0: the code
    slices with [slice(-0)], that is the whole history, so an empty history,
    or one with two different entries, is not a loop although its trailing
    zero entries are (vacuously) identical. *)
Lemma isInErrorLoop_threshold_zero :
  ¬ (∀ (a : Agent) (threshold : Z),
       isInErrorLoop (Some threshold) a = true
       ↔ trailing_identical (errorHistory a) threshold).
Proof.
  intros H.
  destruct (H (with_history ["A"; "B"] sample_worker) 0%Z) as [_ Hback].
  assert (isInErrorLoop (Some 0%Z) (with_history ["A"; "B"] sample_worker)
          = false) as Hf by (by vm_compute).
  rewrite Hback in Hf; [done |].
  split; [simpl; lia |].
  intros x y Hx. simpl in Hx. by apply elem_of_nil in Hx.
Qed.

(** C2 (amended): for every node and every threshold of at least 1,
    [isInErrorLoop(threshold)] is true exactly when the history has at least
    [threshold] entries and its last [threshold] entries are identical text;
    older entries are ignored, an omitted threshold means 3, and
    ['A','B','A'], ['A','A','A'], ['A','A'] give false, true, false for 3. *)
Theorem isInErrorLoop_correct (a : Agent) (threshold : Z) :
  (1 ≤ threshold)%Z →
  (isInErrorLoop (Some threshold) a = true
   ↔ trailing_identical (errorHistory a) threshold)
  ∧ (∀ older recent,
       Z.of_nat (length recent) = threshold →
       isInErrorLoop (Some threshold) (with_history (older ++ recent) a)
       = isInErrorLoop (Some threshold) (with_history recent a))
  ∧ isInErrorLoop None a = isInErrorLoop (Some 3%Z) a
  ∧ isInErrorLoop (Some 3%Z) (with_history ["A"; "B"; "A"] a) = false
  ∧ isInErrorLoop (Some 3%Z) (with_history ["A"; "A"; "A"] a) = true
  ∧ isInErrorLoop (Some 3%Z) (with_history ["A"; "A"] a) = false.
Proof.
  intros H1. split; [by apply error_loop_spec |].
  split; [| by vm_compute].
  intros older recent Hlen. unfold isInErrorLoop. simpl.
  assert (length recent = Z.to_nat threshold) as Ht by lia.
  apply eq_true_iff_eq. rewrite !error_loop_spec by done.
  unfold trailing_identical.
  assert (trailing (Z.to_nat threshold) (older ++ recent) = recent) as ->.
  { unfold trailing. rewrite length_app, Ht.
    replace (length older + Z.to_nat threshold - Z.to_nat threshold)
      with (length older) by lia.
    by rewrite drop_app_length. }
  assert (trailing (Z.to_nat threshold) recent = recent) as ->.
  { unfold trailing. rewrite Ht. by rewrite Nat.sub_diag. }
  rewrite length_app.
  split; intros [_ ?]; (split; [lia | done]).
Qed.

Lemma isInErrorLoop_correct_witness :
  isInErrorLoop (Some 3%Z)
    (with_history ["x"; "A"; "A"; "A"] sample_worker) = true
  ↔ trailing_identical ["x"; "A"; "A"; "A"] 3.
Proof.
  refine (proj1 (isInErrorLoop_correct
                   (with_history ["x"; "A"; "A"; "A"] sample_worker) 3 _)).
  lia.
Defined.

(** ** Aggregation *)

Lemma forallb_conj {A} (f g : A → bool) (l : list A) :
  forallb f l && forallb g l = forallb (fun x => f x && g x) l.
Proof.
  induction l as [|x l IH]; [done |]. simpl. rewrite <- IH.
  destruct (f x), (g x), (forallb f l), (forallb g l); done.
Qed.

Lemma errors_filter_map (results : list ITaskResult) :
  map (fun r => default "" (Result.error r))
    (filter (fun r => truthy_ostr (Result.error r) = true) results)
  = nonempty_error_strings results.
Proof.
  unfold nonempty_error_strings, error_strings.
  induction results as [|[t s o e p] l IH]; [done |].
  rewrite filter_cons. cbn [omap list_omap Result.error].
  destruct e as [e|]; cbn [truthy_ostr].
  - cbn [mbind option_bind]. rewrite filter_cons. unfold truthy_str.
    destruct (String.eqb_spec e "") as [->|Hne]; cbn [negb].
    + rewrite decide_False by done. rewrite decide_False by naive_solver. done.
    + rewrite decide_True by done. rewrite decide_True by done.
      cbn. by rewrite IH.
  - rewrite decide_False by done. done.
Qed.

Lemma outputs_filter_map (results : list ITaskResult) :
  map Result.output (filter (fun r => truthy (Result.output r) = true) results)
  = truthy_outputs results.
Proof.
  unfold truthy_outputs, individual_outputs.
  induction results as [|[t s o e p] l IH]; [done |].
  rewrite filter_cons. cbn [omap list_omap Result.output].
  destruct o as [| |b|n|x|x|x]; cbn [truthy mbind option_bind];
    rewrite ?filter_cons; cbn [truthy]; repeat case_decide; try done;
    cbn [map]; by rewrite IH.
Qed.

(** C4, as the specification states it, fails on three points: the code
    joins the errors with a semicolon and a space, not with a semicolon; it
    leaves out the outputs that are not truthy, here the number 0; and it
    leaves out an error that is the empty string, so that the error of the
    aggregate is absent although a result has one. *)
Lemma aggregateResults_not_as_specified :
  (∀ this w,
     ¬ aggregates_as_specified
         [Result.mk "t1" false JUndef (Some "e1") None;
          Result.mk "t2" false JUndef (Some "e2") None] this w
     ∧ ¬ aggregates_as_specified
           [Result.mk "t1" true (JNum 0) None (Some true)] this w
     ∧ ¬ aggregates_as_specified
           [Result.mk "t1" false JUndef (Some "") None] this w)
  ∧ (∃ r out,
       res (aggregateResults
              [Result.mk "t1" false JUndef (Some "e1") None;
               Result.mk "t2" false JUndef (Some "e2") None;
               Result.mk "t3" true (JNum 0) None (Some true);
               Result.mk "t4" false (JStr "partial") (Some "") None]
              sample_root world0) = Ok r
       ∧ Result.error r = Some "e1; e2"
       ∧ Result.output r = JObj out
       ∧ obj_get "outputs" out = JArr [JStr "partial"]).
Proof.
  split.
  - intros this w. repeat split; intros (r & out & Hres & Hout & Houts & Herr);
      injection Hres as <-; cbn in Hout, Houts, Herr.
    + discriminate Herr.
    + injection Hout as <-. cbn in Houts. discriminate Houts.
    + discriminate Herr.
  - eexists _, _. by vm_compute.
Qed.

(** C4 (amended): [aggregateResults] returns a result whose [success] is the
    conjunction over all results of [success] and [selfTestPassed]; whose
    output carries the total, the number of successes, the number of passed
    self-tests and the individual outputs that are truthy; whose [error] is
    the individual error strings that are not empty, joined by a semicolon
    and a space, and absent when there are none.  When no error is the empty
    string and every output is truthy or missing, these are all the
    individual error strings and all the individual outputs.  One success
    with a passed self-test and one success with a failed self-test give
    [success: false], [successCount: 2], [selfTestPassedCount: 1]. *)
Theorem aggregateResults_correct (results : list ITaskResult) (this : Agent)
    (w : World) :
  let o := aggregateResults results this w in
  let both r := Result.success r && truthy_obool (Result.selfTestPassed r) in
  ∃ r out,
    res o = Ok r ∧ self o = this ∧ world o = w
    ∧ Result.success r = forallb both results
    ∧ Result.output r = JObj out
    ∧ obj_get "subTaskCount" out = JNum (Z.of_nat (length results))
    ∧ obj_get "successCount" out
      = JNum (Z.of_nat (length (filter (fun x => Result.success x = true) results)))
    ∧ obj_get "selfTestPassedCount" out
      = JNum (Z.of_nat
          (length (filter (fun x => Result.selfTestPassed x = Some true) results)))
    ∧ obj_get "outputs" out = JArr (truthy_outputs results)
    ∧ Result.error r
      = match nonempty_error_strings results with
        | [] => None
        | errors => Some (String.concat "; " errors)
        end
    ∧ (Forall (fun x => Result.error x ≠ Some "") results →
       nonempty_error_strings results = error_strings results)
    ∧ (Forall (fun x => truthy (Result.output x) = true
                        ∨ Result.output x = JUndef) results →
       truthy_outputs results = individual_outputs results)
    ∧ (∀ t1 t2,
         let o2 :=
           aggregateResults
             [Result.mk t1 true JUndef None (Some true);
              Result.mk t2 true JUndef None (Some false)] this w in
         ∃ r2 out2,
           res o2 = Ok r2 ∧ Result.success r2 = false
           ∧ Result.output r2 = JObj out2
           ∧ obj_get "successCount" out2 = JNum 2
           ∧ obj_get "selfTestPassedCount" out2 = JNum 1).
Proof.
  cbn zeta. eexists _, _.
  split; [reflexivity |]. split; [done |]. split; [done |].
  split; [apply forallb_conj |].
  split; [reflexivity |].
  split; [done |]. split; [done |].
  split.
  { cbn. do 3 f_equal. apply list_filter_iff. intros x.
    unfold truthy_obool. destruct (Result.selfTestPassed x) as [[]|]; naive_solver. }
  split; [cbn; by rewrite outputs_filter_map |].
  split.
  { cbn. rewrite errors_filter_map. by destruct (nonempty_error_strings results). }
  split.
  { intros Hall. unfold nonempty_error_strings, error_strings.
    induction Hall as [|[t s o e p] l Hx Hl IH]; [done |].
    cbn [omap list_omap Result.error] in *.
    destruct e as [e|]; cbn [mbind option_bind]; [| done].
    rewrite filter_cons, decide_True by congruence. by rewrite IH. }
  split.
  { intros Hall. unfold truthy_outputs, individual_outputs.
    induction Hall as [|[t s o e p] l Hx Hl IH]; [done |].
    cbn [omap list_omap Result.output] in *.
    destruct Hx as [Hx| ->]; [| done].
    destruct o as [| |b|n|x|x|x]; try done; cbn [mbind option_bind];
      rewrite filter_cons, decide_True by done; by rewrite IH. }
  intros t1 t2. eexists _, _. by vm_compute.
Qed.

(** ** Context isolation at dispatch *)



(** ** What the methods leave alone *)

Lemma terminate_unfold (E : Env) (reason : option string) (this : Agent)
    (w : World) :
  terminate E reason this w
  = let o1 := updateStatus E TERMINATED this w in
    let derived :=
      "Parent agent " +:+ id this +:+ " terminated: " +:+ or_str reason "unknown" in
    let '(r, ch, w2) :=
      each_child (terminate E (Some derived)) (children this) (world o1) in
    let this2 := set_children ch (self o1) in
    match r with
    | Throw e => mkOut (Throw e) this2 w2
    | Ok _ => (with_monitor Monitor_stop;; saveState E) this2 w2
    end.
Proof. by destruct this. Qed.

Section Frame.

Variable E : Env.

Lemma self_storage_write entry a w : self (storage_write E entry a w) = a.
Proof. unfold storage_write. by destruct (fs_ok E _). Qed.

Lemma self_saveState a w : self (saveState E a w) = a.
Proof.
  unfold saveState, mbind, M_bind, bind, get_this. cbn.
  destruct (res (storage_write E _ a w)) eqn:Hr;
    rewrite ?self_storage_write; cbn; by rewrite ?self_storage_write.
Qed.

Lemma self_updateStatus s a w : self (updateStatus E s a w) = set_status s a.
Proof.
  unfold updateStatus, mbind, M_bind, bind, modify, forget. cbn.
  apply self_saveState.
Qed.

Lemma res_updateStatus s a w : res (updateStatus E s a w) = Ok tt.
Proof. done. Qed.

(** A property of a node that does not look at its status, children,
    current task, context or monitor. *)
Variable P : Agent → Prop.
Hypothesis P_status : ∀ s a, P a → P (set_status s a).
Hypothesis P_children : ∀ c a, P a → P (set_children c a).
Hypothesis P_currentTask : ∀ t a, P a → P (set_currentTask t a).
Hypothesis P_context : ∀ c a, P a → P (set_context c a).
Hypothesis P_monitor : ∀ m a, P a → P (set_monitor m a).
Hypothesis P_recordError : ∀ error a,
  P a →
  P (set_errors (S (errorCount a)) (Some error)
       (let h := errorHistory a ++ [error] in
        if MAX_ERRORS <? length h then tail h else h) a).

Lemma keeps_storage_write entry : keeps P (storage_write E entry).
Proof. intros a w Ha. by rewrite self_storage_write. Qed.

Lemma keeps_storage_loadAgentMd n : keeps P (storage_loadAgentMd E n).
Proof. intros a w Ha. unfold storage_loadAgentMd. by destruct (fs_ok E _). Qed.

Lemma keeps_fresh_uuid : keeps P (fresh_uuid E).
Proof. by intros a w Ha. Qed.

Lemma keeps_with_monitor f : keeps P (with_monitor f).
Proof.
  apply keeps_modify. intros a Ha. destruct (monitor a); [by apply P_monitor | done].
Qed.

Create HintDb keeps.
Local Hint Resolve keeps_ret keeps_throw keeps_get_this keeps_llm_call
  keeps_call_on keeps_construct keeps_storage_write keeps_storage_loadAgentMd
  keeps_fresh_uuid keeps_with_monitor keeps_forget : keeps.

Ltac keeps_step :=
  first
    [ solve [eauto with keeps]
    | apply keeps_bind; [| intros ?]
    | apply keeps_try_catch; [| intros ?]
    | apply keeps_if
    | apply keeps_modify; intros ? ? ].

Lemma keeps_saveState : keeps P (saveState E).
Proof. intros a w Ha. by rewrite self_saveState. Qed.
Local Hint Resolve keeps_saveState : keeps.

Lemma keeps_updateStatus s : keeps P (updateStatus E s).
Proof. intros a w Ha. rewrite self_updateStatus. by apply P_status. Qed.
Local Hint Resolve keeps_updateStatus : keeps.

Lemma keeps_Agent_initialize : keeps P (Agent_initialize E).
Proof. unfold Agent_initialize. repeat keeps_step. Qed.
Local Hint Resolve keeps_Agent_initialize : keeps.

Lemma keeps_addExecutionLog action result :
  keeps P (addExecutionLog E action result).
Proof. unfold addExecutionLog. repeat keeps_step; by apply P_context. Qed.
Local Hint Resolve keeps_addExecutionLog : keeps.

Lemma keeps_addConversationEntry role content :
  keeps P (addConversationEntry E role content).
Proof. unfold addConversationEntry. repeat keeps_step; by apply P_context. Qed.

Lemma keeps_updateTaskState update : keeps P (updateTaskState update).
Proof. unfold updateTaskState. repeat keeps_step; by apply P_context. Qed.

Lemma keeps_setCustomData key value : keeps P (setCustomData key value).
Proof. unfold setCustomData. repeat keeps_step; by apply P_context. Qed.

Lemma keeps_reportResult r : keeps P (reportResult E r).
Proof.
  unfold reportResult, notifyParent. repeat keeps_step.
Qed.
Local Hint Resolve keeps_reportResult : keeps.

Lemma keeps_reportToParent r : keeps P (reportToParent E r).
Proof. unfold reportToParent. repeat keeps_step. Qed.
Local Hint Resolve keeps_reportToParent : keeps.

Lemma keeps_recordError error : keeps P (recordError E error).
Proof. unfold recordError. repeat keeps_step; by apply P_recordError. Qed.
Local Hint Resolve keeps_recordError : keeps.

Lemma keeps_Agent_loadAgentMd : keeps P (Agent_loadAgentMd E).
Proof. unfold Agent_loadAgentMd. repeat keeps_step. Qed.
Local Hint Resolve keeps_Agent_loadAgentMd : keeps.

Lemma keeps_ChildAgent_initialize : keeps P (ChildAgent_initialize E).
Proof. unfold ChildAgent_initialize. repeat keeps_step. Qed.

Lemma keeps_RootAgent_initialize : keeps P (RootAgent_initialize E).
Proof. unfold RootAgent_initialize. repeat keeps_step. Qed.

Lemma keeps_performTask task : keeps P (performTask E task).
Proof. unfold performTask. repeat keeps_step. Qed.
Local Hint Resolve keeps_performTask : keeps.

Lemma keeps_selfTest : keeps P (selfTest E).
Proof.
  unfold selfTest. apply keeps_bind; [eauto with keeps |]. intros this.
  destruct (currentTask this); repeat keeps_step.
Qed.
Local Hint Resolve keeps_selfTest : keeps.

(** [executeTask] stores the task it is given and then only changes the
    status, the context, the monitor and the error record. *)
Lemma self_ChildAgent_executeTask task a w :
  P (set_currentTask (Some task) (set_status RUNNING a)) →
  P (self (ChildAgent_executeTask E task a w)).
Proof.
  intros H0. unfold ChildAgent_executeTask.
  rewrite (bind_Ok (updateStatus E RUNNING) _ a w tt (res_updateStatus _ _ _)).
  rewrite self_updateStatus.
  rewrite (bind_Ok (modify _) _ _ _ tt eq_refl). cbn [self modify].
  match goal with
  | |- P (self (?m _ _)) =>
      assert (keeps P m) as Hk by repeat keeps_step; by apply Hk
  end.
Qed.

Lemma keeps_ChildAgent_executeTask task :
  keeps P (ChildAgent_executeTask E task).
Proof.
  intros a w Ha. by apply self_ChildAgent_executeTask, P_currentTask, P_status.
Qed.

Lemma keeps_terminate reason : keeps P (terminate E reason).
Proof.
  intros a w Ha. rewrite terminate_unfold. cbn zeta.
  destruct (each_child _ _ _) as [[r ch] w2].
  assert (P (set_children ch (self (updateStatus E TERMINATED a w)))) as H2.
  { rewrite self_updateStatus. by apply P_children, P_status. }
  destruct r; [| done].
  revert H2. generalize (set_children ch (self (updateStatus E TERMINATED a w))).
  intros a2 H2.
  assert (keeps P (with_monitor Monitor_stop;; saveState E)) as Hk
    by repeat keeps_step.
  by apply Hk.
Qed.

Lemma keeps_addChild c : keeps P (addChild E c).
Proof.
  intros a w Ha. unfold addChild.
  destruct (_ && _); [done |].
  destruct (new_ChildAgent E _ w) as [[child|e] w1]; [| done].
  assert (keeps P
    (modify (set_children (children_set (id child) child (children a)));;
     forget (saveState E);; mret (id child))) as Hk.
  { repeat keeps_step; by apply P_children. }
  by apply Hk.
Qed.

Lemma keeps_removeChild agentId : keeps P (removeChild E agentId).
Proof.
  intros a w Ha. unfold removeChild.
  destruct (children_get agentId (children a)); [| done].
  assert (keeps P
    (modify (set_children (children_delete agentId (children a)));;
     forget (saveState E);; mret true)) as Hk.
  { repeat keeps_step; by apply P_children. }
  by apply Hk.
Qed.

Lemma keeps_recreate : keeps P (recreate E).
Proof.
  unfold recreate.
  apply keeps_bind; [apply keeps_terminate |]. intros _.
  apply keeps_bind; [eauto with keeps |]. intros this.
  apply keeps_bind; [eauto with keeps |]. intros u.
  destruct (type this); repeat keeps_step.
Qed.

Lemma keeps_on_child {A} key (m : M A) : keeps P (on_child key m).
Proof.
  intros a w Ha. unfold on_child.
  destruct (children_get key (children a)); [| done].
  by apply P_children.
Qed.
Local Hint Resolve keeps_on_child : keeps.

Lemma keeps_dispatchTask subTask targetAgent :
  keeps P (dispatchTask E subTask targetAgent).
Proof.
  unfold dispatchTask, findAvailableChild.
  apply keeps_bind.
  - destruct targetAgent; repeat keeps_step.
  - intros [k|]; eauto with keeps.
Qed.
Local Hint Resolve keeps_dispatchTask : keeps.

Lemma keeps_acquireChild : keeps P (acquireChild E).
Proof.
  unfold acquireChild, findAvailableChild.
  apply keeps_bind; [repeat keeps_step |].
  intros [k|]; [eauto with keeps |].
  apply keeps_bind; [eauto with keeps |]. intros this.
  apply keeps_bind; [apply keeps_addChild |]. intros k.
  repeat keeps_step.
Qed.

Lemma keeps_processSubTask subTask results :
  keeps P (processSubTask E subTask results).
Proof.
  unfold processSubTask.
  apply keeps_bind; [apply keeps_acquireChild |]. intros k.
  apply keeps_bind; [eauto with keeps |]. intros r.
  apply keeps_bind; [eauto with keeps |]. intros st.
  repeat keeps_step; by apply P_children.
Qed.

Lemma keeps_processSubTasks subTasks results :
  keeps P (processSubTasks E subTasks results).
Proof.
  revert results. induction subTasks as [|t l IH]; intros results; simpl.
  - eauto with keeps.
  - apply keeps_bind; [apply keeps_processSubTask | intros; apply IH].
Qed.

Lemma keeps_decomposeTask task : keeps P (decomposeTask E task).
Proof.
  intros a w Ha. unfold decomposeTask. by destruct (decompose_from _ _ _ _ _ _).
Qed.

Lemma keeps_aggregateResults results : keeps P (aggregateResults results).
Proof. unfold aggregateResults. repeat keeps_step. Qed.

Lemma keeps_RootAgent_executeTask task :
  keeps P (RootAgent_executeTask E task).
Proof.
  unfold RootAgent_executeTask.
  apply keeps_bind; [eauto with keeps |]. intros _.
  apply keeps_bind; [apply keeps_modify; intros; by apply P_currentTask |].
  intros _. apply keeps_try_catch.
  - apply keeps_bind; [apply keeps_decomposeTask |]. intros ts.
    apply keeps_bind; [apply keeps_processSubTasks |]. intros rs.
    apply keeps_bind; [apply keeps_aggregateResults |]. intros r.
    repeat keeps_step.
  - intros e. repeat keeps_step.
Qed.

(** Every operation but [loadState] keeps such a property. *)
Lemma keeps_run_op op : is_loadState op = false → keeps P (run_op E op).
Proof.
  destruct op; simpl; intros Hop; try done.
  - apply keeps_bind; [apply keeps_get_this |]. intros this.
    destruct (type this);
      [apply keeps_RootAgent_initialize | apply keeps_ChildAgent_initialize].
  - apply keeps_bind; [apply keeps_get_this |]. intros this.
    destruct (type this); (apply keeps_bind; [| intros; apply keeps_ret]);
      [apply keeps_RootAgent_executeTask | apply keeps_ChildAgent_executeTask].
  - apply keeps_terminate.
  - apply keeps_bind; [apply keeps_addChild | intros; apply keeps_ret].
  - apply keeps_bind; [apply keeps_removeChild | intros; apply keeps_ret].
  - apply keeps_updateStatus.
  - apply keeps_reportResult.
  - apply keeps_addConversationEntry.
  - apply keeps_addExecutionLog.
  - apply keeps_updateTaskState.
  - apply keeps_setCustomData.
  - apply keeps_recordError.
  - apply keeps_bind; [apply keeps_recreate | intros; apply keeps_ret].
  - apply keeps_bind; [apply keeps_selfTest | intros; apply keeps_ret].
  - apply keeps_reportToParent.
  - apply keeps_bind; [apply keeps_dispatchTask | intros; apply keeps_ret].
Qed.

Lemma keeps_run_ops ops a w :
  forallb (fun op => negb (is_loadState op)) ops = true →
  P a → P (run_ops E ops a w).1.
Proof.
  revert a w. induction ops as [|op ops IH]; intros a w Hops Ha; [done |].
  simpl in *. apply andb_prop in Hops as [Hop Hops].
  apply IH; [done |]. apply keeps_run_op; [| done].
  by destruct (is_loadState op).
Qed.

(** [loadState] keeps it for the states that [ok] accepts. *)
Lemma keeps_run_ops_loadState (ok : IAgentState → Prop) ops a w :
  (∀ state, ok state → keeps P (loadState E state)) →
  Forall (fun op => ∀ state, op = OpLoadState state → ok state) ops →
  P a → P (run_ops E ops a w).1.
Proof.
  intros Hload Hops. revert a w.
  induction Hops as [|op ops Hop Hops IH]; intros a w Ha; [done |].
  simpl. apply IH.
  destruct (is_loadState op) eqn:His; [| by apply keeps_run_op].
  destruct op; try done. simpl. by apply (Hload state); [apply Hop |].
Qed.

End Frame.

(** ** The bounded error history *)

Lemma errorHistory_recordError E error a w :
  errorHistory (self (recordError E error a w)) = pushed error (errorHistory a).
Proof.
  unfold recordError, mbind, M_bind, bind, modify, get_this, with_monitor,
    forget. cbn. rewrite self_saveState. by destruct (monitor a).
Qed.

Lemma pushed_trailing error h :
  length h ≤ MAX_ERRORS → pushed error h = trailing MAX_ERRORS (h ++ [error]).
Proof.
  intros Hh. unfold pushed, trailing. cbn zeta.
  rewrite length_app. simpl.
  destruct (Nat.ltb_spec MAX_ERRORS (length h + 1)) as [Hlt|Hge].
  - replace (length h + 1 - MAX_ERRORS) with 1 by lia.
    by destruct (h ++ [error]).
  - by replace (length h + 1 - MAX_ERRORS) with 0 by lia.
Qed.

Lemma trailing_le {A} n (l : list A) : length (trailing n l) ≤ n.
Proof. unfold trailing. rewrite length_drop. lia. Qed.

Lemma trailing_app_trailing {A} n (l l' : list A) :
  trailing n (trailing n l ++ l') = trailing n (l ++ l').
Proof.
  unfold trailing.
  destruct (decide (length l ≤ n)) as [Hle|Hgt].
  - by replace (length l - n) with 0 by lia.
  - rewrite !length_app, length_drop.
    replace (length l - (length l - n) + length l' - n) with (length l') by lia.
    replace (length l + length l' - n) with ((length l - n) + length l') by lia.
    rewrite <- drop_drop. f_equal.
    rewrite drop_app_le by lia. done.
Qed.

Lemma hist_ok_pushed error a :
  hist_ok a →
  length
    (let h := errorHistory a ++ [error] in
     if MAX_ERRORS <? length h then tail h else h) ≤ MAX_ERRORS.
Proof.
  intros Ha. change (length (pushed error (errorHistory a)) ≤ MAX_ERRORS).
  rewrite pushed_trailing by done. apply trailing_le.
Qed.

Lemma errorHistory_recordErrors E errors a w :
  hist_ok a →
  errorHistory (run_ops E (map OpRecordError errors) a w).1
  = trailing MAX_ERRORS (errorHistory a ++ errors).
Proof.
  revert a w. induction errors as [|e es IH]; intros a w Ha;
    cbn [map list_fmap fmap run_ops fst];
    try change (run_op E (OpRecordError e)) with (recordError E e).
  - rewrite app_nil_r. unfold trailing.
    by replace (length (errorHistory a) - MAX_ERRORS) with 0 by (unfold hist_ok in Ha; lia).
  - rewrite IH.
    + rewrite errorHistory_recordError, pushed_trailing by done.
      rewrite trailing_app_trailing. by rewrite <- app_assoc.
    + unfold hist_ok. rewrite errorHistory_recordError.
      rewrite pushed_trailing by done. apply trailing_le.
Qed.

(** C8, as the specification states it, fails for [loadState]: it installs
    the history of the given state as it is, here 21 entries on a fresh
    worker, and a later [recordError] drops one entry for the one it adds,
    so the history stays at 21. *)
Lemma errorHistory_loadState_unbounded :
  ¬ (∀ (E : Env) (ops : list Op) (a : Agent) (w : World),
       hist_ok a → hist_ok (run_ops E ops a w).1)
  ∧ length
      (errorHistory
         (run_ops E_ok [OpLoadState loaded_state; OpRecordError "E"]
            sample_worker world0).1) = 21.
Proof.
  split; [| by vm_compute].
  intros H.
  specialize (H E_ok [OpLoadState loaded_state] sample_worker world0).
  unfold hist_ok in H. vm_compute in H.
  assert (0 ≤ 20) as H0 by lia. specialize (H H0). lia.
Qed.

(** C8 (amended): a node whose error history has at most 20 entries, as
    every freshly constructed node has, still has at most 20 after any
    sequence of operations in which [loadState] is given no state with more
    than 20 entries; [loadState] installs the history of the state it is
    given, as it is; after a sequence of [recordError] calls the history is
    the last 20 entries, in append order, of the old history followed by the
    recorded errors, so the 21st entry evicts the oldest. *)
Theorem errorHistory_bounded (E : Env) (ops : list Op) (errors : list string)
    (error : string) (state : IAgentState) (a : Agent) (w : World) :
  hist_ok a →
  forallb installs_bounded ops = true →
  hist_ok (run_ops E ops a w).1
  ∧ errorHistory (run_ops E (map OpRecordError errors) a w).1
    = trailing MAX_ERRORS (errorHistory a ++ errors)
  ∧ (length (errorHistory a) = MAX_ERRORS →
     errorHistory (self (recordError E error a w))
     = tail (errorHistory a) ++ [error])
  ∧ (length (errorHistory a) < MAX_ERRORS →
     errorHistory (self (recordError E error a w))
     = errorHistory a ++ [error])
  ∧ errorHistory (self (loadState E state a w)) = st_errorHistory state
  ∧ (∀ c w',
       errorHistory (new_RootAgent E c w').1 = []
       ∧ ∀ n, (new_ChildAgent E c w').1 = Ok n → errorHistory n = []).
Proof.
  intros Ha Hops. split.
  { apply keeps_run_ops_loadState
      with (ok := fun state => length (st_errorHistory state) ≤ MAX_ERRORS);
      try done.
    - apply hist_ok_pushed.
    - intros state' Hstate a' w' _. unfold hist_ok, loadState, mbind, M_bind,
        bind, modify. cbn. by rewrite self_saveState.
    - clear -Hops. induction ops as [|op ops IH]; constructor.
      + simpl in Hops. apply andb_prop in Hops as [Hop _].
        intros state' ->. by apply Nat.leb_le in Hop.
      + apply IH. simpl in Hops. by apply andb_prop in Hops as [_ ?]. }
  split; [by apply errorHistory_recordErrors |].
  split; [| split; [| split]].
  - intros Hlen. rewrite errorHistory_recordError. unfold pushed. cbn zeta.
    rewrite length_app, Hlen. simpl.
    destruct (errorHistory a); [done | by simpl].
  - intros Hlen. rewrite errorHistory_recordError. unfold pushed. cbn zeta.
    rewrite length_app. simpl.
    destruct (Nat.ltb_spec MAX_ERRORS (length (errorHistory a) + 1)); [lia | done].
  - unfold loadState, mbind, M_bind, bind, modify. cbn.
    by rewrite self_saveState.
  - intros c w'. split.
    + unfold new_RootAgent, new_Agent. cbn.
      by destruct (read (Cfg.id c)) as [s|]; [destruct (truthy_str s) |].
    + intros n. unfold new_ChildAgent, ChildAgent_super, new_Agent. cbn.
      destruct (read (Cfg.id c)) as [s|]; [destruct (truthy_str s) |];
        destruct (getLLMService E); cbn; by intros [= <-].
Qed.

Lemma errorHistory_bounded_witness :
  let ops :=
    replicate 25 (OpRecordError "E")
    ++ [OpLoadState full_state; OpRecordError "boom";
        OpExecuteTask sample_task; OpRecordError "boom"] in
  hist_ok (run_ops E_ok ops sample_worker world0).1
  ∧ length (errorHistory (run_ops E_ok ops sample_worker world0).1) = 20
  ∧ errorHistory
      (run_ops E_ok (map OpRecordError (replicate 21 "E" ++ ["last"]))
         sample_worker world0).1
    = replicate 19 "E" ++ ["last"].
Proof.
  cbn zeta.
  destruct (errorHistory_bounded E_ok
    (replicate 25 (OpRecordError "E")
     ++ [OpLoadState full_state; OpRecordError "boom";
         OpExecuteTask sample_task; OpRecordError "boom"])
    (replicate 21 "E" ++ ["last"]) "" full_state sample_worker world0)
    as (Hok & Hlast & _).
  - unfold hist_ok. vm_compute. lia.
  - by vm_compute.
  - split; [exact Hok |]. split; [by vm_compute |].
    rewrite Hlast. by vm_compute.
Defined.

(** ** Constructors and [addChild] *)

Lemma new_Agent_fields (E : Env) (c : IAgentConfig) (w : World) :
  let n := (new_Agent E c w).1 in
  id n = match read (Cfg.id c) with
         | Some s => if truthy_str s then s else uuid_of E (uuid_calls w)
         | None => uuid_of E (uuid_calls w)
         end
  ∧ name n = Cfg.name c ∧ type n = Cfg.type c
  ∧ parentId n = read (Cfg.parentId c)
  ∧ status n = IDLE ∧ children n = [] ∧ currentTask n = None
  ∧ context n = createEmptyContext ∧ config n = withDefaults c
  ∧ monitor n = (if truthy_obool (over (Some true) (Cfg.enableMonitor c))
                 then Some (mkMonitor false []) else None)
  ∧ errorCount n = 0 ∧ lastError n = None ∧ errorHistory n = [].
Proof.
  unfold new_Agent, uuidv4.
  destruct (read (Cfg.id c)) as [s|]; [destruct (truthy_str s) |]; cbn;
    by repeat split.
Qed.

Lemma children_get_set_eq k c m :
  children_get k (children_set k c m) = Some c.
Proof.
  induction m as [|[k' c'] m IH]; simpl.
  - by rewrite String.eqb_refl.
  - destruct (String.eqb k k') eqn:Hk; simpl; by rewrite Hk.
Qed.

Lemma children_get_set_ne k k' c m :
  k ≠ k' → children_get k' (children_set k c m) = children_get k' m.
Proof.
  intros Hne. induction m as [|[k0 c0] m IH]; simpl.
  - destruct (String.eqb_spec k' k); [congruence | done].
  - destruct (String.eqb_spec k k0) as [->|Hk]; simpl.
    + destruct (String.eqb_spec k' k0); [congruence | done].
    + destruct (String.eqb_spec k' k0); [done | apply IH].
Qed.

(** [new ChildAgent(config)] throws exactly when there is no LLM service,
    after [super(...)] has run. *)
Lemma new_ChildAgent_cases (E : Env) (c : IAgentConfig) (w : World) :
  new_ChildAgent E c w
  = (if llm_service E then Ok (ChildAgent_super E c w).1
     else
       Throw
         ("KIMI_API_KEY or KIMI_FOR_CODING_API_KEY is required. "
          +:+ "Please set it in environment variables."),
     (ChildAgent_super E c w).2).
Proof.
  unfold new_ChildAgent, getLLMService.
  destruct (ChildAgent_super E c w) as [n w1]. by destruct (llm_service E).
Qed.

(** C10, as the specification states it, fails in a process without LLM
    service: the constructor of [ChildAgent] calls [getLLMService()], which
    throws, so [addChild] raises on a root without children. *)
Lemma addChild_without_service :
  let c := sample_config "helper" CHILD Absent in
  let o := addChild E_no_llm c sample_root world0 in
  ¬ addChild_raises_as_specified E_no_llm c sample_root world0
  ∧ res o
    = Throw
        ("KIMI_API_KEY or KIMI_FOR_CODING_API_KEY is required. "
         +:+ "Please set it in environment variables.")
  ∧ type sample_root = ROOT
  ∧ children sample_root = []
  ∧ children (self o) = [].
Proof.
  cbn zeta. split; [| by vm_compute].
  intros [H _]. destruct H as [Ht _]; [by eexists; vm_compute |].
  by apply Ht.
Qed.

(** C10 (amended): [addChild] throws exactly when the node is not a root
    and already has a child, or when there is no LLM service for the new
    worker; it then leaves the node, its children map included, as it was
    (and in the first case the world too).  When it returns, the child it
    returns is in the children map under its own id, has type [child], and
    its [parentId] is the id of the node. *)
Theorem addChild_correct (E : Env) (c : IAgentConfig) (this : Agent)
    (w : World) :
  let o := addChild E c this w in
  ((∃ e, res o = Throw e)
   ↔ (type this ≠ ROOT ∧ 1 ≤ length (children this)) ∨ llm_service E = false)
  ∧ ((∃ e, res o = Throw e) → self o = this)
  ∧ (type this ≠ ROOT ∧ 1 ≤ length (children this) →
     res o = Throw "Only root agent can have multiple children" ∧ world o = w)
  ∧ (∀ k, res o = Ok k →
       ∃ child,
         children_get k (children (self o)) = Some child
         ∧ id child = k ∧ type child = CHILD
         ∧ parentId child = Some (id this)
         ∧ children_keys (children (self o))
           = children_keys (children_set k child (children this))).
Proof.
  cbn zeta. unfold addChild.
  destruct (bool_decide (type this ≠ ROOT) && (1 <=? length (children this)))
    eqn:Hguard.
  - apply andb_prop in Hguard as [Ht Hn].
    apply bool_decide_eq_true in Ht. apply Nat.leb_le in Hn.
    split; [split; [by left | eauto] |]. split; [done |].
    split; [done |]. by intros k.
  - assert (¬ (type this ≠ ROOT ∧ 1 ≤ length (children this))) as Hno.
    { intros [Ht Hn]. apply andb_false_iff in Hguard as [H|H].
      - by apply bool_decide_eq_false in H.
      - apply Nat.leb_gt in H. lia. }
    set (cc := Cfg.mk _ _ _ _ _ _ _ _ _ _).
    rewrite new_ChildAgent_cases.
    pose proof (new_Agent_fields E
      (Cfg.mk (Cfg.id cc) (Cfg.name cc) CHILD (Cfg.parentId cc)
         (Cfg.agentMdPath cc) (Cfg.maxRetries cc) (Cfg.timeout cc)
         (Cfg.enableMonitor cc) (Cfg.description cc)
         (Given (or_str (read (Cfg.template cc)) "ChildAgent"))) w) as Hf.
    cbn zeta in Hf. unfold ChildAgent_super.
    destruct (new_Agent E _ w) as [child w1]. cbn [fst snd] in *.
    destruct Hf as (_ & _ & Htype & Hparent & _).
    destruct (llm_service E).
    + unfold mbind, M_bind, bind, modify, forget, mret, M_ret, ret. cbn.
      rewrite self_saveState.
      split; [split; [by intros [e ?] | by intros [|]] |].
      split; [by intros [e ?] |]. split; [done |].
      intros k [= <-]. exists child. cbn.
      by rewrite children_get_set_eq.
    + cbn. split; [split; [by right | eauto] |].
      split; [done |]. split; [done |]. by intros k.
Qed.

(** ** The task view handed to the worker *)


(** ** Termination of a sub-tree *)

Lemma Agent_tree_ind (P : Agent → Prop) :
  (∀ a, Forall (fun kc => P kc.2) (children a) → P a) → ∀ a, P a.
Proof.
  intros H. fix IH 1. intros a. apply H.
  destruct a as [? ? ? ? ? ch ? ? ? ? ? ? ? ? ?]. simpl.
  induction ch as [|[k c] ch IHch]; constructor; [apply IH | apply IHch].
Qed.


Lemma all_terminated_terminated a : all_terminated (terminated a) = true.
Proof.
  induction a as [a IH] using Agent_tree_ind.
  destruct a as [? ? ? ? ? ch ? ? ? ? ? mon ? ? ?]. simpl in *.
  induction IH as [|[k c] l Hc Hl IHl]; [done |].
  simpl in *. rewrite Hc. simpl. apply IHl.
Qed.



(** Whenever [terminate] returns, the node it leaves is [terminated a], in
    every environment. *)
Lemma each_child_returned (E : Env) r l w :
  Forall (fun kc => ∀ reason w,
            res (terminate E reason kc.2 w) = Ok tt →
            self (terminate E reason kc.2 w) = terminated kc.2) l →
  (each_child (terminate E r) l w).1.1 = Ok tt →
  (each_child (terminate E r) l w).1.2
  = map (fun kc => (kc.1, terminated kc.2)) l.
Proof.
  intros Hl. revert w. induction Hl as [|[k c] l Hc Hl IH]; intros w; [done |].
  simpl in *. destruct (res (terminate E r c w)) as [[]|e] eqn:Hres; [| done].
  specialize (IH (world (terminate E r c w))).
  destruct (each_child _ l _) as [[r' l''] w']. simpl in *.
  intros Hr. by rewrite (Hc r w Hres), (IH Hr).
Qed.

Lemma terminate_returned (E : Env) a :
  ∀ reason w,
    res (terminate E reason a w) = Ok tt →
    self (terminate E reason a w) = terminated a.
Proof.
  induction a as [a IH] using Agent_tree_ind. intros reason w.
  rewrite terminate_unfold. cbn zeta. rewrite self_updateStatus.
  pose proof (each_child_returned E
                (Some ("Parent agent " +:+ id a +:+ " terminated: "
                       +:+ or_str reason "unknown"))
                (children a) (world (updateStatus E TERMINATED a w)) IH) as Hch.
  destruct (each_child _ _ _) as [[r ch] w2]. simpl in Hch.
  destruct r as [[]|e]; [| done]. intros _. rewrite (Hch eq_refl).
  unfold mbind, M_bind, bind, with_monitor, modify. cbn.
  rewrite self_saveState.
  destruct a as [? ? ? ? ? ch' ? ? ? ? ? mon ? ? ?]. by destruct mon.
Qed.



Section Reliable.

Variable E : Env.
Hypothesis Hfs : reliable E.

Lemma res_storage_write entry a w : res (storage_write E entry a w) = Ok tt.
Proof. unfold storage_write. by rewrite Hfs. Qed.

Lemma res_saveState a w : res (saveState E a w) = Ok tt.
Proof.
  unfold saveState, mbind, M_bind, bind, get_this. cbn.
  rewrite res_storage_write. apply res_storage_write.
Qed.

Lemma each_child_terminated r l w :
  Forall (fun kc => ∀ reason w,
            res (terminate E reason kc.2 w) = Ok tt
            ∧ self (terminate E reason kc.2 w) = terminated kc.2) l →
  ∃ w', each_child (terminate E r) l w
        = (Ok tt, map (fun kc => (kc.1, terminated kc.2)) l, w').
Proof.
  intros Hl. revert w. induction Hl as [|[k c] l Hc Hl IH]; intros w; simpl.
  - by eexists.
  - destruct (Hc r w) as [Hres Hself]. simpl in *. rewrite Hres, Hself.
    destruct (IH (world (terminate E r c w))) as [w' ->]. by eexists.
Qed.

Lemma terminate_reliable a :
  ∀ reason w,
    res (terminate E reason a w) = Ok tt
    ∧ self (terminate E reason a w) = terminated a.
Proof.
  induction a as [a IH] using Agent_tree_ind. intros reason w.
  rewrite terminate_unfold. cbn zeta.
  rewrite self_updateStatus.
  edestruct each_child_terminated as [w' ->]; [exact IH |].
  unfold mbind, M_bind, bind, with_monitor, modify. cbn.
  rewrite res_saveState, self_saveState.
  split; [done |].
  destruct a as [? ? ? ? ? ch ? ? ? ? ? mon ? ? ?]. by destruct mon.
Qed.

End Reliable.







(** ** Methods under a persistence gateway that fulfils every call *)

Lemma set_context_id a : set_context (context a) a = a.
Proof. by destruct a. Qed.

Ltac task_starts_tac :=
  unfold task_starts, logged;
  cbn [context executionLog set_context];
  rewrite ?filter_app, ?length_app, ?filter_cons, ?filter_nil;
  cbn; repeat case_decide; try done; cbn; lia.

Lemma task_starts_push action result c :
  task_starts
    (mkContext (conversationHistory c) (taskState c)
       (executionLog c ++ [mkLog action result]) (customData c))
  = if decide (action = "task_start") then S (task_starts c)
    else task_starts c.
Proof.
  unfold task_starts. cbn. rewrite filter_app, length_app.
  rewrite filter_cons, filter_nil. cbn.
  destruct (decide (action = "task_start")); simpl; lia.
Qed.

Lemma task_starts_logged action result a :
  task_starts (context (logged action result a))
  = if decide (action = "task_start") then S (task_starts (context a))
    else task_starts (context a).
Proof.
  unfold task_starts, logged. cbn. rewrite filter_app, length_app.
  rewrite filter_cons, filter_nil. cbn.
  destruct (decide (action = "task_start")); simpl; lia.
Qed.

Lemma wp_updateStatus (E : Env) (Q : unit → Agent → World → Prop) QE s a w :
  (∀ w', Q tt (set_status s a) w') → wp (updateStatus E s) Q QE a w.
Proof.
  intros HQ. unfold wp. rewrite res_updateStatus, self_updateStatus. apply HQ.
Qed.

Lemma wp_recordError (E : Env) (Q : unit → Agent → World → Prop) QE error a w :
  (∀ w', Q tt (recorded error a) w') → wp (recordError E error) Q QE a w.
Proof.
  intros HQ. unfold recordError.
  apply wp_bind, wp_modify, wp_bind, wp_get_this, wp_bind, wp_with_monitor.
  apply wp_forget. unfold wp.
  destruct (res (saveState E _ _)); rewrite self_saveState; apply HQ.
Qed.

Section Specs.

Variable E : Env.
Hypothesis Hfs : reliable E.

Lemma wp_storage_write_ok entry (Q : unit → Agent → World → Prop) QE a w :
  (∀ w', Q tt a w') → wp (storage_write E entry) Q QE a w.
Proof.
  intros HQ. unfold wp.
  rewrite res_storage_write, self_storage_write by done. apply HQ.
Qed.

Lemma wp_saveState_ok (Q : unit → Agent → World → Prop) QE a w :
  (∀ w', Q tt a w') → wp (saveState E) Q QE a w.
Proof.
  intros HQ. unfold wp. rewrite res_saveState, self_saveState by done. apply HQ.
Qed.

Lemma wp_addExecutionLog_ok action result (Q : unit → Agent → World → Prop)
    QE a w :
  (∀ w', Q tt (logged action result a) w') →
  wp (addExecutionLog E action result) Q QE a w.
Proof.
  intros HQ. unfold addExecutionLog.
  apply wp_bind, wp_modify, wp_bind, wp_get_this, wp_storage_write_ok, HQ.
Qed.

Lemma wp_reportResult_ok r (Q : unit → Agent → World → Prop) QE a w :
  (∀ w', Q tt a w') → wp (reportResult E r) Q QE a w.
Proof.
  intros HQ. unfold reportResult, notifyParent.
  apply wp_bind, wp_saveState_ok. intros w1. apply wp_bind, wp_get_this.
  destruct (truthy_ostr (parentId a)).
  - apply wp_bind, wp_get_this, wp_storage_write_ok, HQ.
  - apply wp_ret, HQ.
Qed.

Lemma wp_reportToParent_ok r (Q : unit → Agent → World → Prop) QE a w :
  (∀ c w', task_starts c = task_starts (context a) → Q tt (set_context c a) w') →
  wp (reportToParent E r) Q QE a w.
Proof.
  intros HQ. unfold reportToParent. apply wp_bind, wp_get_this.
  destruct (truthy_ostr (parentId a)); simpl.
  - apply wp_bind, wp_addExecutionLog_ok. intros w1.
    apply wp_reportResult_ok. intros w2. apply HQ. task_starts_tac.
  - apply wp_ret. rewrite <- (set_context_id a). by apply HQ.
Qed.

Lemma wp_Agent_initialize_ok (Q : unit → Agent → World → Prop) QE a w :
  (∀ w',
     Q tt (match monitor a with
           | Some m => set_monitor (Some (Monitor_start m)) (set_status IDLE a)
           | None => set_status IDLE a
           end) w') →
  wp (Agent_initialize E) Q QE a w.
Proof.
  intros HQ. unfold Agent_initialize.
  apply wp_bind, wp_storage_write_ok. intros w1.
  apply wp_bind, wp_updateStatus. intros w2.
  apply wp_bind, wp_saveState_ok. intros w3.
  apply wp_with_monitor. apply HQ.
Qed.

Lemma wp_RootAgent_initialize_ok (Q : unit → Agent → World → Prop) QE a w :
  (∀ w', Q tt (initialized a) w') → wp (RootAgent_initialize E) Q QE a w.
Proof.
  intros HQ. unfold RootAgent_initialize.
  apply wp_bind, wp_Agent_initialize_ok. intros w1.
  apply wp_updateStatus. intros w2. apply HQ.
Qed.

Lemma wp_ChildAgent_initialize_ok (Q : unit → Agent → World → Prop) QE a w :
  (∀ w', Q tt (initialized a) w') → wp (ChildAgent_initialize E) Q QE a w.
Proof.
  intros HQ. unfold ChildAgent_initialize.
  apply wp_bind, wp_Agent_initialize_ok. intros w1.
  set (a1 := match monitor a with Some _ => _ | None => _ end).
  apply wp_bind.
  assert (∀ (Q' : unit → Agent → World → Prop),
            (∀ w', Q' tt a1 w') →
            wp (try_catch (Agent_loadAgentMd E;; mret tt) (fun _ => mret tt))
              Q' QE a1 w1) as Hload.
  { intros Q' HQ'. apply wp_try_catch, wp_bind.
    unfold Agent_loadAgentMd. apply wp_bind, wp_get_this, wp_bind.
    unfold wp at 1, storage_loadAgentMd. rewrite Hfs. cbn.
    destruct (truthy_ostr (fs_agentMd E (template a1))).
    - apply wp_ret, wp_ret, HQ'.
    - apply wp_throw, wp_ret, HQ'. }
  apply Hload. intros w2. apply wp_updateStatus. intros w3. apply HQ.
Qed.

Lemma wp_terminate_ok reason (Q : unit → Agent → World → Prop) QE a w :
  (∀ w', Q tt (terminated a) w') → wp (terminate E reason) Q QE a w.
Proof.
  intros HQ. unfold wp.
  destruct (terminate_reliable E Hfs a reason w) as [-> ->]. apply HQ.
Qed.

Lemma wp_performTask_ok task (Q : JsVal → Agent → World → Prop) QE a w :
  (∀ out c w',
     task_starts c = task_starts (context a) → Q out (set_context c a) w') →
  (∀ e c w',
     task_starts c = task_starts (context a) → QE e (set_context c a) w') →
  wp (performTask E task) Q QE a w.
Proof.
  intros HQ HE. unfold performTask.
  apply wp_bind, wp_addExecutionLog_ok. intros w1.
  apply wp_try_catch, wp_bind, wp_llm_call.
  - intros x w2. apply wp_bind, wp_get_this, wp_bind, wp_addExecutionLog_ok.
    intros w3. apply wp_ret, HQ. task_starts_tac.
  - intros e w2. apply wp_bind, wp_addExecutionLog_ok. intros w3.
    apply wp_throw, HE. task_starts_tac.
Qed.

Lemma fallbackSelfTest_set_context c a :
  fallbackSelfTest (set_context c a) = fallbackSelfTest a.
Proof. done. Qed.

(** [selfTest] returns; with no current task it answers [false], otherwise
    the verdict of the oracle, or the fallback check when the oracle
    rejects. *)
Lemma wp_selfTest_ok (Q : bool → Agent → World → Prop) QE a w :
  (∀ c w',
     task_starts c = task_starts (context a) →
     Q (match currentTask a with
        | None => false
        | Some task =>
            match llm_selfTest E (llm_calls w) (Task.description task)
                    (lastOutput a) with
            | Ok v => passed v
            | Throw _ => fallbackSelfTest a
            end
        end) (set_context c a) w') →
  wp (selfTest E) Q QE a w.
Proof.
  intros HQ. unfold selfTest. apply wp_bind, wp_get_this.
  destruct (currentTask a) as [task|] eqn:Htask.
  - apply wp_try_catch, wp_bind. unfold wp at 1, llm_call. cbn.
    destruct (llm_selfTest E (llm_calls w) _ _) as [v|e].
    + apply wp_bind, wp_addExecutionLog_ok. intros w1. apply wp_ret, HQ.
      destruct (passed v); task_starts_tac.
    + apply wp_bind, wp_addExecutionLog_ok. intros w1.
      apply wp_bind, wp_get_this, wp_ret. refine (HQ _ w1 _).
      task_starts_tac.
  - apply wp_ret. rewrite <- (set_context_id a). by apply HQ.
Qed.

End Specs.

(** ** The worker *)

Lemma errorHistory_recorded error a :
  errorHistory (recorded error a) = pushed error (errorHistory a).
Proof. unfold recorded. cbn. by destruct (monitor a). Qed.

Lemma errorCount_recorded error a :
  errorCount (recorded error a) = S (errorCount a).
Proof. unfold recorded. cbn. by destruct (monitor a). Qed.

Lemma lastError_recorded error a : lastError (recorded error a) = Some error.
Proof. unfold recorded. cbn. by destruct (monitor a). Qed.

Lemma currentTask_recorded error a :
  currentTask (recorded error a) = currentTask a.
Proof. unfold recorded. cbn. by destruct (monitor a). Qed.

Lemma id_recorded error a : id (recorded error a) = id a.
Proof. unfold recorded. cbn. by destruct (monitor a). Qed.

Lemma context_recorded error a : context (recorded error a) = context a.
Proof. unfold recorded. cbn. by destruct (monitor a). Qed.

Section Worker.

Variable E : Env.
Hypothesis Hfs : reliable E.

Lemma selfTest_reliable a w :
  let o := selfTest E a w in
  res o
  = Ok (match currentTask a with
        | None => false
        | Some task =>
            match llm_selfTest E (llm_calls w) (Task.description task)
                    (lastOutput a) with
            | Ok v => passed v
            | Throw _ =>
                bool_decide (is_Some (currentTask a))
                && bool_decide (status a = RUNNING)
            end
        end)
  ∧ ∃ c, self o = set_context c a.
Proof.
  cbn zeta.
  pose proof (wp_selfTest_ok E Hfs
    (fun b a' _ =>
       b = match currentTask a with
           | None => false
           | Some task =>
               match llm_selfTest E (llm_calls w) (Task.description task)
                       (lastOutput a) with
               | Ok v => passed v
               | Throw _ => fallbackSelfTest a
               end
           end
       ∧ ∃ c, a' = set_context c a)
    (fun _ _ _ => False) a w) as H.
  apply returns_elim in H as (b & Hres & -> & Hself); [| by eauto].
  rewrite Hres. split; [| done].
  destruct (currentTask a) as [task|] eqn:Htask; [| done].
  destruct (llm_selfTest E _ _ _); [done |].
  unfold fallbackSelfTest, extractTestCases. rewrite Htask. simpl.
  by rewrite andb_true_r.
Qed.

Lemma executeTask_handler task a e s w :
  errorHistory s = errorHistory a → errorCount s = errorCount a →
  currentTask s = Some task → id s = id a →
  task_starts (context s) = S (task_starts (context a)) →
  returns
    (addExecutionLog E "error" ("Error: " +:+ e);;
     recordError E e;;
     this ← get_this;
     updateStatus E (if isInErrorLoop None this then ERROR_LOOP else FAILED);;
     let result := Result.mk (Task.id task) false JUndef (Some e) (Some false) in
     reportResult E result;;
     reportToParent E result;;
     mret result)
    (fun r a' _ => executed task a r a') s w.
Proof.
  intros Hh Hc Ht Hi Hs. unfold returns.
  apply wp_bind, wp_addExecutionLog_ok; [done |]. intros w1.
  apply wp_bind, wp_recordError. intros w2.
  apply wp_bind, wp_get_this.
  apply wp_bind, wp_updateStatus. intros w3.
  apply wp_bind, wp_reportResult_ok; [done |]. intros w4.
  apply wp_bind, wp_reportToParent_ok; [done |]. intros c w5 Hc5.
  apply wp_ret. unfold executed. cbn.
  cbn in Hc5. rewrite context_recorded, task_starts_logged in Hc5.
  rewrite decide_False in Hc5 by done.
  rewrite currentTask_recorded, id_recorded. cbn.
  split; [done |]. split; [done |]. split; [done |].
  split; [by rewrite Hc5 |].
  right. split; [done |]. split; [done |]. exists e.
  rewrite lastError_recorded, errorHistory_recorded, errorCount_recorded.
  cbn. rewrite Hh, Hc. by repeat split.
Qed.

(** With a persistence gateway that fulfils every call, the worker's
    [executeTask] returns a result for every task and every behaviour of the
    oracle: on success the status is [completed]; on failure the error is
    recorded and the status is [error_loop] when the last three errors are
    identical and [failed] otherwise. *)
Lemma ChildAgent_executeTask_reliable task a w :
  returns (ChildAgent_executeTask E task) (fun r a' _ => executed task a r a')
    a w.
Proof.
  unfold returns, ChildAgent_executeTask.
  apply wp_bind, wp_updateStatus. intros w1.
  apply wp_bind, wp_modify.
  apply wp_bind, wp_addExecutionLog_ok; [done |]. intros w2.
  set (s0 := logged "task_start" _ _).
  assert (task_starts (context s0) = S (task_starts (context a))) as Hs0.
  { unfold s0. rewrite task_starts_logged. by rewrite decide_True. }
  assert (errorHistory s0 = errorHistory a ∧ errorCount s0 = errorCount a
          ∧ currentTask s0 = Some task ∧ id s0 = id a) as (Hh0 & Hc0 & Ht0 & Hi0)
    by done.
  clearbody s0.
  apply wp_try_catch.
  assert (∀ e c w',
            task_starts c = task_starts (context s0) →
            wp
              ((λ errorMessage : string,
                  addExecutionLog E "error" ("Error: " +:+ errorMessage);;
                  recordError E errorMessage;;
                  this ← get_this;
                  updateStatus E
                    (if isInErrorLoop None this then ERROR_LOOP else FAILED);;
                  let result :=
                    Result.mk (Task.id task) false JUndef (Some errorMessage)
                      (Some false) in
                  reportResult E result;;
                  reportToParent E result;;
                  mret result) e)
              (fun r a' _ => executed task a r a') (fun _ _ _ => False)
              (set_context c s0) w')
    as Hhandler.
  { intros e c w' Hc. apply executeTask_handler; try done. cbn. congruence. }
  apply wp_bind. destruct (validateTaskContext task).
  - apply wp_ret, wp_bind, wp_performTask_ok; [done | |].
    + intros out c w3 Hc3.
      apply wp_bind, wp_addExecutionLog_ok; [done |]. intros w4.
      apply wp_bind, wp_selfTest_ok; [done |]. intros c' w5 Hc5.
      rewrite task_starts_logged, decide_False in Hc5 by done.
      cbn [context set_context] in Hc5.
      destruct (match currentTask _ with Some _ => _ | None => _ end).
      * apply wp_bind, wp_ret, wp_bind, wp_addExecutionLog_ok; [done |].
        intros w6. apply wp_bind, wp_updateStatus. intros w7.
        apply wp_bind, wp_reportResult_ok; [done |]. intros w8.
        apply wp_bind, wp_reportToParent_ok; [done |]. intros c'' w9 Hc9.
        apply wp_ret. unfold executed.
        cbn [context set_status] in Hc9.
        rewrite task_starts_logged, decide_False in Hc9 by done.
        cbn [context set_context] in Hc9. cbn.
        split; [done |]. split; [done |]. split; [done |].
        split; [congruence |]. left. by repeat split.
      * apply wp_bind, wp_throw. apply Hhandler. congruence.
    + intros e c w3 Hc3. by apply Hhandler.
  - apply wp_throw. rewrite <- (set_context_id s0). by apply Hhandler.
Qed.

End Worker.

(** ** Recreation *)

Lemma wp_fresh_uuid (E : Env) (Q : string → Agent → World → Prop) QE a w :
  (∀ w', Q (uuid_of E (uuid_calls w)) a w') → wp (fresh_uuid E) Q QE a w.
Proof. intros HQ. apply HQ. Qed.

Lemma wp_construct C c (Q : Agent → Agent → World → Prop) QE a w :
  (∀ n, (C c w).1 = Ok n → Q n a (C c w).2) →
  (∀ e, (C c w).1 = Throw e → QE e a (C c w).2) →
  wp (construct C c) Q QE a w.
Proof.
  intros HQ HE. unfold wp, construct.
  destruct (C c w) as [[n|e] w']; cbn; [by apply HQ | by apply HE].
Qed.


Lemma wp_call_on {A} target (m : M A) (Q : A * Agent → Agent → World → Prop)
    QE a w :
  wp m (fun x t' w' => Q (x, t') a w') (fun e _ w' => QE e a w') target w →
  wp (call_on target m) Q QE a w.
Proof. unfold wp, call_on. by destruct (res (m target w)). Qed.

Lemma truthy_str_nonempty s : s ≠ "" → truthy_str s = true.
Proof. unfold truthy_str. by destruct (String.eqb_spec s ""). Qed.

(** The calls that a method makes beside its persistence calls. *)
Lemma only_writes_refl w : only_writes w w.
Proof. done. Qed.

Lemma only_writes_trans w1 w2 w3 :
  only_writes w1 w2 → only_writes w2 w3 → only_writes w1 w3.
Proof. unfold only_writes. intros (? & ? & ?) (? & ? & ?). repeat split; congruence. Qed.

Lemma storage_write_only_writes E entry a w :
  only_writes w (world (storage_write E entry a w)).
Proof. unfold storage_write. by destruct (fs_ok E (fs_calls w)). Qed.

Lemma saveState_only_writes E a w : only_writes w (world (saveState E a w)).
Proof.
  unfold saveState, mbind, M_bind, bind, get_this. cbn.
  pose proof (storage_write_only_writes E
                (WAgentState (id a) (status a) None) a w) as H1.
  destruct (res (storage_write E _ a w)); [| done].
  apply (only_writes_trans _ _ _ H1), storage_write_only_writes.
Qed.

Lemma updateStatus_only_writes E s a w :
  only_writes w (world (updateStatus E s a w)).
Proof.
  unfold updateStatus, mbind, M_bind, bind, modify, forget. cbn.
  apply saveState_only_writes.
Qed.

Lemma each_child_only_writes (E : Env) r l w :
  Forall (fun kc => ∀ reason w,
            only_writes w (world (terminate E reason kc.2 w))) l →
  only_writes w (each_child (terminate E r) l w).2.
Proof.
  intros Hl. revert w. induction Hl as [|[k c] l Hc Hl IH]; intros w; [done |].
  simpl in *. pose proof (Hc r w) as H1.
  destruct (res (terminate E r c w)); [| done].
  specialize (IH (world (terminate E r c w))).
  destruct (each_child _ l _) as [[r' l''] w']. simpl in *.
  by apply (only_writes_trans _ _ _ H1).
Qed.

Lemma terminate_only_writes (E : Env) a :
  ∀ reason w, only_writes w (world (terminate E reason a w)).
Proof.
  induction a as [a IH] using Agent_tree_ind. intros reason w.
  rewrite terminate_unfold. cbn zeta.
  pose proof (updateStatus_only_writes E TERMINATED a w) as H1.
  pose proof (each_child_only_writes E
                (Some ("Parent agent " +:+ id a +:+ " terminated: "
                       +:+ or_str reason "unknown"))
                (children a) (world (updateStatus E TERMINATED a w)) IH) as H2.
  destruct (each_child _ _ _) as [[r ch] w2]. simpl in H2.
  pose proof (only_writes_trans _ _ _ H1 H2) as H3.
  destruct r; [| done].
  unfold mbind, M_bind, bind, with_monitor, modify. cbn.
  apply (only_writes_trans _ _ _ H3), saveState_only_writes.
Qed.

(** A constructor reads the world only for the next uuid. *)
Lemma new_Agent_world (E : Env) c w w' :
  uuid_calls w' = uuid_calls w → (new_Agent E c w').1 = (new_Agent E c w).1.
Proof.
  intros Hw. unfold new_Agent, uuidv4. rewrite Hw.
  by destruct (read (Cfg.id c)) as [x|]; [destruct (truthy_str x) |].
Qed.

Lemma rebuilt_world (E : Env) a w w' :
  uuid_calls w' = uuid_calls w → rebuilt E a w' = rebuilt E a w.
Proof.
  intros Hw. unfold rebuilt, uuidv4. rewrite Hw.
  destruct (type a); unfold new_RootAgent, ChildAgent_super;
    by apply new_Agent_world.
Qed.

Lemma recreated_rebuilt (E : Env) (a : Agent) (w : World) :
  uuid_of E (uuid_calls w) ≠ "" →
  recreated (type a) (config a) (uuid_of E (uuid_calls w))
    (initialized (rebuilt E a w)).
Proof.
  intros Hu. apply truthy_str_nonempty in Hu.
  unfold rebuilt, uuidv4.
  destruct (type a);
    unfold recreated, initialized, new_RootAgent, ChildAgent_super, new_Agent;
    cbn; rewrite Hu; cbn; destruct (Conf.parentId (config a));
    by repeat split.
Qed.

(** The new node starts with an empty context and without errors, whatever
    [uuidv4] gives. *)
Lemma rebuilt_fresh (E : Env) (a : Agent) (w : World) :
  context (initialized (rebuilt E a w)) = createEmptyContext
  ∧ errorHistory (initialized (rebuilt E a w)) = []
  ∧ status (initialized (rebuilt E a w)) = IDLE
  ∧ type (initialized (rebuilt E a w)) = type a.
Proof.
  unfold rebuilt, uuidv4.
  destruct (type a);
    unfold initialized, new_RootAgent, ChildAgent_super, new_Agent; cbn;
    by destruct (truthy_str (uuid_of E (uuid_calls w))).
Qed.

(** *** Whatever the persistence gateway does

    The same methods in an arbitrary environment: a rejected call may make
    them raise, and when they return they leave what they leave under a
    gateway that fulfils every call. *)

Section Fallible.

Variable E : Env.
Variable QE : string → Agent → World → Prop.
Hypothesis HE : ∀ e a w, QE e a w.

Lemma wp_storage_write_any entry (Q : unit → Agent → World → Prop) a w :
  (∀ w', Q tt a w') → wp (storage_write E entry) Q QE a w.
Proof.
  intros HQ. unfold wp, storage_write.
  destruct (fs_ok E (fs_calls w)); cbn; [apply HQ | apply HE].
Qed.

Lemma wp_saveState_any (Q : unit → Agent → World → Prop) a w :
  (∀ w', Q tt a w') → wp (saveState E) Q QE a w.
Proof.
  intros HQ. unfold saveState. apply wp_bind, wp_get_this.
  apply wp_bind, wp_storage_write_any. intros w1.
  apply wp_storage_write_any, HQ.
Qed.

Lemma wp_Agent_initialize_any (Q : unit → Agent → World → Prop) a w :
  (∀ w',
     Q tt (match monitor a with
           | Some m => set_monitor (Some (Monitor_start m)) (set_status IDLE a)
           | None => set_status IDLE a
           end) w') →
  wp (Agent_initialize E) Q QE a w.
Proof.
  intros HQ. unfold Agent_initialize.
  apply wp_bind, wp_storage_write_any. intros w1.
  apply wp_bind, wp_updateStatus. intros w2.
  apply wp_bind, wp_saveState_any. intros w3.
  apply wp_with_monitor. apply HQ.
Qed.

Lemma wp_RootAgent_initialize_any (Q : unit → Agent → World → Prop) a w :
  (∀ w', Q tt (initialized a) w') → wp (RootAgent_initialize E) Q QE a w.
Proof.
  intros HQ. unfold RootAgent_initialize.
  apply wp_bind, wp_Agent_initialize_any. intros w1.
  apply wp_updateStatus. intros w2. apply HQ.
Qed.

Lemma wp_ChildAgent_initialize_any (Q : unit → Agent → World → Prop) a w :
  (∀ w', Q tt (initialized a) w') → wp (ChildAgent_initialize E) Q QE a w.
Proof.
  intros HQ. unfold ChildAgent_initialize.
  apply wp_bind, wp_Agent_initialize_any. intros w1.
  set (a1 := match monitor a with Some _ => _ | None => _ end).
  apply wp_bind, wp_try_catch, wp_bind.
  unfold Agent_loadAgentMd. apply wp_bind, wp_get_this, wp_bind.
  assert (∀ w', wp (updateStatus E IDLE) Q QE a1 w') as Hrest.
  { intros w'. apply wp_updateStatus. intros w3. apply HQ. }
  unfold wp at 1, storage_loadAgentMd.
  destruct (fs_ok E (fs_calls w1)); cbn.
  - destruct (truthy_ostr (fs_agentMd E (template a1))).
    + apply wp_ret, wp_ret, Hrest.
    + apply wp_throw, wp_ret, Hrest.
  - apply Hrest.
Qed.

Lemma wp_terminate_any reason (Q : unit → Agent → World → Prop) a w :
  (∀ w', Q tt (terminated a) w') → wp (terminate E reason) Q QE a w.
Proof.
  intros HQ. unfold wp.
  destruct (res (terminate E reason a w)) as [[]|e] eqn:Hres; [| apply HE].
  rewrite (terminate_returned E a reason w Hres). apply HQ.
Qed.

End Fallible.

(** Whenever [recreate] returns, in any environment, the old node is
    terminated and the node returned is the one that the constructor of its
    class builds, initialized; a worker is returned only where there is an
    LLM service. *)
Lemma recreate_returned (E : Env) (a : Agent) (w : World) :
  wp (recreate E)
    (fun n a' _ =>
       a' = terminated a ∧ n = initialized (rebuilt E a w)
       ∧ (type a = CHILD → llm_service E = true))
    (fun _ _ _ => True) a w.
Proof.
  unfold recreate.
  apply wp_bind. unfold wp at 1.
  pose proof (terminate_only_writes E a (Some recreate_reason) w)
    as (Hu1 & _ & _).
  destruct (res (terminate E (Some recreate_reason) a w)) as [[]|e] eqn:Hres;
    [| done].
  rewrite (terminate_returned E a _ w Hres).
  set (w1 := world (terminate E (Some recreate_reason) a w)) in *.
  apply wp_bind, wp_get_this, wp_bind. unfold wp at 1, fresh_uuid, uuidv4.
  cbn [res self world].
  replace (type (terminated a)) with (type a) by by destruct a.
  replace (config (terminated a)) with (config a) by by destruct a.
  rewrite <- (rebuilt_world E a w w1 Hu1).
  unfold rebuilt, uuidv4.
  destruct (type a) eqn:Htype.
  - apply wp_bind, wp_construct; [| done]. intros n [= <-].
    apply wp_bind, wp_call_on, wp_RootAgent_initialize_any; [done |].
    intros w4. by apply wp_ret.
  - apply wp_bind, wp_construct; [| done]. rewrite new_ChildAgent_cases.
    cbn [fst snd]. destruct (llm_service E); [| done]. intros n [= <-].
    apply wp_bind, wp_call_on, wp_ChildAgent_initialize_any; [done |].
    intros w4. by apply wp_ret.
Qed.

(** [recreate] returns when the persistence gateway fulfils every call and,
    for a worker, there is an LLM service. *)
Lemma recreate_returns (E : Env) (a : Agent) (w : World) :
  reliable E →
  (type a = CHILD → llm_service E = true) →
  returns (recreate E)
    (fun n a' _ => a' = terminated a ∧ n = initialized (rebuilt E a w)) a w.
Proof.
  intros Hfs Hllm. unfold returns, recreate.
  apply wp_bind. unfold wp at 1.
  pose proof (terminate_only_writes E a (Some recreate_reason) w)
    as (Hu1 & _ & _).
  destruct (terminate_reliable E Hfs a (Some recreate_reason) w) as [-> ->].
  set (w1 := world (terminate E (Some recreate_reason) a w)) in *.
  apply wp_bind, wp_get_this, wp_bind. unfold wp at 1, fresh_uuid, uuidv4.
  cbn [res self world].
  replace (type (terminated a)) with (type a) by by destruct a.
  replace (config (terminated a)) with (config a) by by destruct a.
  rewrite <- (rebuilt_world E a w w1 Hu1).
  unfold rebuilt, uuidv4.
  destruct (type a) eqn:Htype.
  - apply wp_bind, wp_construct; [| done]. intros n [= <-].
    apply wp_bind, wp_call_on, wp_RootAgent_initialize_ok; [done |].
    intros w4. by apply wp_ret.
  - apply wp_bind, wp_construct; rewrite new_ChildAgent_cases;
      cbn [fst snd]; rewrite Hllm by done; [| done]. intros n [= <-].
    apply wp_bind, wp_call_on, wp_ChildAgent_initialize_ok; [done |].
    intros w4. by apply wp_ret.
Qed.





(** ** Rejected persistence calls reach the caller of the worker *)

(** C5 fails on the code: the write of the [task_start] entry is awaited
    before the [try], and the catch block awaits its own writes.  With a
    gateway that rejects every call the worker's [executeTask] throws at the
    first entry; with a self-test that fails and a gateway that rejects the
    eighth call it throws inside the catch block.  Both times no error is
    recorded, no result is built and the status stays [running]. *)
Theorem ChildAgent_executeTask_raises :
  (let o := ChildAgent_executeTask E_disk_full sample_task sample_worker world0 in
   res o = Throw "storage failure"
   ∧ status (self o) = RUNNING ∧ errorHistory (self o) = [])
  ∧ (let o :=
       ChildAgent_executeTask E_handler_write_rejected sample_task
         sample_worker world0 in
     res o = Throw "storage failure"
     ∧ status (self o) = RUNNING ∧ errorHistory (self o) = []
     ∧ last (executionLog (context (self o)))
       = Some (mkLog "error" "Error: Self-test failed")).
Proof. by vm_compute. Qed.

(** C9 fails on the code: the catch block of [selfTest] awaits the write of
    the [self_test_error] entry before it runs the fallback check, so with an
    oracle that rejects and a gateway that rejects the write, [selfTest]
    throws; the fallback would have answered [true]. *)
Theorem selfTest_raises :
  res (selfTest (sample_env (fun _ => false) oracle_down) running_worker world0)
  = Throw "storage failure"
  ∧ fallbackSelfTest running_worker = true
  ∧ res (selfTest (sample_env (fun _ => true) oracle_down) running_worker world0)
    = Ok true.
Proof. by vm_compute. Qed.

(** ** The coordinator *)

Lemma children_set_get_id k c m :
  children_get k m = Some c → children_set k c m = m.
Proof.
  induction m as [|[k' c'] m IH]; simpl; [done |].
  destruct (String.eqb k k') eqn:Hk.
  - by intros [= ->].
  - intros H. by rewrite IH.
Qed.

Lemma wp_on_child {A} k (m : M A) (Q : A → Agent → World → Prop) QE a w c :
  children_get k (children a) = Some c →
  wp m
    (fun x c' w' => Q x (set_children (children_set k c' (children a)) a) w')
    (fun e c' w' => QE e (set_children (children_set k c' (children a)) a) w')
    c w →
  wp (on_child k m) Q QE a w.
Proof.
  intros Hc. unfold wp, on_child. rewrite Hc. cbn.
  by destruct (res (m c w)).
Qed.

Lemma set_last_app {A} (x y : A) (l : list A) : set_last x (l ++ [y]) = l ++ [x].
Proof.
  unfold set_last. rewrite length_app. simpl.
  replace (length l + 1 - 1) with (length l + 0) by lia.
  by rewrite insert_app_r.
Qed.

(** C3, as the specification states it, fails on two points.  The code only
    calls [children.set(newAgent.id, newAgent)], so the entry of the old node
    stays, terminated, next to the one of its replacement.  And [recreate()]
    is awaited without a [catch] in the loop: when a write that it awaits is
    rejected, the loop ends with that error, no replacement is put into the
    map and the sub-task is not dispatched again (no further oracle call).
    The entry of the old node goes only when [uuidv4] answers the id of the
    old node: the replacement then takes its key. *)
Lemma recreate_keeps_old_entry :
  ¬ removes_old_entry E_fail_once
  ∧ (let o := processSubTask E_fail_once sample_subTask [] root_with_worker world0 in
     map (fun kc => (kc.1, status kc.2)) (children (self o))
     = [("worker-1", TERMINATED); ("uuid-0", COMPLETED)])
  ∧ (let o2 :=
       dispatchTask E_recreate_rejected sample_subTask (Some "worker-1")
         root_with_worker world0 in
     let o :=
       processSubTask E_recreate_rejected sample_subTask [] root_with_worker
         world0 in
     (Result.success <$> res_value (res o2)) = Some false
     ∧ (status <$> children_get "worker-1" (children (self o2)))
       = Some ERROR_LOOP
     ∧ res o = Throw "storage failure"
     ∧ map (fun kc => (kc.1, status kc.2)) (children (self o))
       = [("worker-1", TERMINATED)]
     ∧ llm_calls (world o) = llm_calls (world o2))
  ∧ (let o :=
       processSubTask E_fail_once_uuid_repeats sample_subTask []
         root_with_worker world0 in
     (map Result.success <$> res_value (res o)) = Some [true]
     ∧ map (fun kc => (kc.1, status kc.2)) (children (self o))
       = [("worker-1", COMPLETED)]).
Proof.
  split; [| split; [| split]; by vm_compute].
  intros H.
  specialize (H sample_subTask [] root_with_worker world0 "worker-1"
    (Result.mk "sub-1" false JUndef (Some "Self-test failed") (Some false))
    (set_status ERROR_LOOP
       (self (ChildAgent_executeTask E_fail_once (isolatedTask sample_subTask)
                tired_worker world0)))).
  cbn zeta in H.
  assert (children_get "worker-1"
            (children (self (processSubTask E_fail_once sample_subTask []
                               root_with_worker world0))) ≠ None) as Hsome
    by by vm_compute.
  apply Hsome, H; by vm_compute.
Qed.

(** *** One [task_start] entry per call, whatever the gateway does *)

Lemma bind_Throw {A B} (m : M A) (k : A → M B) a w e :
  res (m a w) = Throw e →
  (m ≫= k) a w = mkOut (Throw e) (self (m a w)) (world (m a w)).
Proof. intros H. unfold mbind, M_bind, bind. by rewrite H. Qed.

Lemma on_child_eq {A} k (m : M A) a w c :
  children_get k (children a) = Some c →
  on_child k m a w
  = mkOut (res (m c w))
      (set_children (children_set k (self (m c w)) (children a)) a)
      (world (m c w)).
Proof. intros H. unfold on_child. by rewrite H. Qed.

Section Log.

Variable E : Env.
Variable n : nat.

Lemma started_storage_write entry : keeps (started n) (storage_write E entry).
Proof. intros a w Ha. by rewrite self_storage_write. Qed.

Lemma started_saveState : keeps (started n) (saveState E).
Proof. intros a w Ha. by rewrite self_saveState. Qed.

Lemma started_updateStatus s : keeps (started n) (updateStatus E s).
Proof. intros a w Ha. by rewrite self_updateStatus. Qed.

Lemma started_addExecutionLog action result :
  action ≠ "task_start" → keeps (started n) (addExecutionLog E action result).
Proof.
  intros Hne a w Ha. unfold addExecutionLog.
  apply (keeps_bind (started n)); [| intros _; apply keeps_bind;
    [apply keeps_get_this | intros; apply started_storage_write] | done].
  apply keeps_modify. intros a0 Ha0. unfold started in *. cbn -[task_starts].
  rewrite task_starts_push. by rewrite decide_False.
Qed.

Lemma started_reportResult r : keeps (started n) (reportResult E r).
Proof.
  unfold reportResult, notifyParent.
  apply keeps_bind; [apply started_saveState |]. intros _.
  apply keeps_bind; [apply keeps_get_this |]. intros this.
  apply keeps_if; [| apply keeps_ret].
  apply keeps_bind; [apply keeps_get_this |]. intros.
  apply started_storage_write.
Qed.

Lemma started_reportToParent r : keeps (started n) (reportToParent E r).
Proof.
  unfold reportToParent.
  apply keeps_bind; [apply keeps_get_this |]. intros this.
  apply keeps_if; [apply keeps_ret |].
  apply keeps_bind; [by apply started_addExecutionLog |]. intros _.
  apply started_reportResult.
Qed.

Lemma started_recordError error : keeps (started n) (recordError E error).
Proof.
  unfold recordError.
  apply keeps_bind; [by apply keeps_modify |]. intros _.
  apply keeps_bind; [apply keeps_get_this |]. intros this.
  apply keeps_bind.
  - apply keeps_modify. intros a Ha. by destruct (monitor a).
  - intros _. apply keeps_forget, started_saveState.
Qed.

Lemma started_performTask task : keeps (started n) (performTask E task).
Proof.
  unfold performTask.
  apply keeps_bind; [by apply started_addExecutionLog |]. intros _.
  apply keeps_try_catch.
  - apply keeps_bind; [apply keeps_llm_call |]. intros r.
    apply keeps_bind; [apply keeps_get_this |]. intros this.
    apply keeps_bind; [by apply started_addExecutionLog |]. intros _.
    apply keeps_ret.
  - intros e. apply keeps_bind; [by apply started_addExecutionLog |].
    intros _. apply keeps_throw.
Qed.

Lemma started_selfTest : keeps (started n) (selfTest E).
Proof.
  unfold selfTest.
  apply keeps_bind; [apply keeps_get_this |]. intros this.
  destruct (currentTask this); [| apply keeps_ret].
  apply keeps_try_catch.
  - apply keeps_bind; [apply keeps_llm_call |]. intros v.
    apply keeps_bind; [| intros; apply keeps_ret].
    destruct (passed v); by apply started_addExecutionLog.
  - intros e. apply keeps_bind; [by apply started_addExecutionLog |].
    intros _. apply keeps_bind; [apply keeps_get_this |]. intros.
    apply keeps_ret.
Qed.

End Log.

Lemma self_addExecutionLog (E : Env) action result a w :
  self (addExecutionLog E action result a w) = logged action result a.
Proof.
  unfold addExecutionLog, mbind, M_bind, bind, modify, get_this. cbn.
  by rewrite self_storage_write.
Qed.

Lemma self_bind {A B} (P : Agent → Prop) (m : M A) (k : A → M B) a w :
  P (self (m a w)) → (∀ x, keeps P (k x)) → P (self ((m ≫= k) a w)).
Proof.
  intros Hm Hk. unfold mbind, M_bind, bind.
  destruct (res (m a w)); [by apply Hk | done].
Qed.

(** [executeTask] logs one [task_start] entry, also when it raises. *)
Lemma ChildAgent_executeTask_started (E : Env) task a w :
  task_starts (context (self (ChildAgent_executeTask E task a w)))
  = S (task_starts (context a)).
Proof.
  set (n := S (task_starts (context a))).
  change (started n (self (ChildAgent_executeTask E task a w))).
  unfold ChildAgent_executeTask.
  rewrite (bind_Ok (updateStatus E RUNNING) _ a w tt (res_updateStatus _ _ _ _)).
  rewrite self_updateStatus.
  rewrite (bind_Ok (modify _) _ _ _ tt eq_refl). cbn [self modify world].
  apply self_bind.
  - rewrite self_addExecutionLog. unfold started, n.
    rewrite task_starts_logged. by rewrite decide_True.
  - intros _. apply keeps_try_catch.
    + apply keeps_bind; [apply keeps_if; [apply keeps_ret | apply keeps_throw] |].
      intros _.
      apply keeps_bind; [apply started_performTask |]. intros out.
      apply keeps_bind; [by apply started_addExecutionLog |]. intros _.
      apply keeps_bind; [apply started_selfTest |]. intros b.
      apply keeps_bind; [apply keeps_if; [apply keeps_ret | apply keeps_throw] |].
      intros _.
      apply keeps_bind; [by apply started_addExecutionLog |]. intros _.
      apply keeps_bind; [apply started_updateStatus |]. intros _.
      apply keeps_bind; [apply started_reportResult |]. intros _.
      apply keeps_bind; [apply started_reportToParent |]. intros _.
      apply keeps_ret.
    + intros e.
      apply keeps_bind; [by apply started_addExecutionLog |]. intros _.
      apply keeps_bind; [apply started_recordError |]. intros _.
      apply keeps_bind; [apply keeps_get_this |]. intros this.
      apply keeps_bind; [apply started_updateStatus |]. intros _.
      apply keeps_bind; [apply started_reportResult |]. intros _.
      apply keeps_bind; [apply started_reportToParent |]. intros _.
      apply keeps_ret.
Qed.

(** C3 (amended): when the result of a sub-task is unsuccessful and the
    worker it was dispatched to is in [error_loop], the coordinator calls
    [recreate()] on that worker.  When [recreate()] raises, the loop ends
    with its error: nothing is added to the children map and the sub-task is
    not dispatched again.  When [recreate()] returns, the coordinator puts
    the node returned into the children map under its id (the entry of the
    old node stays, with the old node terminated, the new id being another
    key), dispatches the same sub-task exactly once to the replacement, and
    the result of the retry takes the place of the failed result at the end
    of the collected list, unless the retry raises.  [recreate()] and the
    retry return when the persistence gateway fulfils every call and there
    is an LLM service. *)
Theorem processSubTask_recreates (E : Env) (subTask : ITask)
    (subTaskResults : list ITaskResult) (this : Agent) (w : World)
    (targetAgent : string) (result : ITaskResult) (worker : Agent) :
  let o1 := acquireChild E this w in
  let o2 := dispatchTask E subTask (Some targetAgent) (self o1) (world o1) in
  res o1 = Ok targetAgent → res o2 = Ok result →
  Result.success result = false →
  children_get targetAgent (children (self o2)) = Some worker →
  status worker = ERROR_LOOP → type worker = CHILD →
  let o := processSubTask E subTask subTaskResults this w in
  let o3 := recreate E worker (world o2) in
  (∀ e, res o3 = Throw e →
     res o = Throw e
     ∧ children (self o)
       = children_set targetAgent (self o3) (children (self o2)))
  ∧ (∀ fresh, res o3 = Ok fresh →
       let o5 :=
         ChildAgent_executeTask E (isolatedTask subTask) fresh (world o3) in
       res o
       = match res o5 with
         | Ok retryResult => Ok (subTaskResults ++ [retryResult])
         | Throw e => Throw e
         end
       ∧ children_get (id fresh) (children (self o)) = Some (self o5)
       ∧ status fresh = IDLE
       ∧ currentTask (self o5) = Some (isolatedTask subTask)
       ∧ task_starts (context (self o5)) = 1
       ∧ (id fresh ≠ targetAgent →
          children_get targetAgent (children (self o))
          = Some (terminated worker)
          ∧ status (terminated worker) = TERMINATED))
  ∧ (reliable E → llm_service E = true →
     uuid_of E (uuid_calls (world o2)) ≠ "" →
     ∃ fresh retryResult replacement,
       res o3 = Ok fresh
       ∧ res o = Ok (subTaskResults ++ [retryResult])
       ∧ recreated CHILD (config worker) (uuid_of E (uuid_calls (world o2)))
           fresh
       ∧ children_get (id fresh) (children (self o)) = Some replacement
       ∧ executed (isolatedTask subTask) fresh retryResult replacement).
Proof.
  intros o1 o2 Hres1 Hres2 Hfail Hworker Hstatus Htype. cbn zeta.
  unfold processSubTask.
  rewrite (bind_Ok (acquireChild E) _ this w targetAgent Hres1). fold o1.
  rewrite (bind_Ok (dispatchTask E subTask (Some targetAgent)) _ (self o1)
             (world o1) result Hres2). fold o2.
  revert Hworker. generalize (self o2) (world o2). clear o1 o2 Hres1 Hres2.
  intros a2 w2 Hworker.
  assert (set_children (children_set targetAgent worker (children a2)) a2 = a2)
    as Hsame.
  { rewrite (children_set_get_id _ _ _ Hworker). by destruct a2. }
  rewrite (bind_Ok (on_child targetAgent (c ← get_this; mret (status c))) _
             a2 w2 (status worker))
    by (by rewrite (on_child_eq _ _ _ _ worker Hworker)).
  rewrite (on_child_eq _ _ _ _ worker Hworker).
  cbn [self world].
  change (self ((get_this ≫= λ c : Agent, mret (status c)) worker w2))
    with worker.
  change (world ((get_this ≫= λ c : Agent, mret (status c)) worker w2))
    with w2.
  rewrite Hsame, Hfail, Hstatus, bool_decide_eq_true_2 by done.
  cbn [negb andb].
  set (o3 := recreate E worker w2).
  pose proof (on_child_eq targetAgent (recreate E) a2 w2 worker Hworker) as Hon.
  fold o3 in Hon.
  set (a3 := set_children (children_set targetAgent (self o3) (children a2)) a2)
    in *.
  assert (∀ fresh, res o3 = Ok fresh →
            let o5 :=
              ChildAgent_executeTask E (isolatedTask subTask) fresh (world o3) in
            let o :=
              (newAgent ← on_child targetAgent (recreate E);
               modify (fun this =>
                 set_children
                   (children_set (id newAgent) newAgent (children this)) this);;
               retryResult ← dispatchTask E subTask (Some (id newAgent));
               mret (set_last retryResult (subTaskResults ++ [result])))
                a2 w2 in
            res o
            = match res o5 with
              | Ok retryResult => Ok (subTaskResults ++ [retryResult])
              | Throw e => Throw e
              end
            ∧ children (self o)
              = children_set (id fresh) (self o5)
                  (children_set (id fresh) fresh (children a3))) as Hretry.
  { intros fresh Hres3. cbn zeta.
    rewrite (bind_Ok (on_child targetAgent (recreate E)) _ a2 w2 fresh)
      by (by rewrite Hon).
    rewrite Hon. cbn [self world].
    rewrite (bind_Ok (modify _) _ _ _ tt eq_refl). cbn [self world modify].
    change (dispatchTask E subTask (Some (id fresh)))
      with (on_child (id fresh)
              (ChildAgent_executeTask E (isolatedTask subTask))).
    set (a4 := set_children (children_set (id fresh) fresh (children a3)) a3).
    assert (children_get (id fresh) (children a4) = Some fresh) as Hget
      by apply children_get_set_eq.
    pose proof (on_child_eq (id fresh)
                  (ChildAgent_executeTask E (isolatedTask subTask)) a4
                  (world o3) fresh Hget) as Hon5.
    unfold mbind, M_bind, bind. rewrite Hon5. cbn [res self world].
    destruct (res (ChildAgent_executeTask E (isolatedTask subTask) fresh
                     (world o3))) as [retryResult|e]; cbn.
    - by rewrite set_last_app.
    - done. }
  split; [| split].
  - intros e Hres3.
    rewrite (bind_Throw (on_child targetAgent (recreate E)) _ a2 w2 e)
      by (by rewrite Hon).
    rewrite Hon. done.
  - intros fresh Hres3. cbn zeta.
    destruct (Hretry fresh Hres3) as [Hres Hch]. cbn zeta in Hres, Hch.
    pose proof (recreate_returned E worker w2) as Hrec.
    apply (wp_elim _ _ _ _ _ fresh) in Hrec; [| done].
    destruct Hrec as (Hself & Hfresh & _). fold o3 in Hself.
    destruct (rebuilt_fresh E worker w2) as (Hctx & _ & Hidle & _).
    rewrite <- Hfresh in Hctx, Hidle.
    split; [done |]. rewrite Hch.
    split; [apply children_get_set_eq |]. split; [done |].
    split.
    { apply (self_ChildAgent_executeTask E
               (fun a => currentTask a = Some (isolatedTask subTask))); done. }
    split.
    { rewrite ChildAgent_executeTask_started. by rewrite Hctx. }
    intros Hne. rewrite !children_get_set_ne by done.
    unfold a3. cbn [children set_children]. rewrite children_get_set_eq.
    rewrite Hself. split; [done | by destruct worker].
  - intros Hfs Hllm Hu.
    pose proof (recreate_returns E worker w2 Hfs (fun _ => Hllm)) as Hrec.
    apply returns_elim in Hrec as (fresh & Hres3 & _ & Hfresh).
    fold o3 in Hres3.
    destruct (Hretry fresh Hres3) as [Hres Hch]. cbn zeta in Hres, Hch.
    pose proof (ChildAgent_executeTask_reliable E Hfs (isolatedTask subTask)
                  fresh (world o3)) as Hexec.
    apply returns_elim in Hexec as (retryResult & Hres5 & Hexec).
    rewrite Hres5 in Hres.
    exists fresh, retryResult, (self (ChildAgent_executeTask E
                                        (isolatedTask subTask) fresh (world o3))).
    split; [done |]. split; [done |].
    split.
    { rewrite Hfresh, <- Htype. by apply recreated_rebuilt. }
    split; [| done]. rewrite Hch. apply children_get_set_eq.
Qed.

Lemma processSubTask_recreates_witness :
  let o := processSubTask E_fail_once sample_subTask [] root_with_worker world0 in
  ∃ fresh retryResult replacement,
    res o = Ok ([] ++ [retryResult])
    ∧ Result.success retryResult = true
    ∧ children_get (id fresh) (children (self o)) = Some replacement
    ∧ executed (isolatedTask sample_subTask) fresh retryResult replacement
    ∧ map fst (children (self o)) = ["worker-1"; "uuid-0"].
Proof.
  pose (failed :=
    Result.mk "sub-1" false JUndef (Some "Self-test failed") (Some false)).
  pose (looping :=
    set_status ERROR_LOOP
      (self (ChildAgent_executeTask E_fail_once (isolatedTask sample_subTask)
               tired_worker world0))).
  pose proof (processSubTask_recreates E_fail_once sample_subTask []
    root_with_worker world0 "worker-1" failed looping) as H.
  lazy zeta in H.
  assert (res (acquireChild E_fail_once root_with_worker world0) = Ok "worker-1")
    as H1 by (by vm_compute).
  specialize (H H1).
  assert (res (dispatchTask E_fail_once sample_subTask (Some "worker-1")
                 (self (acquireChild E_fail_once root_with_worker world0))
                 (world (acquireChild E_fail_once root_with_worker world0)))
          = Ok failed) as H2 by (by vm_compute).
  specialize (H H2 eq_refl).
  assert (children_get "worker-1"
            (children
               (self (dispatchTask E_fail_once sample_subTask (Some "worker-1")
                        (self (acquireChild E_fail_once root_with_worker world0))
                        (world (acquireChild E_fail_once root_with_worker world0)))))
          = Some looping) as H3 by (by vm_compute).
  specialize (H H3 eq_refl eq_refl).
  destruct H as (_ & _ & H).
  destruct H as (f & r & p & _ & Hr & _ & Hp & He); [by intros k | done | done |].
  exists f, r, p.
  split; [exact Hr |]. split; [| split; [exact Hp | split; [exact He |]]].
  - vm_compute in Hr. by injection Hr as <-.
  - by vm_compute.
Defined.

(** * Further properties of the code *)

(** ** Tools *)

Lemma res_bind {A B} (m : M A) (k : A → M B) a w :
  res ((m ≫= k) a w)
  = match res (m a w) with
    | Ok x => res (k x (self (m a w)) (world (m a w)))
    | Throw e => Throw e
    end.
Proof. unfold mbind, M_bind, bind. by destruct (res (m a w)). Qed.

Lemma wp_all {A} (m : M A) (Q : A → Agent → World → Prop) QE a w :
  (∀ x a' w', Q x a' w') → (∀ e a' w', QE e a' w') → wp m Q QE a w.
Proof. intros HQ HE. unfold wp. by destruct (res (m a w)). Qed.

Lemma wp_conj {A} (m : M A) (Q1 Q2 : A → Agent → World → Prop) QE1 QE2 a w :
  wp m Q1 QE1 a w → wp m Q2 QE2 a w →
  wp m (fun x a' w' => Q1 x a' w' ∧ Q2 x a' w')
    (fun e a' w' => QE1 e a' w' ∧ QE2 e a' w') a w.
Proof. unfold wp. by destruct (res (m a w)). Qed.

Lemma wp_keeps {A} (P : Agent → Prop) (m : M A) a w :
  keeps P m → P a → wp m (fun _ a' _ => P a') (fun _ a' _ => P a') a w.
Proof.
  intros Hk Ha. unfold wp. specialize (Hk a w Ha).
  by destruct (res (m a w)).
Qed.

Lemma getAllDescendants_unfold a :
  getAllDescendants a
  = flat_map (fun kc => kc.2 :: getAllDescendants kc.2) (children a).
Proof. by destruct a. Qed.

Lemma all_terminated_unfold a :
  all_terminated a
  = bool_decide (status a = TERMINATED)
    && forallb (fun kc => all_terminated kc.2) (children a).
Proof. by destruct a. Qed.

Lemma terminated_unfold a :
  terminated a
  = mkAgent (id a) (name a) (type a) (parentId a) TERMINATED
      (map (fun kc => (kc.1, terminated kc.2)) (children a))
      (currentTask a) (description a) (template a) (context a) (config a)
      (Monitor_stop <$> monitor a) (errorCount a) (lastError a) (errorHistory a).
Proof. by destruct a. Qed.

(** ** Construction and initialization *)

(** X1: [new ChildAgent(config)] and [new RootAgent(config)] force the type
    of the node to their class whatever [config.type] says, take the id of
    the configuration when it is a non-empty string and the next uuid
    otherwise (the configuration keeps the id it was given), and default the
    template to the name of the class.  [maxRetries] is 3 and the timeout
    300000 when the key is absent; a key that is present wins, also when it
    holds [undefined].  A stopped monitor is created when [enableMonitor] is
    absent or [true].  The node starts idle, without children, task or
    errors, and no persistence or oracle call is made.  [new ChildAgent]
    then asks for the LLM service and throws when there is none. *)
Theorem constructors_correct (E : Env) (c : IAgentConfig) (w : World) :
  let given :=
    match read (Cfg.id c) with Some s => truthy_str s | None => false end in
  let fresh (n : Agent) (w' : World) (t : AgentType) (class : string) :=
    type n = t ∧ Conf.type (config n) = t
    ∧ id n = (if given then default "" (read (Cfg.id c))
              else uuid_of E (uuid_calls w))
    ∧ uuid_calls w' = (if given then uuid_calls w else S (uuid_calls w))
    ∧ Conf.id (config n) = read (Cfg.id c)
    ∧ name n = Cfg.name c ∧ parentId n = read (Cfg.parentId c)
    ∧ template n = or_str (read (Cfg.template c)) class
    ∧ description n = default "" (read (Cfg.description c))
    ∧ Conf.maxRetries (config n)
      = match Cfg.maxRetries c with Absent => Some 3%Z | Present v => v end
    ∧ Conf.timeout (config n)
      = match Cfg.timeout c with Absent => Some 300000%Z | Present v => v end
    ∧ monitor n
      = match Cfg.enableMonitor c with
        | Absent | Present (Some true) => Some (mkMonitor false [])
        | Present (Some false) | Present None => None
        end
    ∧ status n = IDLE ∧ children n = [] ∧ currentTask n = None
    ∧ context n = createEmptyContext
    ∧ errorCount n = 0 ∧ lastError n = None ∧ errorHistory n = []
    ∧ fs_calls w' = fs_calls w ∧ llm_calls w' = llm_calls w
    ∧ unhandled w' = unhandled w in
  fresh (ChildAgent_super E c w).1 (ChildAgent_super E c w).2 CHILD "ChildAgent"
  ∧ new_ChildAgent E c w
    = (if llm_service E then Ok (ChildAgent_super E c w).1
       else
         Throw
           ("KIMI_API_KEY or KIMI_FOR_CODING_API_KEY is required. "
            +:+ "Please set it in environment variables."),
       (ChildAgent_super E c w).2)
  ∧ fresh (new_RootAgent E c w).1 (new_RootAgent E c w).2 ROOT "RootAgent".
Proof.
  cbn zeta. split; [| split; [apply new_ChildAgent_cases |]];
    unfold ChildAgent_super, new_RootAgent, new_Agent, uuidv4, or_str;
    destruct c as [i n t p md mr to em d tp]; cbn;
    destruct i as [|[s|]]; cbn; try destruct (truthy_str s);
    destruct tp as [|[s'|]]; cbn; try destruct (truthy_str s') eqn:Hs';
    destruct em as [|[[]|]]; destruct d as [|[s''|]]; cbn;
    try destruct (truthy_str s'') eqn:Hs''; destruct mr, to;
    cbn; rewrite ?Hs'; cbn; repeat split; try done;
    unfold truthy_str in Hs''; by destruct (String.eqb_spec s'' "").
Qed.

Lemma res_try_catch_swallow {A} (body : M A) a w :
  ∃ y, res (try_catch (body;; mret tt) (fun _ => mret tt) a w) = Ok y.
Proof.
  unfold try_catch, mbind, M_bind, bind, mret, M_ret, ret.
  destruct (body a w) as [[?|?] ? ?]; cbn; by eexists.
Qed.

(** X2: [ChildAgent.initialize] and [RootAgent.initialize] raise exactly
    when [Agent.initialize] does, with the same error: a template that is
    missing or cannot be read never makes the worker's initialization fail.
    When they return, the node is idle, its monitor (if any) is running and
    nothing else has changed; they return whenever the persistence gateway
    fulfils every call. *)
Theorem initialize_correct (E : Env) (a : Agent) (w : World) :
  let base := Agent_initialize E a w in
  let child := ChildAgent_initialize E a w in
  let root := RootAgent_initialize E a w in
  (∀ e, res child = Throw e ↔ res base = Throw e)
  ∧ (∀ e, res root = Throw e ↔ res base = Throw e)
  ∧ (res child = Ok tt → self child = initialized a)
  ∧ (res root = Ok tt → self root = initialized a)
  ∧ (reliable E → res child = Ok tt ∧ res root = Ok tt)
  ∧ status (initialized a) = IDLE
  ∧ monitor (initialized a) = Monitor_start <$> monitor a
  ∧ set_monitor (monitor a) (set_status (status a) (initialized a)) = a.
Proof.
  cbn zeta.
  assert (∀ e, res (ChildAgent_initialize E a w) = Throw e
               ↔ res (Agent_initialize E a w) = Throw e) as Hc.
  { intros e. unfold ChildAgent_initialize. rewrite res_bind.
    destruct (Agent_initialize E a w) as [[[]|e'] a1 w1]; cbn [res self world];
      [| done].
    rewrite res_bind.
    destruct (res_try_catch_swallow (Agent_loadAgentMd E) a1 w1) as [[] ->].
    done. }
  assert (∀ e, res (RootAgent_initialize E a w) = Throw e
               ↔ res (Agent_initialize E a w) = Throw e) as Hr.
  { intros e. unfold RootAgent_initialize. rewrite res_bind.
    by destruct (Agent_initialize E a w) as [[[]|e'] a1 w1]. }
  split; [done |]. split; [done |].
  split; [| split; [| split]].
  - intros Hres.
    pose proof (wp_ChildAgent_initialize_any E (fun _ _ _ => True)
                  (fun _ _ _ => I) (fun _ a' _ => a' = initialized a) a w
                  (fun _ => eq_refl)) as H.
    by apply (wp_elim _ _ _ _ _ tt) in H.
  - intros Hres.
    pose proof (wp_RootAgent_initialize_any E (fun _ _ _ => True)
                  (fun _ _ _ => I) (fun _ a' _ => a' = initialized a) a w
                  (fun _ => eq_refl)) as H.
    by apply (wp_elim _ _ _ _ _ tt) in H.
  - intros Hfs. split.
    + pose proof (wp_ChildAgent_initialize_ok E Hfs (fun _ _ _ => True)
                    (fun _ _ _ => False) a w (fun _ => I)) as H.
      apply returns_elim in H as ([] & H & _). done.
    + pose proof (wp_RootAgent_initialize_ok E Hfs (fun _ _ _ => True)
                    (fun _ _ _ => False) a w (fun _ => I)) as H.
      apply returns_elim in H as ([] & H & _). done.
  - unfold initialized. destruct a as [? ? ? ? ? ? ? ? ? ? ? mon ? ? ?].
    by destruct mon.
Qed.

(** ** The tree *)

Lemma all_terminated_descendants a :
  all_terminated a = true
  ↔ status a = TERMINATED
    ∧ Forall (fun d => status d = TERMINATED) (getAllDescendants a).
Proof.
  induction a as [a IH] using Agent_tree_ind.
  rewrite all_terminated_unfold, getAllDescendants_unfold.
  rewrite andb_true_iff, bool_decide_eq_true.
  apply and_iff_compat_l.
  induction IH as [|[k c] l Hc Hl IHl]; simpl.
  - split; [constructor | done].
  - rewrite andb_true_iff, IHl, Hc, Forall_cons, Forall_app. tauto.
Qed.

Lemma getAllDescendants_terminated a :
  map id (getAllDescendants (terminated a)) = map id (getAllDescendants a).
Proof.
  induction a as [a IH] using Agent_tree_ind.
  rewrite terminated_unfold, (getAllDescendants_unfold a).
  rewrite getAllDescendants_unfold. cbn [children].
  induction IH as [|[k c] l Hc Hl IHl]; simpl; [done |].
  rewrite !map_app, IHl. simpl in Hc. rewrite Hc.
  f_equal. by destruct c.
Qed.

Lemma monitors_stopped_terminated a :
  Forall (fun d => ∀ m, monitor d = Some m → isRunning m = false)
    (terminated a :: getAllDescendants (terminated a)).
Proof.
  induction a as [a IH] using Agent_tree_ind.
  constructor.
  - rewrite terminated_unfold. cbn. intros m. destruct (monitor a); [| done].
    by intros [= <-].
  - rewrite terminated_unfold, getAllDescendants_unfold. cbn [children].
    induction IH as [|[k c] l Hc Hl IHl]; simpl; [constructor |].
    rewrite Forall_cons, Forall_app. simpl in Hc.
    apply Forall_cons in Hc as [Hc1 Hc2]. done.
Qed.

(** X3: whenever [terminate] returns, the node and every node of
    [getAllDescendants()] have status [terminated] and a stopped monitor, and
    [getAllDescendants()] lists the same ids in the same order as before. *)
Theorem terminate_descendants (E : Env) (reason : option string) (a : Agent)
    (w : World) :
  res (terminate E reason a w) = Ok tt →
  let a' := self (terminate E reason a w) in
  Forall (fun d => status d = TERMINATED
                   ∧ ∀ m, monitor d = Some m → isRunning m = false)
    (a' :: getAllDescendants a')
  ∧ id a' = id a
  ∧ map id (getAllDescendants a') = map id (getAllDescendants a).
Proof.
  intros Hres. cbn zeta. rewrite (terminate_returned E a reason w Hres).
  split; [| split].
  - pose proof (all_terminated_terminated a) as H.
    apply all_terminated_descendants in H as [H1 H2].
    pose proof (monitors_stopped_terminated a) as H3.
    apply Forall_cons in H3 as [H3 H4].
    constructor; [done |].
    apply Forall_and. done.
  - by destruct a.
  - apply getAllDescendants_terminated.
Qed.

Lemma terminate_descendants_witness :
  Forall (fun d => status d = TERMINATED)
    (getAllDescendants (self (terminate E_ok None root_with_worker world0))).
Proof.
  pose proof (terminate_descendants E_ok None root_with_worker world0) as H.
  assert (res (terminate E_ok None root_with_worker world0) = Ok tt) as Hr
    by (by vm_compute).
  specialize (H Hr). lazy zeta in H. destruct H as [H _].
  apply Forall_cons in H as [_ H].
  eapply Forall_impl; [exact H |]. by intros d [Hd _].
Defined.




Lemma children_delete_set k c m :
  children_get k m = None → children_delete k (children_set k c m) = m.
Proof.
  induction m as [|[k0 c0] m IH]; simpl.
  - by rewrite String.eqb_refl.
  - destruct (String.eqb k k0) eqn:Hk; [done |]. simpl. rewrite Hk.
    intros H. by rewrite IH.
Qed.


Lemma self_removeChild (E : Env) agentId this w :
  self (removeChild E agentId this w)
  = match children_get agentId (children this) with
    | None => this
    | Some _ => set_children (children_delete agentId (children this)) this
    end.
Proof.
  unfold removeChild. destruct (children_get _ _); [| done].
  unfold mbind, M_bind, bind, modify, forget, mret, M_ret, ret. cbn.
  by rewrite self_saveState.
Qed.

Lemma res_removeChild (E : Env) agentId this w :
  res (removeChild E agentId this w)
  = Ok (bool_decide (is_Some (children_get agentId (children this)))).
Proof.
  unfold removeChild. destruct (children_get _ _); [| done]. done.
Qed.



(** X5: when [addChild] returns a child whose id was not yet a key of the
    children map, the child is in the map, the map has grown by one, and
    [removeChild] of that id answers [true] and leaves the node exactly as it
    was before [addChild]. *)
Theorem addChild_removeChild (E : Env) (c : IAgentConfig) (this : Agent)
    (w : World) (k : string) :
  res (addChild E c this w) = Ok k →
  getChild k this = None →
  let o := addChild E c this w in
  let o' := removeChild E k (self o) (world o) in
  is_Some (getChild k (self o))
  ∧ length (children (self o)) = S (length (children this))
  ∧ res o' = Ok true
  ∧ self o' = this.
Proof.
  intros Hres Hfresh. cbn zeta. unfold getChild in *.
  rewrite res_removeChild, self_removeChild.
  revert Hres. unfold addChild.
  destruct (bool_decide (type this ≠ ROOT) && (1 <=? length (children this)));
    [done |].
  destruct (new_ChildAgent E _ w) as [[child|e] w1]; [| done].
  unfold mbind, M_bind, bind, modify, forget, mret, M_ret, ret. cbn.
  rewrite self_saveState. intros [= <-]. cbn.
  rewrite children_get_set_eq. cbn.
  rewrite children_delete_set by done.
  split; [done |]. split; [| split; [done | by destruct this]].
  clear - Hfresh. induction (children this) as [|[k0 c0] m IH]; simpl; [done |].
  simpl in Hfresh. destruct (String.eqb (id child) k0); [done |].
  simpl. by rewrite IH.
Qed.

Lemma addChild_removeChild_witness :
  let o := addChild E_ok (sample_config "w" CHILD Absent) sample_root world0 in
  self (removeChild E_ok (sample_uuid 0) (self o) (world o)) = sample_root.
Proof.
  pose proof (addChild_removeChild E_ok (sample_config "w" CHILD Absent)
                sample_root world0 (sample_uuid 0)) as H.
  assert (res (addChild E_ok (sample_config "w" CHILD Absent) sample_root world0)
          = Ok (sample_uuid 0)) as Hr by (by vm_compute).
  assert (getChild (sample_uuid 0) sample_root = None) as Hf by (by vm_compute).
  specialize (H Hr Hf). lazy zeta in H. lazy zeta.
  by destruct H as (_ & _ & _ & H).
Defined.

(** ** Snapshots and identity *)

Lemma mergeConfig_spread c : mergeConfig c (spread_config c) = c.
Proof. destruct c as [i n t p md mr to em d tp]. cbn. by destruct i, p, md. Qed.

Lemma self_loadState (E : Env) state a w :
  self (loadState E state a w)
  = mkAgent (id a) (name a) (type a) (parentId a) (st_status state)
      (children a) (st_currentTask state) (st_description state)
      (st_template state) (st_context state)
      (mergeConfig (config a) (st_config state)) (monitor a)
      (st_errorCount state) (st_lastError state) (st_errorHistory state).
Proof.
  unfold loadState, mbind, M_bind, bind, modify. cbn. by rewrite self_saveState.
Qed.

(** X6: [loadState(getState())] leaves the node as it is; for any state,
    [loadState] installs the description, context, template, status, current
    task and error fields of the state and merges its configuration over the
    node's, and leaves the id, the name, the type, the parent id, the
    children (whatever [childrenIds] says) and the monitor of the node
    untouched; this holds whether or not the save that follows is
    fulfilled. *)
Theorem loadState_getState (E : Env) (a : Agent) (w : World) :
  self (loadState E (snap_state (getState a)) a w) = a
  ∧ (∀ state,
       let a' := self (loadState E state a w) in
       snap_id (getState a') = snap_id (getState a)
       ∧ snap_name (getState a') = snap_name (getState a)
       ∧ snap_type (getState a') = snap_type (getState a)
       ∧ snap_parentId (getState a') = snap_parentId (getState a)
       ∧ snap_childrenIds (getState a') = snap_childrenIds (getState a)
       ∧ monitor a' = monitor a
       ∧ st_description (snap_state (getState a')) = st_description state
       ∧ st_context (snap_state (getState a')) = st_context state
       ∧ st_template (snap_state (getState a')) = st_template state
       ∧ st_status (snap_state (getState a')) = st_status state
       ∧ st_currentTask (snap_state (getState a')) = st_currentTask state
       ∧ st_errorCount (snap_state (getState a')) = st_errorCount state
       ∧ st_errorHistory (snap_state (getState a')) = st_errorHistory state
       ∧ st_lastError (snap_state (getState a')) = st_lastError state
       ∧ config a' = mergeConfig (config a) (st_config state)).
Proof.
  split.
  - rewrite self_loadState. cbn. rewrite mergeConfig_spread. by destruct a.
  - intros state. cbn zeta. rewrite self_loadState. by repeat split.
Qed.

(** X7: no sequence of operations, [loadState] and [recreate] included,
    changes the id, the name, the type or the parent id of a node. *)
Theorem identity_preserved (E : Env) (ops : list Op) (a : Agent) (w : World) :
  let a' := (run_ops E ops a w).1 in
  id a' = id a ∧ name a' = name a ∧ type a' = type a
  ∧ parentId a' = parentId a.
Proof.
  cbn zeta. revert a w. induction ops as [|op ops IH]; intros a w; [done |].
  simpl.
  set (P := fun x : Agent =>
              id x = id a ∧ name x = name a ∧ type x = type a
              ∧ parentId x = parentId a).
  assert (P (self (run_op E op a w))) as (H1 & H2 & H3 & H4).
  { destruct (is_loadState op) eqn:Hop.
    - destruct op; try done. simpl. by rewrite self_loadState.
    - apply (keeps_run_op E P); try done. }
  destruct (IH (self (run_op E op a w)) (world (run_op E op a w)))
    as (? & ? & ? & ?).
  repeat split; congruence.
Qed.




(** ** Error bookkeeping *)

Lemma trailing_snoc {A} n (l : list A) x :
  n ≤ length l → trailing (S n) (l ++ [x]) = trailing n l ++ [x].
Proof.
  intros Hn. unfold trailing. rewrite length_app. simpl.
  replace (length l + 1 - S n) with (length l - n) by lia.
  rewrite drop_app_le by lia. done.
Qed.

Lemma trailing_pushed n e h :
  n ≤ MAX_ERRORS → trailing n (pushed e h) = trailing n (h ++ [e]).
Proof.
  intros Hn. unfold pushed. cbn zeta.
  destruct (Nat.ltb_spec MAX_ERRORS (length (h ++ [e]))) as [Hlt|Hge]; [| done].
  unfold trailing. destruct (h ++ [e]) as [|x l] eqn:Hl; [done |].
  simpl in *. replace (S (length l) - n) with (S (length l - n)) by lia.
  done.
Qed.

Lemma length_pushed e h :
  length (pushed e h)
  = if MAX_ERRORS <? S (length h) then length h else S (length h).
Proof.
  unfold pushed. cbn zeta. rewrite length_app. simpl.
  replace (length h + 1) with (S (length h)) by lia.
  destruct (MAX_ERRORS <? S (length h)).
  - destruct (h ++ [e]) as [|x l] eqn:Hl.
    + by destruct h.
    + apply (f_equal length) in Hl. rewrite length_app in Hl. simpl in *. lia.
  - rewrite length_app. simpl. lia.
Qed.

Lemma errorHistory_repeat (E : Env) e n a w :
  errorHistory (run_ops E (replicate n (OpRecordError e)) a w).1
  = Nat.iter n (pushed e) (errorHistory a).
Proof.
  revert a w. induction n as [|n IH]; intros a w; [done |].
  cbn [replicate run_ops].
  change (run_op E (OpRecordError e)) with (recordError E e).
  rewrite IH, errorHistory_recordError.
  clear. induction n as [|n IH]; [done |]. simpl. by rewrite IH.
Qed.

Lemma trailing_repeat e n h :
  n ≤ MAX_ERRORS →
  n ≤ length (Nat.iter n (pushed e) h)
  ∧ trailing n (Nat.iter n (pushed e) h) = replicate n e.
Proof.
  intros Hn.
  assert (∀ m, m ≤ n →
            m ≤ length (Nat.iter m (pushed e) h)
            ∧ trailing m (Nat.iter m (pushed e) h) = replicate m e) as H.
  { induction m as [|m IH]; intros Hm.
    - split; [lia |]. unfold trailing. simpl.
      rewrite Nat.sub_0_r. apply drop_all.
    - destruct IH as [IH1 IH2]; [lia |]. simpl.
      split.
      + rewrite length_pushed.
        destruct (Nat.ltb_spec MAX_ERRORS (S (length (Nat.iter m (pushed e) h))));
          lia.
      + rewrite trailing_pushed by lia. rewrite trailing_snoc by done.
        rewrite IH2. clear. induction m; [done |]. simpl. by f_equal. }
  by apply H.
Qed.

Lemma pushed_ends e e' h :
  ∃ g, pushed e (h ++ [e']) = g ++ [e'; e].
Proof.
  unfold pushed. cbn zeta. rewrite <- (assoc_L (++)). simpl.
  destruct (MAX_ERRORS <? length (h ++ [e'; e])) eqn:Hlt; [| by exists h].
  destruct h as [|x h]; [| by exists h].
  simpl in Hlt. done.
Qed.

Lemma isInErrorLoop_Some threshold a :
  isInErrorLoop (Some threshold) a = error_loop (errorHistory a) threshold.
Proof. done. Qed.

(** X9: for [n] between 1 and 20, after [n] consecutive [recordError]
    calls with the same text [isInErrorLoop(n)] is true, whatever the history
    was before; recording an error that differs from the last recorded one
    leaves [isInErrorLoop(threshold)] false for every threshold of at least
    2; and with at most 20 entries in the history, [isInErrorLoop] is false
    for every threshold above 20. *)
Theorem recordError_error_loop (E : Env) (e : string) (n : nat) (a : Agent)
    (w : World) :
  1 ≤ n ≤ MAX_ERRORS →
  isInErrorLoop (Some (Z.of_nat n))
    (run_ops E (replicate n (OpRecordError e)) a w).1 = true
  ∧ (∀ e' threshold,
       last (errorHistory a) = Some e' → e' ≠ e → (2 ≤ threshold)%Z →
       isInErrorLoop (Some threshold) (self (recordError E e a w)) = false)
  ∧ (∀ threshold,
       hist_ok a → (Z.of_nat MAX_ERRORS < threshold)%Z →
       isInErrorLoop (Some threshold) a = false).
Proof.
  intros Hn. split; [| split].
  - rewrite isInErrorLoop_Some.
    apply error_loop_spec; [lia |].
    rewrite errorHistory_repeat.
    destruct (trailing_repeat e n (errorHistory a) (proj2 Hn)) as [Hlen Htr].
    split; [lia |]. rewrite Nat2Z.id, Htr.
    intros x y [-> _]%elem_of_replicate [-> _]%elem_of_replicate. done.
  - intros e' threshold Hlast Hne Ht.
    destruct (isInErrorLoop (Some threshold) (self (recordError E e a w)))
      eqn:Hloop; [| done].
    exfalso. rewrite isInErrorLoop_Some in Hloop.
    apply error_loop_spec in Hloop as [Hlen Hsame]; [| lia].
    rewrite errorHistory_recordError in Hlen, Hsame.
    apply last_Some in Hlast as [h' Hh]. rewrite Hh in Hlen, Hsame.
    destruct (pushed_ends e e' h') as [g Hg]. rewrite Hg in Hlen, Hsame.
    assert (∀ x, x ∈ [e'; e] →
                 x ∈ trailing (Z.to_nat threshold) (g ++ [e'; e])) as Hin.
    { intros x Hx. unfold trailing. rewrite length_app in *. simpl in *.
      rewrite drop_app_le by lia. apply elem_of_app. by right. }
    apply Hne. apply Hsame; apply Hin.
    + left.
    + right. left.
  - intros threshold Ha Ht. rewrite isInErrorLoop_Some. unfold error_loop.
    unfold hist_ok in Ha.
    destruct (Z.ltb_spec (Z.of_nat (length (errorHistory a))) threshold);
      [done | lia].
Qed.

Lemma recordError_error_loop_witness :
  isInErrorLoop None
    (run_ops E_disk_full (replicate 3 (OpRecordError "boom")) sample_worker
       world0).1 = true.
Proof.
  refine (proj1 (recordError_error_loop E_disk_full "boom" 3 sample_worker
                   world0 _)).
  unfold MAX_ERRORS. lia.
Defined.

Lemma last_pushed e h : last (pushed e h) = Some e.
Proof.
  unfold pushed. cbn zeta.
  destruct (MAX_ERRORS <? length (h ++ [e])) eqn:Hlt; [| apply last_snoc].
  destruct h as [|x h]; [done |]. simpl. apply last_snoc.
Qed.

Lemma errors_consistent_recordError error a :
  errors_consistent a →
  errors_consistent
    (set_errors (S (errorCount a)) (Some error)
       (let h := errorHistory a ++ [error] in
        if MAX_ERRORS <? length h then tail h else h) a).
Proof.
  intros [Hl Hn]. unfold errors_consistent.
  cbn [lastError errorHistory errorCount set_errors].
  fold (pushed error (errorHistory a)).
  rewrite last_pushed, length_pushed. split; [done |].
  unfold MAX_ERRORS in *.
  destruct (Nat.ltb_spec 20 (S (length (errorHistory a)))); lia.
Qed.

(** X10: [recordError] never raises; it adds one to the error count and
    makes the error the last error and the last entry of the history.  On
    every node built by the constructors, and after any sequence of
    operations without [loadState], the last error is the last entry of the
    history and the history holds as many entries as the error count, up to
    20. *)
Theorem errors_consistent_preserved (E : Env) (ops : list Op) (a : Agent)
    (w : World) :
  errors_consistent a →
  forallb (fun op => negb (is_loadState op)) ops = true →
  errors_consistent (run_ops E ops a w).1
  ∧ (∀ c w', (∀ n, (new_ChildAgent E c w').1 = Ok n → errors_consistent n)
             ∧ errors_consistent (new_RootAgent E c w').1)
  ∧ (∀ error,
       let a' := self (recordError E error a w) in
       res (recordError E error a w) = Ok tt
       ∧ errorCount a' = S (errorCount a)
       ∧ lastError a' = Some error
       ∧ last (errorHistory a') = Some error).
Proof.
  intros Ha Hops. split; [| split].
  - apply keeps_run_ops; try done. apply errors_consistent_recordError.
  - intros c w'.
    pose proof (new_Agent_fields E) as Hf.
    rewrite new_ChildAgent_cases. unfold ChildAgent_super, new_RootAgent.
    split.
    + destruct (Hf (Cfg.mk (Cfg.id c) (Cfg.name c) CHILD (Cfg.parentId c)
                     (Cfg.agentMdPath c) (Cfg.maxRetries c) (Cfg.timeout c)
                     (Cfg.enableMonitor c) (Cfg.description c)
                     (Given (or_str (read (Cfg.template c)) "ChildAgent"))) w')
        as (_ & _ & _ & _ & _ & _ & _ & _ & _ & _ & Hc & Hl & Hh).
      intros n. cbn [fst]. destruct (llm_service E); [| done]. intros [= <-].
      unfold errors_consistent. by rewrite Hc, Hl, Hh.
    + destruct (Hf (Cfg.mk (Cfg.id c) (Cfg.name c) ROOT (Cfg.parentId c)
                     (Cfg.agentMdPath c) (Cfg.maxRetries c) (Cfg.timeout c)
                     (Cfg.enableMonitor c) (Cfg.description c)
                     (Given (or_str (read (Cfg.template c)) "RootAgent"))) w')
        as (_ & _ & _ & _ & _ & _ & _ & _ & _ & _ & Hc & Hl & Hh).
      unfold errors_consistent. by rewrite Hc, Hl, Hh.
  - intros error. cbn zeta.
    pose proof (wp_recordError E
      (fun _ a' _ => a' = recorded error a) (fun _ _ _ => False) error a w
      (fun _ => eq_refl)) as H.
    apply returns_elim in H as ([] & Hres & Hself).
    rewrite Hres, Hself. split; [done |].
    rewrite errorCount_recorded, lastError_recorded, errorHistory_recorded.
    cbn. by rewrite last_pushed.
Qed.

Lemma errors_consistent_preserved_witness :
  errors_consistent
    (run_ops E_ok [OpExecuteTask sample_task; OpRecordError "boom"]
       sample_worker world0).1.
Proof.
  refine (proj1 (errors_consistent_preserved E_ok
    [OpExecuteTask sample_task; OpRecordError "boom"] sample_worker
    world0 _ _)).
  - split; [reflexivity |]. vm_compute. reflexivity.
  - by vm_compute.
Defined.

(** ** What is written *)

Section Writes.

Variable E : Env.
Hypothesis Hfs : reliable E.

Lemma storage_write_wrote entry a w :
  storage_write E entry a w = mkOut (Ok tt) a (wrote [entry] w).
Proof.
  unfold storage_write, wrote. rewrite Hfs. simpl.
  by replace (fs_calls w + 1) with (S (fs_calls w)) by lia.
Qed.

Lemma wrote_wrote l1 l2 w : wrote l2 (wrote l1 w) = wrote (l1 ++ l2) w.
Proof.
  unfold wrote. cbn. rewrite length_app, <- (assoc_L (++)).
  f_equal. lia.
Qed.

Lemma saveState_wrote a w :
  saveState E a w
  = mkOut (Ok tt) a
      (wrote [WAgentState (id a) (status a) None; WContext (id a)] w).
Proof.
  unfold saveState, mbind, M_bind, bind, get_this. cbn [res self world].
  rewrite storage_write_wrote. cbn [res self world].
  rewrite storage_write_wrote. by rewrite wrote_wrote.
Qed.

Lemma reportResult_wrote r a w :
  reportResult E r a w
  = mkOut (Ok tt) a
      (wrote (WAgentState (id a) (status a) None :: WContext (id a)
              :: parent_note r a) w).
Proof.
  unfold reportResult, notifyParent, parent_note, mbind, M_bind, bind, get_this.
  rewrite saveState_wrote. cbn [res self world].
  destruct (truthy_ostr (parentId a)).
  - rewrite storage_write_wrote. by rewrite wrote_wrote.
  - done.
Qed.

(** X11: with fulfilled writes, [reportResult] writes the state and the
    context of the node and, when the node has a non-empty parent id, one
    record under the key [<parentId>_child_result_<id>] that carries the
    result; it does not change the node.  [reportToParent] does nothing at
    all for a node without parent; otherwise it first adds a
    [report_to_parent] entry to the execution log, in memory and in the
    store. *)
Theorem reportResult_writes (r : ITaskResult) (a : Agent) (w : World) :
  reportResult E r a w
  = mkOut (Ok tt) a
      (wrote (WAgentState (id a) (status a) None :: WContext (id a)
              :: parent_note r a) w)
  ∧ (truthy_ostr (parentId a) = false →
     parent_note r a = []
     ∧ ∀ E', reportToParent E' r a w = mkOut (Ok tt) a w)
  ∧ (truthy_ostr (parentId a) = true →
     let entry :=
       mkLog "report_to_parent"
         ("Reporting result to parent " +:+ default "" (parentId a)) in
     let a' := logged "report_to_parent" (result entry) a in
     reportToParent E r a w
     = mkOut (Ok tt) a'
         (wrote (WExecutionLog (id a) entry :: WAgentState (id a) (status a) None
                 :: WContext (id a) :: parent_note r a) w)).
Proof.
  split; [apply reportResult_wrote |]. split.
  - intros Hp. split; [unfold parent_note; by rewrite Hp |].
    intros E'. unfold reportToParent, mbind, M_bind, bind, get_this.
    cbn [res self world]. by rewrite Hp.
  - intros Hp. cbn zeta.
    unfold reportToParent, mbind, M_bind, bind, get_this.
    cbn [res self world]. rewrite Hp. cbn [negb].
    unfold addExecutionLog, mbind, M_bind, bind, get_this, modify.
    cbn [res self world]. rewrite storage_write_wrote. cbn [res self world].
    rewrite reportResult_wrote. by rewrite wrote_wrote.
Qed.

End Writes.

Lemma reportResult_writes_witness :
  fs_log (world (reportResult E_ok (Result.mk "task-1" true JUndef None None)
                   sample_worker world0))
  = [WAgentState "worker-1" IDLE None; WContext "worker-1";
     WAgentState "root-1_child_result_worker-1" IDLE
       (Some ("worker-1", Result.mk "task-1" true JUndef None None))].
Proof.
  pose proof (reportResult_writes E_ok (fun _ => eq_refl)
                (Result.mk "task-1" true JUndef None None) sample_worker world0)
    as [H _].
  rewrite H. reflexivity.
Defined.

(** ** The monitor *)

Lemma length_reportEvent event m :
  length (eventHistory (Monitor_reportEvent event m))
  = if MAX_EVENTS <? S (length (eventHistory m))
    then length (eventHistory m) else S (length (eventHistory m)).
Proof.
  unfold Monitor_reportEvent. cbn [eventHistory]. rewrite length_app.
  cbn [length].
  replace (length (eventHistory m) + 1) with (S (length (eventHistory m)))
    by lia.
  destruct (MAX_EVENTS <? S (length (eventHistory m))).
  - destruct (eventHistory m ++ [event]) as [|x l] eqn:Hl.
    + by destruct (eventHistory m).
    + apply (f_equal length) in Hl. rewrite length_app in Hl.
      cbn [length tail] in *. lia.
  - rewrite length_app. cbn [length]. lia.
Qed.

Lemma events_partition (h : list IMonitorEvent) :
  length h
  = length (events_of ERROR_DETECTED h) + length (events_of LOOP_DETECTED h)
    + length (events_of TIMEOUT h) + length (events_of AGENT_TERMINATED h)
    + length (events_of AGENT_RECREATED h).
Proof.
  induction h as [|[t i d] h IH]; [done |].
  unfold events_of in *. rewrite !filter_cons. cbn [ev_type].
  destruct t; repeat case_decide; try congruence; simpl; lia.
Qed.

(** X12: [reportEvent] on a history of at most 100 events keeps the last
    100 of the old events followed by the new one, so the new event is the
    last and the oldest is dropped when the history was full; the running
    flag is untouched; in [getStats()] the error, loop and timeout counts
    never exceed the total, and after [clearHistory()] all counts are 0.
    The cap is the one of [reportEvent]: [handleErrorLoop] appends its event
    to the history without it. *)
Theorem Monitor_reportEvent_bounded (event : IMonitorEvent) (m : Monitor) :
  length (eventHistory m) ≤ MAX_EVENTS →
  let m' := Monitor_reportEvent event m in
  Monitor_getEventHistory m'
  = trailing MAX_EVENTS (eventHistory m ++ [event])
  ∧ length (Monitor_getEventHistory m') ≤ MAX_EVENTS
  ∧ last (Monitor_getEventHistory m') = Some event
  ∧ isRunning m' = isRunning m
  ∧ totalEvents (Monitor_getStats m')
    = S (totalEvents (Monitor_getStats m)) `min` MAX_EVENTS
  ∧ errorEvents (Monitor_getStats m') + loopEvents (Monitor_getStats m')
    + timeoutEvents (Monitor_getStats m') ≤ totalEvents (Monitor_getStats m')
  ∧ Monitor_getStats (Monitor_clearHistory m')
    = mkStats 0 0 0 0 (isRunning m)
  ∧ (∀ E a w,
       monitor a = Some m →
       (eventHistory <$> monitor (self (Monitor_handleErrorLoop E event a w)))
       = Some (eventHistory m
               ++ [mkEvent LOOP_DETECTED (id a) (ev_details event)])).
Proof.
  intros Hm. cbn zeta.
  split; [| split; [| split; [| split; [| split; [| split; [| split]]]]]].
  - unfold Monitor_getEventHistory, Monitor_reportEvent, trailing.
    cbn [eventHistory]. rewrite length_app. cbn [length].
    destruct (Nat.ltb_spec MAX_EVENTS (length (eventHistory m) + 1)).
    + replace (length (eventHistory m) + 1 - MAX_EVENTS) with 1 by lia.
      by destruct (eventHistory m ++ [event]).
    + by replace (length (eventHistory m) + 1 - MAX_EVENTS) with 0 by lia.
  - unfold Monitor_getEventHistory. rewrite length_reportEvent.
    destruct (Nat.ltb_spec MAX_EVENTS (S (length (eventHistory m)))); lia.
  - unfold Monitor_getEventHistory, Monitor_reportEvent. cbn [eventHistory].
    destruct (Nat.ltb_spec MAX_EVENTS (length (eventHistory m ++ [event])))
      as [Hlt|Hge]; [| apply last_snoc].
    destruct (eventHistory m) as [|x l]; [| apply last_snoc].
    unfold MAX_EVENTS in Hlt. simpl in Hlt. lia.
  - done.
  - unfold Monitor_getStats. cbn [totalEvents]. rewrite length_reportEvent.
    destruct (Nat.ltb_spec MAX_EVENTS (S (length (eventHistory m)))); lia.
  - unfold Monitor_getStats. cbn [totalEvents errorEvents loopEvents timeoutEvents].
    pose proof (events_partition (eventHistory (Monitor_reportEvent event m))).
    lia.
  - done.
  - intros E a w Ha.
    unfold Monitor_handleErrorLoop, mbind, M_bind, bind, get_this,
      with_monitor, modify.
    rewrite res_updateStatus, self_updateStatus. cbn. by rewrite Ha.
Qed.

Lemma Monitor_reportEvent_bounded_witness :
  let old := mkEvent ERROR_DETECTED "worker-1" [] in
  let new := mkEvent TIMEOUT "worker-1" [] in
  let m' := Monitor_reportEvent new (mkMonitor true (replicate 100 old)) in
  Monitor_getEventHistory m' = replicate 99 old ++ [new]
  ∧ totalEvents (Monitor_getStats m') = 100.
Proof.
  pose proof (Monitor_reportEvent_bounded (mkEvent TIMEOUT "worker-1" [])
                (mkMonitor true
                   (replicate 100 (mkEvent ERROR_DETECTED "worker-1" []))))
    as H.
  assert (length
            (eventHistory
               (mkMonitor true
                  (replicate 100 (mkEvent ERROR_DETECTED "worker-1" []))))
          ≤ MAX_EVENTS) as Hm.
  { vm_compute. reflexivity. }
  specialize (H Hm). lazy zeta in H. destruct H as (H & _ & _ & _ & Ht & _).
  split; [rewrite H; by vm_compute | rewrite Ht; by vm_compute].
Defined.








(** ** The worker *)

Section Quiet.

Variable E : Env.
Hypothesis Hfs : reliable E.

Lemma wpq_storage_write entry (Q : unit → Agent → World → Prop) QE a w :
  (∀ w', only_writes w w' → Q tt a w') → wp (storage_write E entry) Q QE a w.
Proof.
  intros HQ. unfold wp, storage_write. rewrite Hfs. cbn. by apply HQ.
Qed.

Lemma wpq_saveState (Q : unit → Agent → World → Prop) QE a w :
  (∀ w', only_writes w w' → Q tt a w') → wp (saveState E) Q QE a w.
Proof.
  intros HQ. unfold saveState. apply wp_bind, wp_get_this.
  apply wp_bind, wpq_storage_write. intros w1 H1.
  apply wpq_storage_write. intros w2 H2. apply HQ.
  by apply (only_writes_trans _ w1).
Qed.

Lemma wpq_updateStatus s (Q : unit → Agent → World → Prop) QE a w :
  (∀ w', only_writes w w' → Q tt (set_status s a) w') →
  wp (updateStatus E s) Q QE a w.
Proof.
  intros HQ. unfold updateStatus. apply wp_bind, wp_modify, wp_forget.
  apply wpq_saveState. done.
Qed.

Lemma wpq_addExecutionLog action result (Q : unit → Agent → World → Prop)
    QE a w :
  (∀ w', only_writes w w' → Q tt (logged action result a) w') →
  wp (addExecutionLog E action result) Q QE a w.
Proof.
  intros HQ. unfold addExecutionLog.
  apply wp_bind, wp_modify, wp_bind, wp_get_this, wpq_storage_write, HQ.
Qed.

Lemma wpq_recordError error (Q : unit → Agent → World → Prop) QE a w :
  (∀ w', only_writes w w' → Q tt (recorded error a) w') →
  wp (recordError E error) Q QE a w.
Proof.
  intros HQ. unfold recordError.
  apply wp_bind, wp_modify, wp_bind, wp_get_this, wp_bind, wp_with_monitor.
  apply wp_forget, wpq_saveState. done.
Qed.

Lemma wpq_reportResult r (Q : unit → Agent → World → Prop) QE a w :
  (∀ w', only_writes w w' → Q tt a w') → wp (reportResult E r) Q QE a w.
Proof.
  intros HQ. unfold reportResult, notifyParent.
  apply wp_bind, wpq_saveState. intros w1 H1. apply wp_bind, wp_get_this.
  destruct (truthy_ostr (parentId a)).
  - apply wp_bind, wp_get_this, wpq_storage_write. intros w2 H2.
    apply HQ. by apply (only_writes_trans _ w1).
  - apply wp_ret, HQ. done.
Qed.

Lemma wpq_reportToParent r (Q : unit → Agent → World → Prop) QE a w :
  (∀ w', only_writes w w' → Q tt (reported a) w') →
  wp (reportToParent E r) Q QE a w.
Proof.
  intros HQ. unfold reportToParent, reported in *. apply wp_bind, wp_get_this.
  destruct (truthy_ostr (parentId a)); simpl.
  - apply wp_bind, wpq_addExecutionLog. intros w1 H1.
    apply wpq_reportResult. intros w2 H2. apply HQ.
    by apply (only_writes_trans _ w1).
  - apply wp_ret, HQ. done.
Qed.

Lemma wpq_llm_call {A} (answer : nat → Res A)
    (Q : A → Agent → World → Prop) QE a w :
  (∀ w', uuid_calls w' = uuid_calls w → llm_calls w' = S (llm_calls w) →
         match answer (llm_calls w) with
         | Ok x => Q x a w'
         | Throw e => QE e a w'
         end) →
  wp (llm_call answer) Q QE a w.
Proof.
  intros HQ. unfold wp, llm_call. cbn [res self world].
  specialize (HQ (mkWorld (uuid_calls w) (fs_calls w) (S (llm_calls w))
                    (fs_log w) (unhandled w)) eq_refl eq_refl).
  by destruct (answer (llm_calls w)).
Qed.

Lemma wpq_performTask task (Q : JsVal → Agent → World → Prop) QE a w :
  let a1 :=
    logged "perform_task" ("Performing: " +:+ js_toString (instruction_of task))
      a in
  (∀ w', uuid_calls w' = uuid_calls w → llm_calls w' = S (llm_calls w) →
     match llm_executeTask E (llm_calls w) (instruction_of task)
             (Task.context task) with
     | Ok x =>
         Q (execution_output a task (instruction_of task) x)
           (logged "task_executed" (ex_output x) a1) w'
     | Throw e => QE e (logged "task_error" ("Error: Error: " +:+ e) a1) w'
     end) →
  wp (performTask E task) Q QE a w.
Proof.
  intros a1 HQ. unfold performTask. unfold instruction_of in *. cbn zeta in *.
  apply wp_bind, wpq_addExecutionLog. intros w1 (Hu1 & Hl1 & _). fold a1.
  apply wp_try_catch, wp_bind, wpq_llm_call. intros w2 Hu2 Hl2.
  rewrite Hl1.
  destruct (llm_executeTask E (llm_calls w) _ _) as [x|e] eqn:Hx.
  - apply wp_bind, wp_get_this, wp_bind, wpq_addExecutionLog.
    intros w3 (Hu3 & Hl3 & _). apply wp_ret.
    refine (HQ w3 _ _); congruence.
  - apply wp_bind, wpq_addExecutionLog. intros w3 (Hu3 & Hl3 & _).
    apply wp_throw. apply HQ; congruence.
Qed.

Lemma wpq_selfTest task (Q : bool → Agent → World → Prop) QE a w :
  currentTask a = Some task →
  (∀ w', uuid_calls w' = uuid_calls w → llm_calls w' = S (llm_calls w) →
     match llm_selfTest E (llm_calls w) (Task.description task)
             (lastOutput a) with
     | Ok v =>
         Q (passed v)
           (logged (if passed v then "self_test_passed" else "self_test_failed")
              (feedback v) a) w'
     | Throw e =>
         Q (bool_decide (status a = RUNNING))
           (logged "self_test_error" ("Self-test error: Error: " +:+ e) a) w'
     end) →
  wp (selfTest E) Q QE a w.
Proof.
  intros Htask HQ. unfold selfTest. apply wp_bind, wp_get_this.
  rewrite Htask. apply wp_try_catch, wp_bind, wpq_llm_call. intros w1 Hu1 Hl1.
  destruct (llm_selfTest E (llm_calls w) _ _) as [v|e] eqn:Hv.
  - apply wp_bind, wpq_addExecutionLog. intros w2 (Hu2 & Hl2 & _). apply wp_ret.
    apply HQ; congruence.
  - apply wp_bind, wpq_addExecutionLog. intros w2 (Hu2 & Hl2 & _).
    apply wp_bind, wp_get_this, wp_ret.
    specialize (HQ w2).
    replace (fallbackSelfTest _) with (bool_decide (status a = RUNNING)).
    + apply HQ; congruence.
    + unfold fallbackSelfTest, extractTestCases, logged. cbn.
      rewrite Htask. cbn. by rewrite andb_true_r.
Qed.

End Quiet.

Section Worker_outcome.

Variable E : Env.
Hypothesis Hfs : reliable E.


Lemma lastOutput_logged r out b :
  lastOutput (logged "self_test" r (logged "task_executed" out b)) = out.
Proof.
  unfold lastOutput, logged. cbn.
  rewrite !filter_app, !filter_cons, !filter_nil. cbn.
  rewrite decide_True by done. rewrite decide_False by done.
  rewrite app_nil_r, last_snoc. cbn.
  unfold truthy_str. by destruct (String.eqb_spec out "") as [->|].
Qed.

Lemma wpq_executeTask_handler task a e s w w0 :
  errorHistory s = errorHistory a → currentTask s = Some task →
  uuid_calls w0 = uuid_calls w →
  returns
    (addExecutionLog E "error" ("Error: " +:+ e);;
     recordError E e;;
     this ← get_this;
     updateStatus E (if isInErrorLoop None this then ERROR_LOOP else FAILED);;
     let result := Result.mk (Task.id task) false JUndef (Some e) (Some false) in
     reportResult E result;;
     reportToParent E result;;
     mret result)
    (fun r a' w' =>
       r = failure task e
       ∧ llm_calls w' = llm_calls w0 ∧ uuid_calls w' = uuid_calls w
       ∧ status a' = status_after a r
       ∧ currentTask a' = Some task) s w0.
Proof.
  intros Hh Ht Hu. unfold returns.
  apply wp_bind, wpq_addExecutionLog; [done |]. intros w1 (Hu1 & Hl1 & _).
  apply wp_bind, wpq_recordError; [done |]. intros w2 (Hu2 & Hl2 & _).
  apply wp_bind, wp_get_this.
  apply wp_bind, wpq_updateStatus; [done |]. intros w3 (Hu3 & Hl3 & _).
  apply wp_bind, wpq_reportResult; [done |]. intros w4 (Hu4 & Hl4 & _).
  apply wp_bind, wpq_reportToParent; [done |]. intros w5 (Hu5 & Hl5 & _).
  apply wp_ret. split; [done |].
  split; [congruence |]. split; [congruence |].
  unfold reported. cbn [parentId set_status].
  assert (∀ x b, status (if truthy_ostr x then logged "report_to_parent"
                   ("Reporting result to parent " +:+ default "" x) b else b)
                 = status b
                 ∧ currentTask (if truthy_ostr x then logged "report_to_parent"
                   ("Reporting result to parent " +:+ default "" x) b else b)
                   = currentTask b) as Hrep.
  { intros x b. by destruct (truthy_ostr x). }
  destruct (Hrep (parentId (recorded e (logged "error" ("Error: " +:+ e) s)))
              (set_status
                 (if isInErrorLoop None
                       (recorded e (logged "error" ("Error: " +:+ e) s))
                  then ERROR_LOOP else FAILED)
                 (recorded e (logged "error" ("Error: " +:+ e) s))))
    as [-> ->].
  cbn [status currentTask set_status].
  rewrite currentTask_recorded. split; [| done].
  unfold status_after, failure. cbn [Result.error].
  unfold isInErrorLoop. rewrite errorHistory_recorded. cbn. by rewrite Hh.
Qed.

(** X15: with fulfilled writes, the worker's [executeTask] answers as
    follows.  A task with neither instruction nor description fails with
    "Invalid task context: missing required instruction" and the oracle is
    not called.  Otherwise the oracle executes the instruction: if it
    rejects, the task fails with its error after one call; if it answers,
    the oracle's self-test is called with the task description and that
    answer's output, and the task succeeds, carrying the answer, when the
    verdict is [passed] or the self-test rejects, and fails with "Self-test
    failed" otherwise; the [success] flag of the oracle's answer plays no
    part.  The status is [completed] on success, and [error_loop] or
    [failed] after a failure according to the last three errors. *)
Theorem ChildAgent_executeTask_outcome (task : ITask) (a : Agent) (w : World) :
  let o := ChildAgent_executeTask E task a w in
  let r := (worker_outcome E task a w).1 in
  res o = Ok r
  ∧ llm_calls (world o) = llm_calls w + (worker_outcome E task a w).2
  ∧ uuid_calls (world o) = uuid_calls w
  ∧ status (self o) = status_after a r
  ∧ currentTask (self o) = Some task.
Proof.
  cbn zeta.
  assert (returns (ChildAgent_executeTask E task)
            (fun r a' w' =>
               r = (worker_outcome E task a w).1
               ∧ llm_calls w' = llm_calls w + (worker_outcome E task a w).2
               ∧ uuid_calls w' = uuid_calls w
               ∧ status a' = status_after a r
               ∧ currentTask a' = Some task) a w) as H.
  2:{ apply returns_elim in H as (r & Hres & -> & H). by rewrite Hres. }
  unfold returns, ChildAgent_executeTask.
  apply wp_bind, wpq_updateStatus; [done |]. intros w1 (Hu1 & Hl1 & _).
  apply wp_bind, wp_modify.
  apply wp_bind, wpq_addExecutionLog; [done |]. intros w2 (Hu2 & Hl2 & _).
  set (s0 := logged "task_start" _ _).
  assert (errorHistory s0 = errorHistory a ∧ currentTask s0 = Some task
          ∧ status s0 = RUNNING ∧ id s0 = id a) as (Hh0 & Ht0 & Hs0 & Hi0)
    by done.
  clearbody s0.
  apply wp_try_catch.
  unfold worker_outcome.
  apply wp_bind. destruct (validateTaskContext task).
  2:{ apply wp_throw.
      pose proof (wpq_executeTask_handler task a
        "Invalid task context: missing required instruction" s0 w w2 Hh0 Ht0
        ltac:(congruence)) as H.
      eapply wp_mono; [| | exact H]; [| done].
      intros r a' w' (-> & Hl & Hu & Hst & Hc). cbn [fst snd].
      repeat split; try done. rewrite Hl. lia. }
  apply wp_ret, wp_bind, wpq_performTask; [done |].
  intros w3 Hu3 Hl3.
  replace (llm_calls w2) with (llm_calls w) by congruence.
  destruct (llm_executeTask E (llm_calls w) (instruction_of task)
              (Task.context task)) as [x|e] eqn:Hx.
  2:{ pose proof (wpq_executeTask_handler task a e
        (logged "task_error" ("Error: Error: " +:+ e)
           (logged "perform_task"
              ("Performing: " +:+ js_toString (instruction_of task)) s0))
        w w3 Hh0 Ht0 ltac:(congruence)) as H.
      eapply wp_mono; [| | exact H]; [| done].
      intros r a' w' (-> & Hl & Hu & Hst & Hc). cbn [fst snd].
      repeat split; try done. rewrite Hl. lia. }
  apply wp_bind, wpq_addExecutionLog; [done |]. intros w4 (Hu4 & Hl4 & _).
  apply wp_bind.
  eapply (wpq_selfTest E Hfs task); [done |]. intros w5 Hu5 Hl5.
  rewrite lastOutput_logged.
  replace (llm_calls w4) with (S (llm_calls w)) by congruence.
  cbn [status logged set_context]. rewrite Hs0.
  rewrite bool_decide_eq_true_2 by done.
  assert (∀ b w6,
            errorHistory b = errorHistory a → currentTask b = Some task →
            llm_calls w6 = S (S (llm_calls w)) → uuid_calls w6 = uuid_calls w →
            wp
              (addExecutionLog E "self_test_passed" "Self-test passed";;
               let result :=
                 Result.mk (Task.id task) true
                   (execution_output s0 task (instruction_of task) x) None
                   (Some true) in
               updateStatus E COMPLETED;;
               reportResult E result;;
               reportToParent E result;;
               mret result)
              (fun r a' w' =>
                 r = Result.mk (Task.id task) true
                       (execution_output a task (instruction_of task) x) None
                       (Some true)
                 ∧ llm_calls w' = llm_calls w + 2
                 ∧ uuid_calls w' = uuid_calls w
                 ∧ status a' = status_after a r
                 ∧ currentTask a' = Some task)
              (fun _ _ _ => False) b w6) as Hsuccess.
  { intros b w6 Hhb Htb Hl6 Hu6.
    apply wp_bind, wpq_addExecutionLog; [done |]. intros w7 (Hu7 & Hl7 & _).
    apply wp_bind, wpq_updateStatus; [done |]. intros w8 (Hu8 & Hl8 & _).
    apply wp_bind, wpq_reportResult; [done |]. intros w9 (Hu9 & Hl9 & _).
    apply wp_bind, wpq_reportToParent; [done |]. intros w10 (Hu10 & Hl10 & _).
    apply wp_ret.
    split; [unfold execution_output; by rewrite Hi0 |].
    split; [lia |]. split; [congruence |].
    unfold reported. cbn [parentId set_status logged set_context].
    by destruct (truthy_ostr (parentId b)). }
  assert (∀ b w6,
            errorHistory b = errorHistory a → currentTask b = Some task →
            llm_calls w6 = S (S (llm_calls w)) → uuid_calls w6 = uuid_calls w →
            wp
              (λ this w,
                 (λ errorMessage : string,
                    addExecutionLog E "error" ("Error: " +:+ errorMessage);;
                    recordError E errorMessage;;
                    this0 ← get_this;
                    updateStatus E
                      (if isInErrorLoop None this0 then ERROR_LOOP else FAILED);;
                    let result :=
                      Result.mk (Task.id task) false JUndef (Some errorMessage)
                        (Some false) in
                    reportResult E result;;
                    reportToParent E result;;
                    mret result) "Self-test failed" this w)
              (fun r a' w' =>
                 r = failure task "Self-test failed"
                 ∧ llm_calls w' = llm_calls w + 2
                 ∧ uuid_calls w' = uuid_calls w
                 ∧ status a' = status_after a r
                 ∧ currentTask a' = Some task)
              (fun _ _ _ => False) b w6) as Hfailure.
  { intros b w6 Hhb Htb Hl6 Hu6.
    pose proof (wpq_executeTask_handler task a "Self-test failed" b w w6
                  Hhb Htb Hu6) as H.
    eapply wp_mono; [| | exact H]; [| done].
    intros r a' w' (-> & Hl & Hu & Hst & Hc).
    repeat split; try done. rewrite Hl. lia. }
  destruct (llm_selfTest E (S (llm_calls w)) (Task.description task)
              (ex_output x)) as [v|e] eqn:Hv.
  - destruct (passed v) eqn:Hp; cbn [fst snd].
    + apply wp_bind, wp_ret.
      eapply wp_mono; [| | refine (Hsuccess _ w5 _ _ _ _)];
        try done; congruence.
    + apply wp_bind, wp_throw. refine (Hfailure _ w5 _ _ _ _); try done; congruence.
  - cbn [fst snd]. apply wp_bind, wp_ret.
    eapply wp_mono; [| | refine (Hsuccess _ w5 _ _ _ _)];
      try done; congruence.
Qed.

(** X16: with fulfilled writes, the first version of the worker never
    calls the oracle: every task with an instruction or a description
    succeeds with the placeholder output, since its self-test only checks
    that a task is current and the status is [running]; a task with neither
    fails with "Invalid task context: missing required instruction".  The
    placeholder output holds the node, the task, the instruction and a text
    that quotes the instruction: the instruction itself when it is a string,
    which it is when the context of the task holds none, for then the
    description takes its place. *)
Theorem ChildAgentV1_executeTask_outcome (task : ITask) (a : Agent) (w : World) :
  let o := ChildAgentV1_executeTask E task a w in
  ∃ r,
    res o = Ok r
    ∧ llm_calls (world o) = llm_calls w
    ∧ status (self o) = status_after a r
    ∧ currentTask (self o) = Some task
    ∧ (validateTaskContext task = true →
       ∃ text,
         r = Result.mk (Task.id task) true
               (JObj [("agentId", JStr (id a));
                      ("taskId", JStr (Task.id task));
                      ("instruction", instruction_of task);
                      ("result",
                       JStr ("Task " +:+ double_quote +:+ text +:+ double_quote
                             +:+ " completed by " +:+ name a))])
               None (Some true)
         ∧ (∀ s, instruction_of task = JStr s → text = s)
         ∧ (truthy (opt_get "instruction" (Task.context task)) = false →
            text = Task.description task))
    ∧ (validateTaskContext task = false →
       r = failure task "Invalid task context: missing required instruction").
Proof.
  cbn zeta.
  assert (returns (ChildAgentV1_executeTask E task)
            (fun r a' w' =>
               llm_calls w' = llm_calls w
               ∧ status a' = status_after a r
               ∧ currentTask a' = Some task
               ∧ (validateTaskContext task = true →
                  r = Result.mk (Task.id task) true
                        (JObj [("agentId", JStr (id a));
                               ("taskId", JStr (Task.id task));
                               ("instruction", instruction_of task);
                               ("result",
                                JStr ("Task " +:+ double_quote
                                      +:+ js_toString (instruction_of task)
                                      +:+ double_quote
                                      +:+ " completed by " +:+ name a))])
                        None (Some true))
               ∧ (validateTaskContext task = false →
                  r = failure task
                        "Invalid task context: missing required instruction"))
            a w) as H.
  2:{ apply returns_elim in H as (r & Hres & Hl & Hst & Hc & Hok & Hno).
      exists r. repeat (split; [done |]). split; [| done].
      intros Hvalid. exists (js_toString (instruction_of task)).
      split; [by apply Hok |].
      split; [by intros s -> |].
      unfold instruction_of. by intros ->. }
  unfold returns, ChildAgentV1_executeTask.
  apply wp_bind, wpq_updateStatus; [done |]. intros w1 (Hu1 & Hl1 & _).
  apply wp_bind, wp_modify.
  apply wp_bind, wpq_addExecutionLog; [done |]. intros w2 (Hu2 & Hl2 & _).
  set (s0 := logged "task_start" _ _).
  assert (errorHistory s0 = errorHistory a ∧ currentTask s0 = Some task
          ∧ status s0 = RUNNING ∧ id s0 = id a ∧ name s0 = name a)
    as (Hh0 & Ht0 & Hs0 & Hi0 & Hn0) by done.
  clearbody s0.
  apply wp_try_catch, wp_bind.
  destruct (validateTaskContext task) eqn:Hvalid.
  2:{ apply wp_throw.
      pose proof (wpq_executeTask_handler task a
        "Invalid task context: missing required instruction" s0 w w2 Hh0 Ht0
        ltac:(congruence)) as H.
      eapply wp_mono; [| | exact H]; [| done].
      intros r a' w' (-> & Hl & Hu & Hst & Hc).
      split; [congruence |]. by repeat split. }
  apply wp_ret, wp_bind. unfold ChildAgentV1_performTask.
  apply wp_bind, wpq_addExecutionLog; [done |]. intros w3 (Hu3 & Hl3 & _).
  apply wp_bind, wp_get_this, wp_ret.
  apply wp_bind, wpq_addExecutionLog; [done |]. intros w4 (Hu4 & Hl4 & _).
  apply wp_bind. unfold ChildAgentV1_selfTest. apply wp_bind, wp_get_this.
  cbn [currentTask logged set_context]. rewrite Ht0.
  apply wp_try_catch. unfold extractTestCases.
  cbn [currentTask status logged set_context]. rewrite Ht0, Hs0.
  rewrite !bool_decide_eq_true_2 by (done || by eexists).
  cbn [ChildAgentV1_runTestCases]. apply wp_ret.
  apply wp_bind, wp_ret.
  apply wp_bind, wpq_addExecutionLog; [done |]. intros w5 (Hu5 & Hl5 & _).
  apply wp_bind, wpq_updateStatus; [done |]. intros w6 (Hu6 & Hl6 & _).
  apply wp_bind, wpq_reportResult; [done |]. intros w7 (Hu7 & Hl7 & _).
  apply wp_bind, wpq_reportToParent; [done |]. intros w8 (Hu8 & Hl8 & _).
  apply wp_ret.
  split; [congruence |].
  unfold reported. cbn [parentId set_status logged set_context].
  split; [by destruct (truthy_ostr (parentId s0)) |].
  split; [by destruct (truthy_ostr (parentId s0)) |].
  split; [| done]. intros _. cbn [id name logged set_context].
  by rewrite Hi0, Hn0.
Qed.

End Worker_outcome.


Lemma ChildAgent_executeTask_outcome_witness :
  status (self (ChildAgent_executeTask E_ok sample_task sample_worker world0))
  = COMPLETED.
Proof.
  pose proof (ChildAgent_executeTask_outcome E_ok (fun _ => eq_refl) sample_task
                sample_worker world0) as H.
  lazy zeta in H. destruct H as (_ & _ & _ & H & _). rewrite H. reflexivity.
Defined.

Lemma ChildAgentV1_executeTask_outcome_witness :
  ∃ r, res (ChildAgentV1_executeTask E_ok sample_task sample_worker world0)
       = Ok r
       ∧ Result.success r = true
       ∧ obj_get "result"
           (match Result.output r with JObj o => o | _ => [] end)
         = JStr ("Task " +:+ double_quote +:+ "build X" +:+ double_quote
                 +:+ " completed by worker").
Proof.
  destruct (ChildAgentV1_executeTask_outcome E_ok (fun _ => eq_refl)
              sample_task sample_worker world0)
    as (r & Hres & _ & _ & _ & Hok & _).
  exists r. split; [done |].
  destruct (Hok eq_refl) as (text & -> & Htext & _).
  split; [done |]. cbn. by rewrite (Htext "build X" eq_refl).
Defined.

(** ** The coordinator *)

Lemma analyzeTaskDescription_length description :
  1 ≤ length (analyzeTaskDescription description) ≤ 6.
Proof.
  unfold analyzeTaskDescription. cbn zeta.
  destruct (Nat.eqb_spec
              (length
                 (map (fun keyword => keyword +:+ "相关任务")
                    (filter (fun keyword => includes description keyword = true)
                       keywords))) 0) as [H0|H0].
  - simpl. lia.
  - split; [lia |]. rewrite length_map.
    etrans; [apply length_filter |]. done.
Qed.

Lemma analyzeTaskDescription_nonempty description d :
  d ∈ analyzeTaskDescription description → d ≠ "".
Proof.
  unfold analyzeTaskDescription. cbn zeta.
  destruct (length _ =? 0).
  - rewrite !elem_of_cons, elem_of_nil. by intros [->|[->|[->|[]]]].
  - rewrite list_elem_of_In, in_map_iff. intros (k & <- & Hk).
    apply list_elem_of_In, list_elem_of_filter in Hk as [_ Hk].
    unfold keywords in Hk.
    rewrite !elem_of_cons, elem_of_nil in Hk.
    by destruct Hk as [->|[->|[->|[->|[->|[->|[]]]]]]].
Qed.

Lemma decompose_from_spec (E : Env) task total i ds w :
  let r := decompose_from E task total i ds w in
  uuid_calls r.2 = uuid_calls w + length ds
  ∧ fs_calls r.2 = fs_calls w ∧ llm_calls r.2 = llm_calls w
  ∧ fs_log r.2 = fs_log w ∧ unhandled r.2 = unhandled w
  ∧ length r.1 = length ds
  ∧ ∀ j d, ds !! j = Some d →
      r.1 !! j
      = Some (Task.mk (uuid_of E (uuid_calls w + j)) d
                (Some (subTask_context task (i + j) total))
                (Some (Task.id task))).
Proof.
  cbn zeta. revert i w. induction ds as [|d ds IH]; intros i w.
  - simpl. repeat split; try done; lia.
  - simpl. specialize (IH (S i)
      (mkWorld (S (uuid_calls w)) (fs_calls w) (llm_calls w) (fs_log w)
         (unhandled w))).
    destruct (decompose_from E task total (S i) ds _) as [rest w2].
    cbn [fst snd uuid_calls fs_calls llm_calls fs_log unhandled] in *.
    destruct IH as (Hu & Hf & Hl & Hlog & Hun & Hlen & Hnth).
    repeat split; try done; try lia.
    + simpl. by rewrite Hlen.
    + intros [|j] d'; simpl.
      * intros [= <-]. by rewrite !Nat.add_0_r.
      * intros Hj. rewrite (Hnth j d' Hj).
        replace (uuid_calls w + S j) with (S (uuid_calls w) + j) by lia.
        by replace (i + S j) with (S i + j) by lia.
Qed.

(** X17: [decomposeTask] never raises and does not touch the node; it
    returns between 1 and 6 sub-tasks, one per step of
    [analyzeTaskDescription], in that order, with consecutive fresh uuids,
    [step] counting from 1, [totalSteps] their number, the id of the task as
    [parentTaskId] and the context of the task under [originalContext].
    The view of such a sub-task that [dispatchTask] builds has the
    description as instruction and the same step numbers, and passes the
    worker's [validateTaskContext]. *)
Theorem decomposeTask_correct (E : Env) (task : ITask) (this : Agent)
    (w : World) :
  let o := decomposeTask E task this w in
  let descriptions := analyzeTaskDescription (Task.description task) in
  let n := length descriptions in
  ∃ subTasks,
    res o = Ok subTasks
    ∧ self o = this
    ∧ world o
      = mkWorld (uuid_calls w + n) (fs_calls w) (llm_calls w) (fs_log w)
          (unhandled w)
    ∧ length subTasks = n
    ∧ 1 ≤ n ≤ 6
    ∧ (∀ i d, descriptions !! i = Some d →
         subTasks !! i
         = Some (Task.mk (uuid_of E (uuid_calls w + i)) d
                   (Some
                      [("parentTaskId", JStr (Task.id task));
                       ("step", JNum (Z.of_nat (i + 1)));
                       ("totalSteps", JNum (Z.of_nat n));
                       ("originalContext",
                        match Task.context task with
                        | Some c => JObj c
                        | None => JUndef
                        end)])
                   (Some (Task.id task))))
    ∧ (∀ i subTask, subTasks !! i = Some subTask →
         isolatedTask subTask
         = Task.mk (uuid_of E (uuid_calls w + i)) (Task.description subTask)
             (Some [("instruction", JStr (Task.description subTask));
                    ("step", JNum (Z.of_nat (i + 1)));
                    ("totalSteps", JNum (Z.of_nat n))])
             (Some (Task.id task))
         ∧ Task.description subTask ≠ ""
         ∧ validateTaskContext (isolatedTask subTask) = true).
Proof.
  cbn zeta. unfold decomposeTask.
  pose proof (decompose_from_spec E task
                (length (analyzeTaskDescription (Task.description task))) 0
                (analyzeTaskDescription (Task.description task)) w) as H.
  cbn zeta in H.
  destruct (decompose_from E task _ 0 _ w) as [subTasks w'].
  cbn [fst snd] in H. destruct H as (Hu & Hf & Hl & Hlog & Hun & Hlen & Hnth).
  exists subTasks. cbn [res self world].
  split; [done |]. split; [done |].
  split; [destruct w'; cbn in *; congruence |].
  split; [done |].
  split; [apply analyzeTaskDescription_length |].
  split; [intros i d Hi; by rewrite (Hnth i d Hi) |].
  intros i subTask Hi.
  destruct (lookup_lt_is_Some_2 (analyzeTaskDescription (Task.description task)) i)
    as [d Hd].
  { rewrite <- Hlen. by apply lookup_lt_Some in Hi. }
  rewrite (Hnth i d Hd) in Hi. injection Hi as <-.
  assert (d ≠ "") as Hne.
  { apply (analyzeTaskDescription_nonempty (Task.description task)).
    by apply list_elem_of_lookup_2 in Hd. }
  split; [done |]. split; [done |].
  unfold validateTaskContext, isolatedTask. cbn.
  unfold truthy_str. by destruct (String.eqb_spec d "").
Qed.

Lemma first_available_spec m :
  match first_available m with
  | Some k =>
      ∃ l1 c l2,
        m = l1 ++ (k, c) :: l2 ∧ available c = true
        ∧ Forall (fun kc => available kc.2 = false) l1
  | None => Forall (fun kc => available kc.2 = false) m
  end.
Proof.
  induction m as [|[k c] m IH]; simpl; [constructor |].
  destruct (available c) eqn:Hc.
  - exists [], c, m. by repeat split.
  - destruct (first_available m) as [k'|].
    + destruct IH as (l1 & c' & l2 & -> & Hc' & Hl1).
      exists ((k, c) :: l1), c', l2. repeat split; [done |].
      by constructor.
    + by constructor.
Qed.

(** X18: [findAvailableChild] returns the first child, in insertion
    order, whose status is [idle] or [completed], and nothing when there is
    none; it changes nothing.  [dispatchTask] without a target dispatches to
    that child, and raises "No available child agent found", leaving node
    and world alone, when there is none. *)
Theorem findAvailableChild_correct (E : Env) (subTask : ITask) (this : Agent)
    (w : World) :
  let o := findAvailableChild this w in
  ∃ found,
    o = mkOut (Ok found) this w
    ∧ match found with
      | Some k =>
          ∃ l1 c l2,
            children this = l1 ++ (k, c) :: l2
            ∧ (status c = IDLE ∨ status c = COMPLETED)
            ∧ Forall (fun kc => status kc.2 ≠ IDLE ∧ status kc.2 ≠ COMPLETED) l1
            ∧ dispatchTask E subTask None this w
              = dispatchTask E subTask (Some k) this w
      | None =>
          Forall (fun kc => status kc.2 ≠ IDLE ∧ status kc.2 ≠ COMPLETED)
            (children this)
          ∧ dispatchTask E subTask None this w
            = mkOut (Throw "No available child agent found") this w
      end.
Proof.
  cbn zeta. exists (first_available (children this)). split; [done |].
  assert (∀ c, available c = true ↔ status c = IDLE ∨ status c = COMPLETED)
    as Hav.
  { intros c. unfold available.
    rewrite orb_true_iff, !bool_decide_eq_true. done. }
  assert (∀ l, Forall (fun kc : string * Agent => available kc.2 = false) l →
               Forall (fun kc : string * Agent =>
                         status kc.2 ≠ IDLE ∧ status kc.2 ≠ COMPLETED) l)
    as Hno.
  { intros l Hl. eapply Forall_impl; [exact Hl |]. intros [k c] Hc. simpl in *.
    split; intros Hs; assert (available c = true) as Ht by (apply Hav; auto);
      congruence. }
  pose proof (first_available_spec (children this)) as H.
  unfold dispatchTask, findAvailableChild, mbind, M_bind, bind, get_this,
    mret, M_ret, ret, throw.
  cbn [res self world].
  destruct (first_available (children this)) as [k|].
  - destruct H as (l1 & c & l2 & Hm & Hc & Hl1).
    exists l1, c, l2. split; [done |]. split; [by apply Hav |].
    split; [by apply Hno | done].
  - split; [by apply Hno | done].
Qed.

Lemma children_set_set k c1 c2 m :
  children_set k c2 (children_set k c1 m) = children_set k c2 m.
Proof.
  induction m as [|[k' c'] m IH]; simpl.
  - by rewrite String.eqb_refl.
  - destruct (String.eqb k k') eqn:Hk; simpl; rewrite Hk; [done |].
    by rewrite IH.
Qed.

(** *** The results come from the workers *)

(** Whenever the worker's [executeTask] returns, the result carries the id
    of the task, whatever the gateway and the oracle do. *)
Lemma ChildAgent_executeTask_taskId (E : Env) task a w :
  wp (ChildAgent_executeTask E task)
    (fun r _ _ => Result.taskId r = Task.id task) (fun _ _ _ => True) a w.
Proof.
  unfold ChildAgent_executeTask.
  apply wp_bind, wp_all; [| done]. intros _ a1 w1.
  apply wp_bind, wp_all; [| done]. intros _ a2 w2.
  apply wp_bind, wp_all; [| done]. intros _ a3 w3.
  assert (∀ e a' w',
            wp
              (addExecutionLog E "error" ("Error: " +:+ e);;
               recordError E e;;
               this ← get_this;
               updateStatus E
                 (if isInErrorLoop None this then ERROR_LOOP else FAILED);;
               let result :=
                 Result.mk (Task.id task) false JUndef (Some e) (Some false) in
               reportResult E result;;
               reportToParent E result;;
               mret result)
              (fun r _ _ => Result.taskId r = Task.id task)
              (fun _ _ _ => True) a' w') as Hhandler.
  { intros e a' w'.
    apply wp_bind, wp_all; [| done]. intros _ a4 w4.
    apply wp_bind, wp_all; [| done]. intros _ a5 w5.
    apply wp_bind, wp_get_this.
    apply wp_bind, wp_all; [| done]. intros _ a6 w6.
    apply wp_bind, wp_all; [| done]. intros _ a7 w7.
    apply wp_bind, wp_all; [| done]. intros _ a8 w8.
    by apply wp_ret. }
  apply wp_try_catch.
  apply wp_bind, wp_all; [| intros; apply Hhandler]. intros _ a4 w4.
  apply wp_bind, wp_all; [| intros; apply Hhandler]. intros out a5 w5.
  apply wp_bind, wp_all; [| intros; apply Hhandler]. intros _ a6 w6.
  apply wp_bind, wp_all; [| intros; apply Hhandler]. intros b a7 w7.
  apply wp_bind, wp_all; [| intros; apply Hhandler]. intros _ a8 w8.
  apply wp_bind, wp_all; [| intros; apply Hhandler]. intros _ a9 w9.
  apply wp_bind, wp_all; [| intros; apply Hhandler]. intros _ a10 w10.
  apply wp_bind, wp_all; [| intros; apply Hhandler]. intros _ a11 w11.
  apply wp_bind, wp_all; [| intros; apply Hhandler]. intros _ a12 w12.
  by apply wp_ret.
Qed.

Lemma dispatchTask_answered (E : Env) subTask k a w :
  wp (dispatchTask E subTask (Some k))
    (fun r _ _ => answered E subTask r) (fun _ _ _ => True) a w.
Proof.
  change (dispatchTask E subTask (Some k))
    with (on_child k (ChildAgent_executeTask E (isolatedTask subTask))).
  unfold wp, on_child.
  destruct (children_get k (children a)) as [c|]; [| done]. cbn [res].
  pose proof (ChildAgent_executeTask_taskId E (isolatedTask subTask) c w) as Hid.
  unfold wp in Hid.
  destruct (res (ChildAgent_executeTask E (isolatedTask subTask) c w))
    as [r|e] eqn:Hres; [| done].
  split; [done |]. by exists c, w.
Qed.

Lemma processSubTask_answered (E : Env) subTask results a w :
  wp (processSubTask E subTask results)
    (fun rs _ _ => ∃ r, rs = results ++ [r] ∧ answered E subTask r)
    (fun _ _ _ => True) a w.
Proof.
  unfold processSubTask.
  apply wp_bind, wp_all; [| done]. intros k a1 w1.
  apply wp_bind.
  eapply wp_mono; [| | apply dispatchTask_answered]; [| done].
  intros r a2 w2 Hr. cbn beta.
  apply wp_bind, wp_all; [| done]. intros st a3 w3.
  destruct (negb (Result.success r) && bool_decide (st = ERROR_LOOP)).
  - apply wp_bind, wp_all; [| done]. intros n a4 w4.
    apply wp_bind, wp_modify, wp_bind.
    eapply wp_mono; [| | apply dispatchTask_answered]; [| done].
    intros r' a5 w5 Hr'. apply wp_ret. exists r'.
    split; [apply set_last_app | done].
  - apply wp_ret. by exists r.
Qed.

Lemma processSubTasks_answered (E : Env) subTasks results a w :
  wp (processSubTasks E subTasks results)
    (fun rs _ _ => ∃ rs', rs = results ++ rs' ∧ Forall2 (answered E) subTasks rs')
    (fun _ _ _ => True) a w.
Proof.
  revert results a w. induction subTasks as [|s l IH]; intros results a w.
  - apply wp_ret. exists []. split; [by rewrite app_nil_r | constructor].
  - simpl. apply wp_bind.
    eapply wp_mono; [| | apply processSubTask_answered]; [| done].
    intros rs a' w' (r & -> & Hr). cbn beta.
    eapply wp_mono; [| | apply IH]; [| done].
    intros rs' a'' w'' (rs'' & -> & Hrs''). cbn beta.
    exists (r :: rs''). split; [by rewrite <- app_assoc | by constructor].
Qed.

(** The sub-tasks depend on the world only through the next uuid. *)
Lemma decompose_from_world (E : Env) task total i ds w w' :
  uuid_calls w' = uuid_calls w →
  (decompose_from E task total i ds w').1 = (decompose_from E task total i ds w).1.
Proof.
  revert i w w'. induction ds as [|d ds IH]; intros i w w' Hw; [done |].
  simpl. rewrite Hw.
  specialize (IH (S i)
    (mkWorld (S (uuid_calls w)) (fs_calls w) (llm_calls w) (fs_log w)
       (unhandled w))
    (mkWorld (S (uuid_calls w)) (fs_calls w') (llm_calls w') (fs_log w')
       (unhandled w')) eq_refl).
  destruct (decompose_from E task total (S i) ds
              (mkWorld (S (uuid_calls w)) (fs_calls w') _ _ _)) as [r1 w1].
  destruct (decompose_from E task total (S i) ds
              (mkWorld (S (uuid_calls w)) (fs_calls w) _ _ _)) as [r2 w2].
  simpl in *. by rewrite IH.
Qed.

Lemma first_available_get m k :
  first_available m = Some k → is_Some (children_get k m).
Proof.
  induction m as [|[k' c] m IH]; simpl; [done |].
  destruct (available c).
  - intros [= <-]. rewrite String.eqb_refl. by eexists.
  - intros Hk. destruct (String.eqb k k'); [by eexists | by apply IH].
Qed.

Section Coordinator.

Variable E : Env.
Hypothesis Hfs : reliable E.
Hypothesis Hllm : llm_service E = true.

Lemma wp_addChild_root c (Q : string → Agent → World → Prop) QE a w :
  type a = ROOT →
  (∀ w',
     let child :=
       (ChildAgent_super E
          (Cfg.mk (Cfg.id c) (Cfg.name c) CHILD (Given (id a))
             (Cfg.agentMdPath c) (Cfg.maxRetries c) (Cfg.timeout c)
             (Cfg.enableMonitor c) (Cfg.description c) (Cfg.template c)) w).1 in
     Q (id child)
       (set_children (children_set (id child) child (children a)) a) w') →
  wp (addChild E c) Q QE a w.
Proof.
  intros Ht HQ. unfold wp, addChild. rewrite Ht.
  rewrite bool_decide_eq_false_2 by (by intros H). cbn [andb].
  cbn zeta in HQ. rewrite new_ChildAgent_cases, Hllm.
  unfold mbind, M_bind, bind, modify, forget, mret, M_ret, ret.
  cbn [res self world fst] in *. rewrite self_saveState. apply HQ.
Qed.

(** A root gets a child to work with: the first available one, or a new
    one. *)
Lemma acquireChild_returns a w :
  type a = ROOT →
  returns (acquireChild E)
    (fun k a' w' =>
       match first_available (children a) with
       | Some k0 => k = k0 ∧ a' = a ∧ w' = w
       | None =>
           k = uuid_of E (uuid_calls w)
           ∧ a' = set_children
                    (children_set (uuid_of E (uuid_calls w)) (hired E a w)
                       (children a)) a
       end) a w.
Proof.
  intros Ht. unfold returns, acquireChild, findAvailableChild.
  apply wp_bind, wp_bind, wp_get_this, wp_ret.
  destruct (first_available (children a)) as [k0|]; [by apply wp_ret |].
  apply wp_bind, wp_get_this, wp_bind, wp_addChild_root; [done |].
  intros w1. cbn zeta.
  set (child := (ChildAgent_super E _ w).1).
  assert (id child = uuid_of E (uuid_calls w)) as Hid by done.
  apply wp_bind.
  eapply wp_on_child; [apply children_get_set_eq |].
  apply wp_ChildAgent_initialize_ok; [done |]. intros w2.
  apply wp_ret. split; [done |].
  cbn [children set_children]. rewrite children_set_set, Hid.
  by destruct a.
Qed.

(** With an LLM service, the loop of a root runs to its end. *)
Lemma processSubTask_returns subTask results a w :
  type a = ROOT →
  returns (processSubTask E subTask results) (fun _ a' _ => type a' = ROOT) a w.
Proof.
  intros Ht. unfold returns, processSubTask.
  apply wp_bind.
  eapply wp_mono; [| | apply (acquireChild_returns a w Ht)]; [| done].
  intros k a1 w1 Hacq. cbn beta.
  assert (type a1 = ROOT ∧ is_Some (children_get k (children a1)))
    as [Ht1 [c Hc]].
  { destruct (first_available (children a)) as [k0|] eqn:Hk0.
    - destruct Hacq as (-> & -> & _). split; [done |].
      by apply first_available_get.
    - destruct Hacq as (-> & ->). split; [done |]. cbn [children set_children].
      rewrite children_get_set_eq. by eexists. }
  clear Hacq. apply wp_bind.
  change (dispatchTask E subTask (Some k))
    with (on_child k (ChildAgent_executeTask E (isolatedTask subTask))).
  eapply wp_on_child; [exact Hc |].
  eapply wp_mono;
    [| | exact (ChildAgent_executeTask_reliable E Hfs (isolatedTask subTask)
                  c w1)]; [| done].
  intros r c' w2 _. cbn beta.
  apply wp_bind.
  eapply wp_on_child; [cbn [children set_children]; apply children_get_set_eq |].
  apply wp_bind, wp_get_this, wp_ret.
  cbn [children set_children]. rewrite children_set_set.
  destruct (negb (Result.success r) && bool_decide (status c' = ERROR_LOOP));
    [| by apply wp_ret].
  apply wp_bind.
  eapply wp_on_child; [cbn [children set_children]; apply children_get_set_eq |].
  eapply wp_mono;
    [| | exact (recreate_returns E c' w2 Hfs (fun _ => Hllm))]; [| done].
  intros fresh c'' w3 _. cbn beta.
  apply wp_bind, wp_modify, wp_bind.
  change (dispatchTask E subTask (Some (id fresh)))
    with (on_child (id fresh) (ChildAgent_executeTask E (isolatedTask subTask))).
  eapply wp_on_child; [cbn [children set_children]; apply children_get_set_eq |].
  eapply wp_mono;
    [| | exact (ChildAgent_executeTask_reliable E Hfs (isolatedTask subTask)
                  fresh w3)]; [| done].
  intros r' c3 w4 _. by apply wp_ret.
Qed.

Lemma processSubTasks_returns subTasks results a w :
  type a = ROOT →
  returns (processSubTasks E subTasks results) (fun _ _ _ => True) a w.
Proof.
  revert results a w. induction subTasks as [|s l IH]; intros results a w Ht.
  - by apply wp_ret.
  - simpl. apply wp_bind.
    eapply wp_mono; [| | apply (processSubTask_returns s results a w Ht)];
      [| done].
    intros rs a' w' Ht'. by apply IH.
Qed.

End Coordinator.

(** X19: in the loop of the coordinator's [executeTask], a root with an
    available child reuses the first one and changes nothing; a root without
    one creates a worker named [child-agent-<n+1>] for [n] children, with a
    fresh uuid, the root as parent, timeout 120000 and 3 retries,
    initializes it (idle, monitor running) and stores it under its id.
    Writes are fulfilled.  Without an LLM service the constructor of the
    worker throws, and the root is left as it was. *)
Theorem acquireChild_correct (E : Env) (a : Agent) (w : World) :
  reliable E →
  type a = ROOT →
  let o := acquireChild E a w in
  (∀ k, first_available (children a) = Some k → o = mkOut (Ok k) a w)
  ∧ (first_available (children a) = None → llm_service E = true →
     let u := uuid_of E (uuid_calls w) in
     res o = Ok u
     ∧ self o = set_children (children_set u (hired E a w) (children a)) a
     ∧ id (hired E a w) = u
     ∧ name (hired E a w) = "child-agent-" +:+ pretty (length (children a) + 1)
     ∧ type (hired E a w) = CHILD
     ∧ parentId (hired E a w) = Some (id a)
     ∧ status (hired E a w) = IDLE
     ∧ monitor (hired E a w) = Some (mkMonitor true [])
     ∧ Conf.timeout (config (hired E a w)) = Some 120000%Z
     ∧ Conf.maxRetries (config (hired E a w)) = Some 3%Z
     ∧ errorHistory (hired E a w) = [] ∧ children (hired E a w) = [])
  ∧ (first_available (children a) = None → llm_service E = false →
     res o
     = Throw
         ("KIMI_API_KEY or KIMI_FOR_CODING_API_KEY is required. "
          +:+ "Please set it in environment variables.")
     ∧ self o = a).
Proof.
  intros Hfs Ht. cbn zeta. split; [| split].
  - intros k Hk. unfold acquireChild, findAvailableChild, mbind, M_bind, bind,
      get_this, mret, M_ret, ret.
    cbn [res self world]. by rewrite Hk.
  - intros Hnone Hllm.
    pose proof (acquireChild_returns E Hfs Hllm a w Ht) as H.
    rewrite Hnone in H.
    apply returns_elim in H as (k & Hres & -> & Hself).
    split; [done |]. split; [done |].
    unfold hired, initialized, ChildAgent_super, new_Agent. cbn.
    by repeat split.
  - intros Hnone Hllm.
    unfold acquireChild, findAvailableChild, mbind, M_bind, bind, get_this,
      mret, M_ret, ret.
    cbn [res self world]. rewrite Hnone. cbn [res self world].
    unfold addChild. rewrite Ht.
    rewrite bool_decide_eq_false_2 by (by intros H). cbn [andb].
    rewrite new_ChildAgent_cases, Hllm. by cbn.
Qed.

(** The loop raises only without an LLM service or on a node that is not a
    root. *)
Lemma processSubTasks_completes (E : Env) subTasks results a w :
  reliable E →
  wp (processSubTasks E subTasks results) (fun _ _ _ => True)
    (fun _ _ _ => ¬ (llm_service E = true ∧ type a = ROOT)) a w.
Proof.
  intros Hfs.
  destruct (decide (llm_service E = true ∧ type a = ROOT)) as [[Hllm Ht]|Hno].
  - eapply wp_mono;
      [| | apply (processSubTasks_returns E Hfs Hllm subTasks results a w Ht)];
      done.
  - by apply wp_all.
Qed.

Section Coordinator_executeTask.

Variable E : Env.
Hypothesis Hfs : reliable E.

(** X20: with fulfilled writes, the coordinator's [executeTask] always
    returns a result and never leaves the node [running].  Either the status
    is [completed], the error fields are untouched, and the result is the
    aggregation of one result per sub-task of [decomposeTask], in order,
    each being the result that the [executeTask] of a worker returned for
    the view of that sub-task that [dispatchTask] builds, with the id of the
    sub-task.  Or the status is [failed], the result is unsuccessful and
    carries the error, and that error has been recorded.  On a root with an
    LLM service the status is [completed].  The id and the current task are
    those of the call. *)
Theorem RootAgent_executeTask_returns (task : ITask) (a : Agent) (w : World) :
  let o := RootAgent_executeTask E task a w in
  ∃ r,
    res o = Ok r
    ∧ currentTask (self o) = Some task
    ∧ id (self o) = id a
    ∧ ((status (self o) = COMPLETED
        ∧ errorHistory (self o) = errorHistory a
        ∧ errorCount (self o) = errorCount a
        ∧ ∃ subTasks results,
            res (decomposeTask E task a w) = Ok subTasks
            ∧ Forall2 (answered E) subTasks results
            ∧ res (aggregateResults results (self o) (world o)) = Ok r)
       ∨ (status (self o) = FAILED
          ∧ ∃ e,
              r = Result.mk (Task.id task) false JUndef (Some e) None
              ∧ lastError (self o) = Some e
              ∧ errorHistory (self o) = pushed e (errorHistory a)
              ∧ errorCount (self o) = S (errorCount a)))
    ∧ (llm_service E = true → type a = ROOT → status (self o) = COMPLETED).
Proof.
  cbn zeta.
  set (P := fun x : Agent =>
              currentTask x = Some task ∧ id x = id a ∧ type x = type a
              ∧ errorHistory x = errorHistory a ∧ errorCount x = errorCount a).
  set (Q := fun (r : ITaskResult) (a' : Agent) (w' : World) =>
              currentTask a' = Some task
              ∧ id a' = id a
              ∧ ((status a' = COMPLETED
                  ∧ errorHistory a' = errorHistory a
                  ∧ errorCount a' = errorCount a
                  ∧ ∃ subTasks results,
                      res (decomposeTask E task a w) = Ok subTasks
                      ∧ Forall2 (answered E) subTasks results
                      ∧ res (aggregateResults results a' w') = Ok r)
                 ∨ (status a' = FAILED
                    ∧ ∃ e,
                        r = Result.mk (Task.id task) false JUndef (Some e) None
                        ∧ lastError a' = Some e
                        ∧ errorHistory a' = pushed e (errorHistory a)
                        ∧ errorCount a' = S (errorCount a)))
              ∧ (llm_service E = true → type a = ROOT → status a' = COMPLETED)).
  assert (returns (RootAgent_executeTask E task) Q a w) as H.
  2:{ apply returns_elim in H as (r & Hres & H). exists r. by split. }
  assert (∀ c s, P s → P (set_children c s)) as P_children by done.
  assert (∀ e s w', P s → ¬ (llm_service E = true ∧ type a = ROOT) →
            wp
              (let errorResult :=
                 Result.mk (Task.id task) false JUndef (Some e) None in
               updateStatus E FAILED;;
               recordError E e;;
               reportResult E errorResult;;
               mret errorResult) Q (fun _ _ _ => False) s w') as Hhandler.
  { intros e s w' (Hc & Hi & Ht & Hh & Hn) Hbad. cbn zeta.
    apply wp_bind, wp_updateStatus. intros w1.
    apply wp_bind, wp_recordError. intros w2.
    apply wp_bind, wp_reportResult_ok; [done |]. intros w3.
    apply wp_ret. unfold Q.
    rewrite currentTask_recorded, id_recorded, lastError_recorded,
      errorHistory_recorded, errorCount_recorded.
    split; [done |]. split; [done |]. split; [| by intros ? ?; destruct Hbad].
    right.
    split; [unfold recorded; cbn; by destruct (monitor s) |].
    exists e. cbn. by rewrite Hh, Hn. }
  unfold returns, RootAgent_executeTask.
  apply wp_bind. unfold wp at 1. rewrite res_updateStatus, self_updateStatus.
  pose proof (updateStatus_only_writes E RUNNING a w) as (Hu1 & _ & _).
  set (w1 := world (updateStatus E RUNNING a w)) in *.
  apply wp_bind, wp_modify.
  set (s0 := set_currentTask _ _).
  assert (P s0) as Hs0 by done.
  assert (type s0 = type a) as Hts0 by done. clearbody s0.
  apply wp_try_catch.
  apply wp_bind. unfold wp at 1, decomposeTask.
  assert (res (decomposeTask E task a w)
          = Ok (decompose_from E task
                  (length (analyzeTaskDescription (Task.description task))) 0
                  (analyzeTaskDescription (Task.description task)) w1).1)
    as Hdec.
  { unfold decomposeTask.
    rewrite (decompose_from_world E task _ 0 _ w w1 Hu1).
    by destruct (decompose_from E task _ 0 _ w). }
  destruct (decompose_from E task _ 0 _ w1) as [subTasks w2].
  cbn [res self world fst] in *.
  apply wp_bind.
  pose proof (processSubTasks_completes E subTasks [] s0 w2 Hfs) as Hcomp.
  rewrite Hts0 in Hcomp.
  eapply wp_mono;
    [| | apply (wp_conj _ _ _ _ _ _ _
                  (wp_conj _ _ _ _ _ _ _
                     (wp_keeps P _ s0 w2
                        (keeps_processSubTasks E P P_children subTasks []) Hs0)
                     (processSubTasks_answered E subTasks [] s0 w2))
                  Hcomp)].
  2:{ intros e a' w' [[Ha' _] Hbad]. by apply Hhandler. }
  intros results a' w' [[Ha' (rs' & Hrs & Hall)] _]. cbn beta in *.
  simpl in Hrs. subst rs'.
  unfold aggregateResults at 1.
  apply wp_bind, wp_bind, wp_get_this, wp_ret.
  apply wp_bind, wp_updateStatus. intros w3.
  apply wp_bind, wp_reportResult_ok; [done |]. intros w4.
  apply wp_ret. destruct Ha' as (Hc & Hi & Ht & Hh & Hn). unfold Q.
  split; [done |]. split; [done |]. split; [| done]. left.
  split; [done |]. split; [done |]. split; [done |].
  exists subTasks, results. split; [done |]. split; [done |].
  unfold aggregateResults, mbind, M_bind, bind, get_this, mret, M_ret, ret.
  cbn [res self world currentTask set_status]. done.
Qed.

End Coordinator_executeTask.

Lemma acquireChild_correct_witness :
  res (acquireChild E_ok sample_root world0) = Ok (sample_uuid 0).
Proof.
  pose proof (acquireChild_correct E_ok sample_root world0 (fun _ => eq_refl)
                eq_refl) as (_ & H & _).
  by destruct (H eq_refl eq_refl) as [Hres _].
Defined.

Lemma RootAgent_executeTask_returns_witness :
  ∃ r, res (RootAgent_executeTask E_ok sample_task sample_root world0) = Ok r
       ∧ Result.success r = true
       ∧ status (self (RootAgent_executeTask E_ok sample_task sample_root
                         world0)) = COMPLETED.
Proof.
  destruct (RootAgent_executeTask_returns E_ok (fun _ => eq_refl) sample_task
              sample_root world0) as (r & Hr & _ & _ & _ & Hdone).
  exists r. split; [exact Hr |]. split; [| by apply Hdone].
  vm_compute in Hr. by injection Hr as <-.
Defined.
